(** * Rolling audio capture buffer and WAV encoder of listener_web

    A shallow embedding of the audio core of [page.tsx]
    ([trimAudioBuffer], [createWavBlob], the [onaudioprocess] callback of
    [startRecording] and [transcribeAudio] up to the upload) and the
    properties of it that the specification states.  It then covers the
    rest of the recording logic: the chunk window of the media recorder
    in the three versions of the page, the level meter, and further
    properties of the functions above.

    JavaScript numbers are IEEE 754 binary64 values: they are modelled by
    [spec_float] with precision 53 and maximal exponent 1024, and their
    arithmetic by the operations of [SpecFloat], so that rounding is the
    one the program sees.  Array lengths, offsets, sample counts and the
    sample rate of the audio context are integers far below 2^53, on
    which binary64 arithmetic is exact: they are modelled by [Z] and
    [nat], and converted with [of_Z] where the program divides or
    multiplies them as numbers. *)

From Stdlib Require Import ZArith QArith Qminmax Qabs Lia String Ascii.
From Stdlib Require Import Floats.SpecFloat.
From stdpp Require Import base list.

Local Open Scope Z_scope.
Set Warnings "-abstract-large-number".

(** ** Exceptions *)

(** The only exception the modelled code can raise is the [RangeError] of
    a typed-array allocation with a negative length or of a [DataView]
    access outside its buffer. *)
Inductive js_error : Type := RangeError.

Inductive result (A : Type) : Type :=
  | Ok (a : A)
  | Throw (e : js_error).
Arguments Ok {A} a.
Arguments Throw {A} e.

#[global] Instance result_ret : MRet result := fun A a => Ok a.
#[global] Instance result_bind : MBind result := fun A B k r =>
  match r with
  | Ok a => k a
  | Throw e => Throw e
  end.


(** ** Numbers *)

Module Num.

Definition number : Type := spec_float.

Definition prec : Z := 53.
Definition emax : Z := 1024.

Definition mul (x y : number) : number := SFmul prec emax x y.
Definition div (x y : number) : number := SFdiv prec emax x y.
Definition ltb (x y : number) : bool := SFltb x y.

(** An integer as a number (exact below 2^53 in magnitude). *)
Definition of_Z (z : Z) : number := binary_normalize prec emax z 0 false.

Definition zero : number := S754_zero false.
Definition one : number := Eval vm_compute in of_Z 1.
Definition minus_one : number := Eval vm_compute in of_Z (-1).
(** The literals [0x7FFF] and [0x8000]. *)
Definition x7FFF : number := Eval vm_compute in of_Z 32767.
Definition x8000 : number := Eval vm_compute in of_Z 32768.

(** [Math.min] and [Math.max] of two arguments: NaN if either is NaN,
    and -0 is smaller than +0. *)
Definition Math_min (a b : number) : number :=
  match SFcompare a b with
  | None => S754_nan
  | Some Lt => a
  | Some Gt => b
  | Some Eq => match a with S754_zero true => a | _ => b end
  end.

Definition Math_max (a b : number) : number :=
  match SFcompare a b with
  | None => S754_nan
  | Some Lt => b
  | Some Gt => a
  | Some Eq => match a with S754_zero false => a | _ => b end
  end.

(** The integer part of a finite number, rounded toward zero, and
    whether a fractional part was dropped. *)
Definition trunc_mag (m : positive) (e : Z) : Z * bool :=
  match e with
  | Zneg p => (Z.shiftr (Zpos m) (Zpos p),
               negb (Zpos m mod 2 ^ Zpos p =? 0))
  | _ => (Z.shiftl (Zpos m) e, false)
  end.

(** Integer-valued numbers, the results of [Math.floor]: an integer, NaN
    or an infinity.  The sign of a zero is dropped; nothing that the
    program does with these numbers depends on it. *)
Inductive jsint : Type :=
  | JInt (z : Z)
  | JNaN
  | JInf (neg : bool).

Definition Math_floor (x : number) : jsint :=
  match x with
  | S754_nan => JNaN
  | S754_infinity s => JInf s
  | S754_zero _ => JInt 0
  | S754_finite s m e =>
      let '(q, frac) := trunc_mag m e in
      if s then JInt (- (if frac then q + 1 else q)) else JInt q
  end.

Definition jsint_sub (a b : jsint) : jsint :=
  match a, b with
  | JNaN, _ | _, JNaN => JNaN
  | JInt x, JInt y => JInt (x - y)
  | JInt _, JInf s => JInf (negb s)
  | JInf s, JInt _ => JInf s
  | JInf s, JInf t => if Bool.eqb s t then JNaN else JInf s
  end.

Definition jsint_max (a b : jsint) : jsint :=
  match a, b with
  | JNaN, _ | _, JNaN => JNaN
  | JInt x, JInt y => JInt (Z.max x y)
  | JInf false, _ | _, JInf false => JInf false
  | JInf true, c | c, JInf true => c
  end.

Definition jsint_min (a b : jsint) : jsint :=
  match a, b with
  | JNaN, _ | _, JNaN => JNaN
  | JInt x, JInt y => JInt (Z.min x y)
  | JInf true, _ | _, JInf true => JInf true
  | JInf false, c | c, JInf false => c
  end.

(** [a >= b]; false when either side is NaN. *)
Definition jsint_geb (a b : jsint) : bool :=
  match a, b with
  | JNaN, _ | _, JNaN => false
  | JInt x, JInt y => y <=? x
  | JInf false, _ => true
  | _, JInf true => true
  | _, _ => false
  end.

(** [ToInt16] of ECMAScript, as [DataView.setInt16] applies it:
    NaN, zeros and infinities give 0; a finite number is truncated
    toward zero and reduced modulo 2^16 into [-2^15, 2^15). *)
Definition wrap16 (z : Z) : Z := (z + 32768) mod 65536 - 32768.

Definition ToInt16 (x : number) : Z :=
  match x with
  | S754_finite s m e =>
      let q := fst (trunc_mag m e) in
      wrap16 (if s then - q else q)
  | _ => 0
  end.

(** [ToUint32] and [ToUint8] on integers. *)
Definition ToUint32 (z : Z) : Z := z mod 2 ^ 32.
Definition ToUint16 (z : Z) : Z := z mod 2 ^ 16.
Definition ToUint8 (z : Z) : Z := z mod 2 ^ 8.

End Num.
Import Num.

(** ** ArrayBuffer and DataView *)

(** An [ArrayBuffer] is a list of bytes, each in [0, 256). *)
Definition ArrayBuffer : Type := list Z.

Definition new_ArrayBuffer (n : nat) : ArrayBuffer := replicate n 0.

(** The [n] low bytes of [v], least significant first. *)
Fixpoint le_bytes (n : nat) (v : Z) : list Z :=
  match n with
  | O => []
  | S k => v mod 256 :: le_bytes k (v / 256)
  end.

Definition raw_bytes (n : nat) (v : Z) (littleEndian : bool) : list Z :=
  if littleEndian then le_bytes n v else reverse (le_bytes n v).

Fixpoint write_bytes (offset : nat) (bs : list Z) (buf : ArrayBuffer)
  : ArrayBuffer :=
  match bs with
  | [] => buf
  | b :: bs' => write_bytes (S offset) bs' (<[offset := b]> buf)
  end.

(** A [DataView] setter throws [RangeError] unless the whole value lies
    inside the buffer. *)
Definition set_raw (view : ArrayBuffer) (offset : nat) (bs : list Z)
  : result ArrayBuffer :=
  if decide (offset + length bs <= length view)%nat
  then Ok (write_bytes offset bs view)
  else Throw RangeError.

Definition setUint8 (view : ArrayBuffer) (offset : nat) (v : Z) :=
  set_raw view offset (raw_bytes 1 (ToUint8 v) true).

Definition setUint16 (view : ArrayBuffer) (offset : nat) (v : Z)
    (littleEndian : bool) :=
  set_raw view offset (raw_bytes 2 (ToUint16 v) littleEndian).

Definition setUint32 (view : ArrayBuffer) (offset : nat) (v : Z)
    (littleEndian : bool) :=
  set_raw view offset (raw_bytes 4 (ToUint32 v) littleEndian).

Definition setInt16 (view : ArrayBuffer) (offset : nat) (x : number)
    (littleEndian : bool) :=
  set_raw view offset (raw_bytes 2 (ToUint16 (ToInt16 x)) littleEndian).

(** ** [createWavBlob] *)

Definition charCode (c : ascii) : Z := Z.of_N (N_of_ascii c).

(** The local [writeString] of [createWavBlob]. *)
Fixpoint writeString (view : ArrayBuffer) (offset : nat) (s : string)
  : result ArrayBuffer :=
  match s with
  | EmptyString => Ok view
  | String c s' =>
      view' ← setUint8 view offset (charCode c);
      writeString view' (S offset) s'
  end.

(** Lines 69-70: the clamped sample, scaled by [0x8000] when negative and
    by [0x7FFF] otherwise. *)
Definition pcm_value (x : number) : number :=
  let sample := Math_max minus_one (Math_min one x) in
  if ltb sample zero then mul sample x8000 else mul sample x7FFF.

(** The loop that converts the float samples to 16-bit PCM. *)
Fixpoint write_samples (view : ArrayBuffer) (offset : nat)
    (audioData : list number) : result ArrayBuffer :=
  match audioData with
  | [] => Ok view
  | x :: rest =>
      view' ← setInt16 view offset (pcm_value x) true;
      write_samples view' (offset + 2) rest
  end.

Definition createWavBlob (audioData : list number) (sampleRate : Z)
  : result ArrayBuffer :=
  let length := length audioData in
  let view := new_ArrayBuffer (44 + length * 2) in
  view ← writeString view 0 "RIFF";
  view ← setUint32 view 4 (36 + Z.of_nat length * 2) true;
  view ← writeString view 8 "WAVE";
  view ← writeString view 12 "fmt ";
  view ← setUint32 view 16 16 true;
  view ← setUint16 view 20 1 true;
  view ← setUint16 view 22 1 true;
  view ← setUint32 view 24 sampleRate true;
  view ← setUint32 view 28 (sampleRate * 2) true;
  view ← setUint16 view 32 2 true;
  view ← setUint16 view 34 16 true;
  view ← writeString view 36 "data";
  view ← setUint32 view 40 (Z.of_nat length * 2) true;
  write_samples view 44 audioData.

(** ** [trimAudioBuffer] *)

(** [new Float32Array(len)]: [ToIndex] maps NaN to 0 and rejects negative
    and infinite lengths with a [RangeError]; the array starts zeroed. *)
Definition new_Float32Array (len : jsint) : result (list number) :=
  match len with
  | JInt n => if n <? 0 then Throw RangeError
              else Ok (replicate (Z.to_nat n) zero)
  | JNaN => Ok []
  | JInf _ => Throw RangeError
  end.

(** [audioBuffers.reduce((sum, buf) => sum + buf.length, 0)] *)
Definition total_samples (audioBuffers : list (list number)) : Z :=
  foldl (fun sum buf => sum + Z.of_nat (length buf)) 0 audioBuffers.

Record trim_state : Type := TrimState {
  trimmed : list number;
  outputIndex : nat;
  currentSample : Z
}.

(** The body of the inner loop of [trimAudioBuffer]. *)
Definition trim_step (startSample : jsint) (st : trim_state) (x : number)
  : trim_state :=
  if jsint_geb (JInt (currentSample st)) startSample
     && (outputIndex st <? length (trimmed st))%nat
  then TrimState (<[outputIndex st := x]> (trimmed st))
                 (S (outputIndex st)) (currentSample st + 1)
  else TrimState (trimmed st) (outputIndex st) (currentSample st + 1).

Definition trimAudioBuffer (audioBuffers : list (list number))
    (samplesToKeep : jsint) : result (list number) :=
  let totalSamples := total_samples audioBuffers in
  let startSample :=
    jsint_max (JInt 0) (jsint_sub (JInt totalSamples) samplesToKeep) in
  trimmed ← new_Float32Array (jsint_min samplesToKeep (JInt totalSamples));
  let final :=
    foldl (fun st buffer => foldl (trim_step startSample) st buffer)
          (TrimState trimmed 0 0) audioBuffers in
  let 'TrimState out _ _ := final in Ok out.

(** ** The capture session *)

(** The refs and state of the page that the raw capture uses:
    [audioBufferRef.current], [sampleRate.current] and the state
    [bufferLimitSeconds], which the page initialises to 30 and never
    changes. *)
Record Recorder : Type := mkRecorder {
  audioBufferRef : list (list number);
  sampleRate : Z;
  bufferLimitSeconds : Z
}.

(** The part of [startRecording] that concerns the raw capture: the
    sample rate is read from the audio context and the previous buffer is
    cleared.  None of these statements validates its input or throws. *)
Definition startRecording (contextSampleRate : Z) (bufferLimitSeconds : Z)
  : result Recorder :=
  Ok (mkRecorder [] contextSampleRate bufferLimitSeconds).

(** The [while] loop of [onaudioprocess]:
    [while (totalSamples > maxSamples && chunks.length > 1) shift]. *)
Fixpoint evict (chunks : list (list number)) (totalSamples maxSamples : Z)
  : list (list number) :=
  match chunks with
  | [] => []
  | removed :: rest =>
      if (maxSamples <? totalSamples) && (1 <? length chunks)%nat
      then evict rest (totalSamples - Z.of_nat (length removed)) maxSamples
      else chunks
  end.

Definition onaudioprocess (r : Recorder) (inputData : list number)
  : Recorder :=
  let chunks := audioBufferRef r ++ [inputData] in
  let maxSamples := sampleRate r * bufferLimitSeconds r in
  let totalSamples := total_samples chunks in
  mkRecorder (evict chunks totalSamples maxSamples)
             (sampleRate r) (bufferLimitSeconds r).

(** The retained sample count of a session. *)
Definition retained_count (r : Recorder) : Z :=
  total_samples (audioBufferRef r).

(** Lines 287-296 of [transcribeAudio], the specification's
    [snapshotLast]: the last [transcribeDurationSeconds] seconds of the
    raw buffer. *)
Definition snapshotLast (r : Recorder) (transcribeDurationSeconds : number)
  : result (list number) :=
  let audioBuffer := audioBufferRef r in
  let totalSamples := total_samples audioBuffer in
  let totalAvailableDuration :=
    div (of_Z totalSamples) (of_Z (sampleRate r)) in
  let requestedDuration :=
    Math_min transcribeDurationSeconds totalAvailableDuration in
  let samplesToKeep :=
    Math_floor (mul requestedDuration (of_Z (sampleRate r))) in
  trimAudioBuffer audioBuffer samplesToKeep.

(** Besides the raw samples, [startRecording] collects the encoded
    chunks that the [MediaRecorder] delivers every 100 ms.  A [Blob] is
    its bytes; [size] is their number. *)
Definition Blob : Type := list Z.

Definition Blob_size (b : Blob) : Z := Z.of_nat (length b).

(** [transcribeAudio] up to the upload, lines 256-299: the file that is
    uploaded.  [atEntry] is [audioChunksRef.current], the chunks of the
    media recorder, when the function is entered (line 257), and
    [afterWait] is the same array when it is read again (line 275),
    after the recorder was stopped and the function waited for its last
    chunks; [r] holds the raw buffer.  Without a chunk of the media
    recorder, at either point, or without raw audio the function alerts
    and returns ([None]); [Throw e] stands for the [catch] block, which
    reports the error to the user and gives up. *)
Definition transcribeAudio (atEntry afterWait : list Blob) (r : Recorder)
    (transcribeDurationSeconds : number) : result (option ArrayBuffer) :=
  if decide (length atEntry = 0%nat) then Ok None
  else if decide (length afterWait = 0%nat) then Ok None
  else
    let audioBuffer := audioBufferRef r in
    if decide (length audioBuffer = 0%nat) then Ok None
    else
      trimmedAudioData ← snapshotLast r transcribeDurationSeconds;
      audioBlob ← createWavBlob trimmedAudioData (sampleRate r);
      Ok (Some audioBlob).

Definition half : number := Eval vm_compute in div one (of_Z 2).
Definition quarter : number := Eval vm_compute in div one (of_Z 4).

(** ** Samples as exact rationals *)

(** The elements of a [Float32Array] read as numbers: NaN, the
    infinities, the zeros, and the finite binary64 numbers in canonical
    form that have at most 24 significant bits and lie in the binary32
    range (multiples of 2^-149 below 2^128). *)
Definition is_float32 (x : number) : bool :=
  match x with
  | S754_finite _ m e =>
      bounded prec emax m e
      && (e + 29 <=? 104)
      && (Zpos m mod 2 ^ Z.max 29 (-149 - e) =? 0)
  | _ => true
  end.

(** The rational a finite number denotes. *)
Definition SF2Q (x : number) : Q :=
  match x with
  | S754_finite s m e =>
      let n := if s then Zneg m else Zpos m in
      match e with
      | Zneg p => n # (2 ^ p)
      | _ => inject_Z (n * 2 ^ e)
      end
  | _ => 0%Q
  end.

(** The sample clamped to [-1, 1], as a rational; NaN has none. *)
Definition clamp_exact (x : number) : option Q :=
  match x with
  | S754_nan => None
  | S754_infinity s => Some (if s then (-1)%Q else 1%Q)
  | _ => Some (Qmax (-1) (Qmin 1 (SF2Q x)))
  end.

(** The clamped sample scaled by 32768 when negative and by 32767
    otherwise, in exact arithmetic. *)
Definition scale_exact (c : Q) : Q :=
  match (c ?= 0)%Q with
  | Lt => (c * 32768)%Q
  | _ => (c * 32767)%Q
  end.

(** Rounding toward zero. *)
Definition Qtrunc (q : Q) : Z := Z.quot (Qnum q) (Zpos (Qden q)).

(** The inverse of the quantization formula: a negative word is divided
    by 32768, any other by 32767. *)
Definition dequantize (w : Z) : Q :=
  if w <? 0 then w # 32768 else w # 32767.

(** One quantization step at the clamped sample [c]. *)
Definition quantization_step (c : Q) : Q :=
  match (c ?= 0)%Q with
  | Lt => 1 # 32768
  | _ => 1 # 32767
  end.

(** The binary32 value 2^-15 + 2^-31, just above one step of the
    negative scale. *)
Definition above_step : number :=
  Eval vm_compute in binary_normalize prec emax 65537 (-31) false.

(** ** Definitions used to state the properties *)

(** The state of a session against the chunks appended so far. *)
Definition retention_inv (maxSamples : Z)
    (appended retained : list (list number)) : Prop :=
  exists evicted,
    appended = evicted ++ retained
    /\ (appended <> [] -> retained <> [])
    /\ ((length retained <= 1)%nat \/ total_samples retained <= maxSamples)
    /\ (forall c, last evicted = Some c ->
          maxSamples < total_samples retained + Z.of_nat (length c))
    /\ (total_samples appended <= maxSamples -> evicted = []).

Definition string_codes (s : string) : list Z :=
  map charCode (list_ascii_of_string s).

(** The two bytes a sample contributes to the payload. *)
Definition pcm_bytes (x : number) : list Z :=
  raw_bytes 2 (ToUint16 (ToInt16 (pcm_value x))) true.

(** The 44-byte header of a mono 16-bit PCM file with [n] samples, field
    by field. *)
Definition wav_header (n : nat) (sampleRate : Z) : list Z :=
  string_codes "RIFF"
  ++ le_bytes 4 (ToUint32 (36 + Z.of_nat n * 2))
  ++ string_codes "WAVE"
  ++ string_codes "fmt "
  ++ le_bytes 4 (ToUint32 16)
  ++ le_bytes 2 (ToUint16 1)
  ++ le_bytes 2 (ToUint16 1)
  ++ le_bytes 4 (ToUint32 sampleRate)
  ++ le_bytes 4 (ToUint32 (sampleRate * 2))
  ++ le_bytes 2 (ToUint16 2)
  ++ le_bytes 2 (ToUint16 16)
  ++ string_codes "data"
  ++ le_bytes 4 (ToUint32 (Z.of_nat n * 2)).

(** The value of a little-endian byte sequence, and the [DataView]
    getters that read the fields of a file. *)
Definition le_value (bs : list Z) : Z :=
  foldr (fun b acc => b + 256 * acc) 0 bs.

Definition getBytes (bytes : list Z) (offset len : nat) : list Z :=
  take len (drop offset bytes).

Definition getUint32 (bytes : list Z) (offset : nat) : Z :=
  le_value (getBytes bytes offset 4).

Definition getUint16 (bytes : list Z) (offset : nat) : Z :=
  le_value (getBytes bytes offset 2).

Definition getInt16 (bytes : list Z) (offset : nat) : Z :=
  let u := getUint16 bytes offset in
  if u <? 32768 then u else u - 65536.

(** Sample rate 16000, a 2-second window, three chunks of 16000, 16000
    and 8000 samples, all 0.5. *)
Definition scenario_chunks : list (list number) :=
  [replicate 16000 half; replicate 16000 half; replicate 8000 half].

Definition scenario : result Recorder :=
  r ← startRecording 16000 2;
  mret (foldl onaudioprocess r scenario_chunks).

(** Numbers that are not negative: their sign bit is clear, or they are
    NaN. *)
Definition sign_clear (x : number) : Prop :=
  match x with
  | S754_zero s | S754_infinity s | S754_finite s _ _ => s = false
  | S754_nan => True
  end.

(** ** The chunks of the media recorder *)

(** [Math.ceil], with the conventions of [Math_floor]. *)
Definition Math_ceil (x : number) : jsint :=
  match x with
  | S754_nan => JNaN
  | S754_infinity s => JInf s
  | S754_zero _ => JInt 0
  | S754_finite s m e =>
      let '(q, frac) := trunc_mag m e in
      if s then JInt (- q) else JInt (if frac then q + 1 else q)
  end.

(** [a > b]; false when either side is NaN. *)
Definition jsint_gtb (a b : jsint) : bool :=
  match a, b with
  | JNaN, _ | _, JNaN => false
  | JInt x, JInt y => y <? x
  | JInf s, JInf t => negb s && t
  | JInf s, JInt _ => negb s
  | JInt _, JInf t => t
  end.

Definition recordingIntervalMs : Z := 100.

(** Line 211:
    [Math.ceil((bufferLimitSeconds * 1000) / recordingIntervalMs)]. *)
Definition maxChunks (bufferLimitSeconds : Z) : jsint :=
  Math_ceil (div (mul (of_Z bufferLimitSeconds) (of_Z 1000))
                 (of_Z recordingIntervalMs)).

(** Lines 214-216: [while (chunks.length > maxChunks) chunks.shift()].
    [shift] leaves an empty array empty, so a condition that holds of
    the empty array holds forever: the loop then has no result. *)
Fixpoint shift_excess (chunks : list Blob) (maxChunks : jsint)
  : option (list Blob) :=
  if jsint_gtb (JInt (Z.of_nat (length chunks))) maxChunks then
    match chunks with
    | [] => None
    | _ :: rest => shift_excess rest maxChunks
    end
  else Some chunks.

(** Lines 205-220, the [ondataavailable] handler: the new value of
    [audioChunksRef.current]. *)
Definition ondataavailable (bufferLimitSeconds : Z)
    (audioChunksRef : list Blob) (data : Blob) : option (list Blob) :=
  if 0 <? Blob_size data then
    shift_excess (audioChunksRef ++ [data]) (maxChunks bufferLimitSeconds)
  else Some audioChunksRef.

(** The handler run on the events of a recording, in order. *)
Fixpoint deliver (bufferLimitSeconds : Z) (audioChunksRef : list Blob)
    (events : list Blob) : option (list Blob) :=
  match events with
  | [] => Some audioChunksRef
  | data :: rest =>
      chunks ← ondataavailable bufferLimitSeconds audioChunksRef data;
      deliver bufferLimitSeconds chunks rest
  end.

(** ** The first version of the page ([src/app/page.tsx]) *)

Module PageTsx.

(** [array.slice(-n)] for a positive [n]: the last [n] elements, or the
    whole array when it is shorter. *)
Definition slice_last {A} (n : nat) (l : list A) : list A :=
  drop (length l - n) l.

(** The [ondataavailable] handler of this version: at most the last 300
    chunks are kept. *)
Definition ondataavailable (audioChunksRef : list Blob) (data : Blob)
  : list Blob :=
  if 0 <? Blob_size data then
    let chunks := audioChunksRef ++ [data] in
    if (300 <? length chunks)%nat then slice_last 300 chunks else chunks
  else audioChunksRef.

End PageTsx.

(** ** The version with time stamps ([part_001]) *)

Module Timestamped.

(** An element of [audioChunksRef.current]: the blob and the value of
    [Date.now()] at its arrival, in milliseconds. *)
Record Chunk : Type := mkChunk {
  blob : Blob;
  timestamp : Z
}.

(** The chunks that are not older than [cutoffTime]. *)
Definition recent (cutoffTime : Z) (chunks : list Chunk) : list Chunk :=
  filter (fun chunk => cutoffTime <= timestamp chunk) chunks.

(** The state the handler writes: the chunks and [bufferedDuration]. *)
Record Buffer : Type := mkBuffer {
  audioChunksRef : list Chunk;
  bufferedDuration : number
}.

(** The [ondataavailable] handler; [now] is the value of [Date.now()]
    read for the event. *)
Definition ondataavailable (bufferLimitSeconds : Z) (st : Buffer)
    (data : Blob) (now : Z) : Buffer :=
  if 0 <? Blob_size data then
    let timestamp := now in
    let pushed := audioChunksRef st ++ [mkChunk data timestamp] in
    let bufferLimitMs := bufferLimitSeconds * 1000 in
    let cutoffTime := timestamp - bufferLimitMs in
    let chunks := recent cutoffTime pushed in
    let oldestTimestamp :=
      match chunks with
      | c :: _ => Timestamped.timestamp c
      | [] => timestamp
      end in
    let duration :=
      Math_min (div (of_Z (timestamp - oldestTimestamp)) (of_Z 1000))
               (of_Z bufferLimitSeconds) in
    mkBuffer chunks duration
  else st.

(** The handler run on the events of a recording; an event is the blob
    and the value of [Date.now()] read for it. *)
Definition deliver (bufferLimitSeconds : Z) (st : Buffer)
    (events : list (Blob * Z)) : Buffer :=
  foldl (fun st ev => ondataavailable bufferLimitSeconds st ev.1 ev.2)
        st events.

(** The chunks of non-zero size among the events, with their time
    stamps. *)
Definition arrived (events : list (Blob * Z)) : list Chunk :=
  map (fun ev => mkChunk ev.1 ev.2)
      (filter (fun ev => 0 < Blob_size ev.1) events).

(** A clock that does not run backwards. *)
Fixpoint nondecreasing (times : list Z) : bool :=
  match times with
  | a :: rest =>
      match rest with
      | b :: _ => (a <=? b) && nondecreasing rest
      | [] => true
      end
  | [] => true
  end.

(** What [transcribeAudio] does with the buffer. *)
Inductive outcome : Type :=
  | Alert (message : string)
  | Upload (audioBlob : Blob).

(** [transcribeAudio] up to the upload.  [atEntry] is
    [audioChunksRef.current] when the function is entered and
    [afterWait] when the chunks are selected: the same array, with the
    chunks added that the recorder delivered while the function waited
    for it to stop.  [currentTime] is the value of [Date.now()]. *)
Definition transcribeAudio (bufferLimitSeconds : Z)
    (atEntry afterWait : list Chunk) (currentTime : Z) : outcome :=
  if decide (length atEntry = 0%nat) then
    Alert "No audio recorded"
  else
    let bufferLimitMs := bufferLimitSeconds * 1000 in
    let cutoffTime := currentTime - bufferLimitMs in
    let recentChunks := map blob (recent cutoffTime afterWait) in
    if decide (length recentChunks = 0%nat) then
      Alert "No recent audio data available"
    else Upload (concat recentChunks).

End Timestamped.

(** ** The level meter *)

(** [animate], lines 181-193: the level shown for the byte frequency
    data the analyser returns. *)
Definition normalizedLevel (dataArray : list Z) : number :=
  let average :=
    div (of_Z (foldl (fun sum value => sum + value) 0 dataArray))
        (of_Z (Z.of_nat (length dataArray))) in
  Math_min (div average (of_Z 128)) one.

(** * Properties *)

(** ** The model on small inputs *)

Example half_times_x7FFF : ToInt16 (mul half x7FFF) = 16383.
Proof. vm_compute. reflexivity. Qed.

Example pcm_value_nan : ToInt16 (pcm_value S754_nan) = 0.
Proof. reflexivity. Qed.

Example createWavBlob_two :
  createWavBlob [half; SFopp half] 16000 =
  Ok [82; 73; 70; 70; 40; 0; 0; 0; 87; 65; 86; 69;
      102; 109; 116; 32; 16; 0; 0; 0; 1; 0; 1; 0;
      128; 62; 0; 0; 0; 125; 0; 0; 2; 0; 16; 0;
      100; 97; 116; 97; 4; 0; 0; 0;
      255; 63; 0; 192].
Proof. vm_compute. reflexivity. Qed.

Example trimAudioBuffer_small :
  trimAudioBuffer [[half; quarter]; [one]; [zero; half]] (JInt 3)
  = Ok [one; zero; half].
Proof. vm_compute. reflexivity. Qed.

Example trimAudioBuffer_negative :
  trimAudioBuffer [[half; quarter]] (JInt (-1)) = Throw RangeError.
Proof. reflexivity. Qed.

Example onaudioprocess_small :
  audioBufferRef
    (foldl onaudioprocess (mkRecorder [] 2 2)
           [[half; half; half]; [quarter; quarter]; [one]])
  = [[quarter; quarter]; [one]].
Proof. reflexivity. Qed.

(** 0.1 as a binary64 number is not a binary32 value; 0.1 rounded to
    binary32, the least subnormal and the largest finite binary32 value
    are; 2^-150, 2^128 and 2^24 + 1 are not. *)
Example is_float32_examples :
  is_float32 (div one (of_Z 10)) = false
  /\ is_float32 (binary_normalize prec emax 13421773 (-27) false) = true
  /\ is_float32 (binary_normalize prec emax 1 (-149) false) = true
  /\ is_float32 (binary_normalize prec emax (2 ^ 24 - 1) 104 true) = true
  /\ is_float32 (binary_normalize prec emax 1 (-150) false) = false
  /\ is_float32 (binary_normalize prec emax 1 128 false) = false
  /\ is_float32 (of_Z (2 ^ 24 + 1)) = false
  /\ is_float32 above_step = true.
Proof. repeat split; reflexivity. Qed.

(** The quotient 61440 / 44100 and its product with 44100, as binary64
    numbers: the product is 61440 - 2^-37. *)
Example division_then_product :
  div (of_Z 61440) (of_Z 44100) = S754_finite false 6274402746159711 (-52)
  /\ mul (div (of_Z 61440) (of_Z 44100)) (of_Z 44100)
     = S754_finite false 8444249301319679 (-37)
  /\ of_Z 61440 = S754_finite false 8444249301319680 (-37).
Proof. repeat split; vm_compute; reflexivity. Qed.

(** Likewise 110592 / 48000 = 2.304 and its product with 48000, which
    is 110592 - 2^-36. *)
Example division_then_product_48000 :
  mul (div (of_Z 110592) (of_Z 48000)) (of_Z 48000)
  = S754_finite false 7599824371187711 (-36)
  /\ of_Z 110592 = S754_finite false 7599824371187712 (-36).
Proof. repeat split; vm_compute; reflexivity. Qed.

(** ** Sample counts *)

Lemma total_samples_from (chunks : list (list number)) (acc : Z) :
  foldl (fun sum buf => sum + Z.of_nat (length buf)) acc chunks
  = acc + total_samples chunks.
Proof.
  unfold total_samples. revert acc.
  induction chunks as [|c chunks IH]; intros acc; simpl; [lia|].
  rewrite (IH (acc + _)), (IH (0 + _)). lia.
Qed.

Lemma total_samples_nil : total_samples [] = 0.
Proof. reflexivity. Qed.

Lemma total_samples_cons c chunks :
  total_samples (c :: chunks) = Z.of_nat (length c) + total_samples chunks.
Proof. unfold total_samples at 1. simpl. apply total_samples_from. Qed.

Lemma total_samples_app a b :
  total_samples (a ++ b) = total_samples a + total_samples b.
Proof.
  induction a as [|c a IH]; simpl; [rewrite total_samples_nil; lia|].
  rewrite !total_samples_cons, IH. lia.
Qed.

Lemma total_samples_concat chunks :
  total_samples chunks = Z.of_nat (length (concat chunks)).
Proof.
  induction chunks as [|c chunks IH]; [reflexivity|].
  rewrite total_samples_cons, IH. simpl. rewrite length_app. lia.
Qed.

Lemma total_samples_nonneg chunks : 0 <= total_samples chunks.
Proof. rewrite total_samples_concat. lia. Qed.

(** ** [trimAudioBuffer] returns a suffix of the concatenated chunks *)

Lemma foldl_concat {A B} (f : A -> B -> A) (a : A) (ls : list (list B)) :
  foldl (fun st l => foldl f st l) a ls = foldl f a (concat ls).
Proof.
  revert a. induction ls as [|l ls IH]; intros a; simpl; [done|].
  by rewrite foldl_app, IH.
Qed.

(** Samples before [startSample] are skipped. *)
Lemma trim_loop_skip (s : Z) xs out oi cur :
  cur + Z.of_nat (length xs) <= s ->
  foldl (trim_step (JInt s)) (TrimState out oi cur) xs
  = TrimState out oi (cur + Z.of_nat (length xs)).
Proof.
  revert cur. induction xs as [|x xs IH]; intros cur Hle;
    cbn [foldl length] in *.
  - f_equal. lia.
  - unfold trim_step at 2. cbn [currentSample jsint_geb].
    destruct (Z.leb_spec s cur) as [Hs|Hs]; [lia|]. simpl.
    rewrite IH by lia. f_equal. lia.
Qed.

(** From [startSample] on, samples are copied in order to consecutive
    positions of the output. *)
Lemma trim_loop_copy (s : Z) xs out oi cur :
  s <= cur ->
  (oi + length xs <= length out)%nat ->
  foldl (trim_step (JInt s)) (TrimState out oi cur) xs
  = TrimState (take oi out ++ xs ++ drop (oi + length xs) out)
              (oi + length xs) (cur + Z.of_nat (length xs)).
Proof.
  revert out oi cur.
  induction xs as [|x xs IH]; intros out oi cur Hs Hlen;
    cbn [foldl length app] in *.
  - rewrite Nat.add_0_r, take_drop. f_equal. lia.
  - unfold trim_step at 2. cbn [currentSample outputIndex trimmed jsint_geb].
    destruct (Z.leb_spec s cur) as [_|?]; [|lia]. simpl.
    destruct (Nat.ltb_spec oi (length out)) as [Hoi|?]; [|lia].
    rewrite IH by (rewrite ?length_insert; lia).
    f_equal; [|lia..].
    rewrite insert_take_drop by lia.
    assert (length (take oi out ++ [x]) = S oi) as Hpre
      by (rewrite length_app, length_take; simpl; lia).
    replace (take oi out ++ x :: drop (S oi) out)
      with ((take oi out ++ [x]) ++ drop (S oi) out)
      by (by rewrite <- app_assoc).
    rewrite take_app_length' by done.
    rewrite drop_app_add' by done.
    rewrite drop_drop, <- app_assoc. simpl.
    by rewrite Nat.add_succ_r.
Qed.

(** What [trimAudioBuffer] returns for every finite sample count. *)
Lemma trimAudioBuffer_JInt (audioBuffers : list (list number)) (n : Z) :
  trimAudioBuffer audioBuffers (JInt n) =
  if n <? 0 then Throw RangeError
  else Ok (drop (Z.to_nat (total_samples audioBuffers - n))
                (concat audioBuffers)).
Proof.
  unfold trimAudioBuffer. simpl.
  pose proof (total_samples_concat audioBuffers) as Htot.
  set (tot := total_samples audioBuffers) in *.
  set (all := concat audioBuffers) in *.
  destruct (Z.ltb_spec (Z.min n tot) 0) as [Hneg|Hpos];
    destruct (Z.ltb_spec n 0) as [Hn|Hn]; try lia; [done|].
  simpl. rewrite foldl_concat. fold all.
  set (k := Z.to_nat (tot - n)).
  assert (k <= length all)%nat as Hk by (unfold k; lia).
  rewrite <- (take_drop k all) at 1.
  rewrite foldl_app, trim_loop_skip
    by (rewrite length_take; unfold k; lia).
  rewrite trim_loop_copy.
  - rewrite take_0, app_nil_l, (drop_ge (replicate _ _))
      by (rewrite length_replicate, length_drop; unfold k; lia).
    by rewrite app_nil_r.
  - rewrite length_take. unfold k. lia.
  - rewrite length_replicate, length_drop. unfold k. lia.
Qed.

Lemma trimAudioBuffer_JNaN (audioBuffers : list (list number)) :
  trimAudioBuffer audioBuffers JNaN = Ok [].
Proof.
  unfold trimAudioBuffer. simpl. rewrite foldl_concat.
  generalize 0. induction (concat audioBuffers) as [|x xs IH];
    intros c; [done|]. simpl. apply IH.
Qed.

Lemma trimAudioBuffer_JInf (audioBuffers : list (list number)) (neg : bool) :
  trimAudioBuffer audioBuffers (JInf neg) =
  if neg then Throw RangeError else Ok (concat audioBuffers).
Proof.
  destruct neg; [done|].
  unfold trimAudioBuffer. simpl.
  destruct (Z.ltb_spec (total_samples audioBuffers) 0) as [Hneg|_];
    [pose proof (total_samples_nonneg audioBuffers); lia|].
  simpl. rewrite foldl_concat, trim_loop_copy.
  - rewrite take_0, app_nil_l, drop_ge, app_nil_r; [done|].
    rewrite length_replicate, total_samples_concat. lia.
  - lia.
  - rewrite length_replicate, total_samples_concat. lia.
Qed.

(** A count that covers the whole buffer returns every sample, in the
    order of the chunks and of the samples within each chunk. *)
Lemma trimAudioBuffer_covering (audioBuffers : list (list number))
    (samplesToKeep : jsint) :
  jsint_geb samplesToKeep (JInt (total_samples audioBuffers)) = true ->
  trimAudioBuffer audioBuffers samplesToKeep = Ok (concat audioBuffers).
Proof.
  pose proof (total_samples_nonneg audioBuffers) as Hpos.
  destruct samplesToKeep as [n| |[|]]; simpl; intros Hge; try done.
  - apply Z.leb_le in Hge. rewrite trimAudioBuffer_JInt.
    destruct (Z.ltb_spec n 0); [lia|].
    by replace (Z.to_nat (total_samples audioBuffers - n)) with 0%nat by lia.
  - apply trimAudioBuffer_JInf.
Qed.

(** ** Eviction in [onaudioprocess] *)

Section Eviction.

Variable maxSamples : Z.

(** Nothing is evicted while the total stays within the ceiling. *)
Lemma evict_within chunks totalSamples :
  totalSamples <= maxSamples ->
  evict chunks totalSamples maxSamples = chunks.
Proof.
  intros Hle. destruct chunks as [|c chunks]; [done|]. simpl.
  destruct (Z.ltb_spec maxSamples totalSamples); [lia|done].
Qed.

(** A chunk longer than the ceiling evicts everything before it and is
    itself kept. *)
Lemma evict_oversize pre (c : list number) totalSamples :
  totalSamples = total_samples (pre ++ [c]) ->
  maxSamples < Z.of_nat (length c) ->
  evict (pre ++ [c]) totalSamples maxSamples = [c].
Proof.
  revert totalSamples.
  induction pre as [|p pre IH]; intros totalSamples Htot Hc.
  - simpl. by rewrite andb_false_r.
  - cbn [app evict].
    pose proof (total_samples_nonneg pre).
    rewrite <- app_comm_cons, total_samples_cons, total_samples_app,
      total_samples_cons, total_samples_nil in Htot.
    destruct (Z.ltb_spec maxSamples totalSamples); [|lia].
    destruct (Nat.ltb_spec 1 (length (p :: pre ++ [c]))) as [_|Hl];
      [|simpl in Hl; rewrite length_app in Hl; simpl in Hl; lia].
    simpl. apply IH; [|done].
    rewrite total_samples_app, total_samples_cons, total_samples_nil. lia.
Qed.

(** The exact outcome of the eviction loop: a non-empty suffix that fits
    the ceiling unless it is a single chunk, reached by dropping as few
    chunks as possible. *)
Lemma evict_spec chunks totalSamples :
  totalSamples = total_samples chunks ->
  exists evicted,
    chunks = evicted ++ evict chunks totalSamples maxSamples
    /\ (chunks <> [] -> evict chunks totalSamples maxSamples <> [])
    /\ ((length (evict chunks totalSamples maxSamples) <= 1)%nat
        \/ total_samples (evict chunks totalSamples maxSamples) <= maxSamples)
    /\ (forall c, last evicted = Some c ->
          maxSamples < total_samples (evict chunks totalSamples maxSamples)
                       + Z.of_nat (length c))
    /\ (totalSamples <= maxSamples -> evicted = []).
Proof.
  revert totalSamples.
  induction chunks as [|removed rest IH]; intros totalSamples Htot.
  - exists []. simpl. repeat split; try done. left. lia.
  - cbn [evict]. rewrite total_samples_cons in Htot.
    destruct (Z.ltb_spec maxSamples totalSamples) as [Hgt|Hle]; simpl andb.
    + cbn [length]. cbn [length] in IH.
      destruct (Nat.ltb_spec 1 (S (length rest))) as [Hlen|Hlen].
      * destruct (IH (totalSamples - Z.of_nat (length removed)))
          as (ev & Heq & Hne & Hfit & Hmin & _); [lia|].
        set (kept := evict rest _ maxSamples) in *.
        exists (removed :: ev). repeat split.
        -- simpl. by rewrite <- Heq.
        -- intros _. apply Hne. destruct rest; simpl in Hlen; [lia|done].
        -- done.
        -- intros c Hlast. destruct ev as [|e ev].
           ++ simpl in Hlast. injection Hlast as <-.
              simpl in Heq. rewrite <- Heq. lia.
           ++ apply Hmin. by rewrite last_cons_cons in Hlast.
        -- lia.
      * exists []. repeat split; try done. left. done.
    + exists []. repeat split; try done.
      right. rewrite total_samples_cons. lia.
Qed.

End Eviction.

Lemma retention_inv_step (r : Recorder) appended (c : list number) :
  retention_inv (sampleRate r * bufferLimitSeconds r)
                appended (audioBufferRef r) ->
  retention_inv (sampleRate r * bufferLimitSeconds r)
                (appended ++ [c]) (audioBufferRef (onaudioprocess r c)).
Proof.
  intros (ev1 & Heq1 & _ & _ & Hmin1 & Hnone1).
  unfold onaudioprocess. cbn [audioBufferRef].
  set (maxSamples := sampleRate r * bufferLimitSeconds r) in *.
  set (chunks := audioBufferRef r ++ [c]).
  destruct (evict_spec maxSamples chunks (total_samples chunks) eq_refl)
    as (ev2 & Heq2 & Hne2 & Hfit2 & Hmin2 & Hnone2).
  set (kept := evict chunks _ maxSamples) in *.
  exists (ev1 ++ ev2). repeat split.
  - rewrite Heq1, <- !app_assoc. f_equal. exact Heq2.
  - intros _. apply Hne2. unfold chunks. by destruct (audioBufferRef r).
  - done.
  - intros c0 Hlast. destruct ev2 as [|e ev2 _] using rev_ind.
    + rewrite app_nil_r in Hlast. simpl in Heq2. rewrite <- Heq2.
      unfold chunks. rewrite total_samples_app.
      pose proof (total_samples_nonneg [c]).
      specialize (Hmin1 c0 Hlast). lia.
    + rewrite app_assoc, last_snoc in Hlast. apply Hmin2.
      by rewrite last_snoc.
  - intros Hle. rewrite total_samples_app in Hle.
    pose proof (total_samples_nonneg [c]).
    pose proof (total_samples_nonneg appended).
    rewrite Hnone1 in * by lia. simpl in Heq1. subst appended.
    rewrite Hnone2; [done|]. unfold chunks. rewrite total_samples_app. lia.
Qed.

Lemma retention_inv_run (r : Recorder) appended (cs : list (list number)) :
  retention_inv (sampleRate r * bufferLimitSeconds r)
                appended (audioBufferRef r) ->
  retention_inv (sampleRate r * bufferLimitSeconds r)
                (appended ++ cs)
                (audioBufferRef (foldl onaudioprocess r cs)).
Proof.
  revert r appended. induction cs as [|c cs IH]; intros r appended Hinv.
  - by rewrite app_nil_r.
  - cbn [foldl]. rewrite (cons_middle c appended cs), app_assoc.
    exact (IH (onaudioprocess r c) _ (retention_inv_step r appended c Hinv)).
Qed.

Lemma retention_inv_start sr lim :
  retention_inv (sr * lim) [] [].
Proof. exists []. repeat split; try done. left. simpl. lia. Qed.

(** ** Layout of the bytes written by [createWavBlob] *)

Lemma length_le_bytes n v : length (le_bytes n v) = n.
Proof. revert v. induction n as [|n IH]; intros v; simpl; [done|]. by rewrite IH. Qed.

(** A write that starts where the data written so far ends replaces the
    bytes that follow it. *)
Lemma write_bytes_at_end (pre bs old rest : list Z) :
  length old = length bs ->
  write_bytes (length pre) bs (pre ++ old ++ rest) = pre ++ bs ++ rest.
Proof.
  revert pre old. induction bs as [|b bs IH]; intros pre old Hlen.
  - by destruct old.
  - destruct old as [|o old]; [done|]. cbn [write_bytes app].
    replace (<[length pre:=b]> (pre ++ o :: old ++ rest))
      with ((pre ++ [b]) ++ old ++ rest).
    + replace (S (length pre)) with (length (pre ++ [b]))
        by (rewrite length_app; simpl; lia).
      rewrite IH by (simpl in Hlen; lia). by rewrite <- app_assoc.
    + rewrite <- (Nat.add_0_r (length pre)) at 1.
      rewrite insert_app_r. simpl. by rewrite <- app_assoc.
Qed.

Lemma set_raw_zeros (pre bs : list Z) (offset k : nat) :
  offset = length pre ->
  set_raw (pre ++ replicate (length bs + k) 0) offset bs
  = Ok ((pre ++ bs) ++ replicate k 0).
Proof.
  intros ->. unfold set_raw.
  rewrite decide_True
    by (rewrite length_app, length_replicate; lia).
  rewrite replicate_add, write_bytes_at_end by apply length_replicate.
  by rewrite app_assoc.
Qed.

Lemma writeString_zeros (pre : list Z) (s : string) (offset k : nat) :
  offset = length pre ->
  writeString (pre ++ replicate (String.length s + k) 0) offset s
  = Ok ((pre ++ string_codes s) ++ replicate k 0).
Proof.
  revert pre offset. induction s as [|c s IH]; intros pre offset ->.
  - simpl. by rewrite app_nil_r.
  - cbn [writeString String.length]. unfold setUint8.
    change (S (String.length s) + k)%nat
      with (length (raw_bytes 1 (ToUint8 (charCode c)) true)
            + (String.length s + k))%nat.
    rewrite (set_raw_zeros pre _ (length pre) (String.length s + k)) by done.
    cbn [mbind result_bind].
    rewrite IH by (rewrite length_app; simpl; lia).
    assert (raw_bytes 1 (ToUint8 (charCode c)) true = [charCode c]) as ->.
    { unfold raw_bytes, le_bytes, ToUint8, charCode. f_equal.
      pose proof (N_ascii_bounded c) as Hb.
      rewrite Z.mod_mod by done.
      apply Z.mod_small. change (2 ^ 8) with 256. lia. }
    unfold string_codes. cbn [list_ascii_of_string map].
    by rewrite <- !app_assoc.
Qed.

Lemma write_samples_zeros (audioData : list number) (pre : list Z)
    (offset : nat) :
  offset = length pre ->
  write_samples (pre ++ replicate (length audioData * 2) 0) offset audioData
  = Ok (pre ++ concat (map pcm_bytes audioData)).
Proof.
  revert pre offset.
  induction audioData as [|x rest IH]; intros pre offset ->.
  - simpl. by rewrite !app_nil_r.
  - cbn [write_samples length map concat]. unfold setInt16.
    change (S (length rest) * 2)%nat
      with (length (pcm_bytes x) + length rest * 2)%nat.
    rewrite (set_raw_zeros pre (pcm_bytes x) (length pre)) by done.
    cbn [mbind result_bind].
    rewrite IH by (rewrite length_app; simpl; lia).
    by rewrite <- app_assoc.
Qed.

Lemma length_wav_header n sampleRate : length (wav_header n sampleRate) = 44%nat.
Proof. reflexivity. Qed.

(** [createWavBlob] never throws, and its output is the header followed
    by two bytes per sample, in the order of the samples. *)
Lemma createWavBlob_layout (audioData : list number) (sampleRate : Z) :
  createWavBlob audioData sampleRate
  = Ok (wav_header (length audioData) sampleRate
        ++ concat (map pcm_bytes audioData)).
Proof.
  unfold createWavBlob, new_ArrayBuffer.
  set (n := length audioData).
  unfold setUint32, setUint16, raw_bytes.
  change (replicate (44 + n * 2) 0)
    with ([] ++ replicate (String.length "RIFF" + (40 + n * 2)) 0).
  rewrite (writeString_zeros [] "RIFF" 0) by done.
  cbn [mbind result_bind].
  change (40 + n * 2)%nat with (4 + (36 + n * 2))%nat at 1.
  rewrite (set_raw_zeros _ (le_bytes 4 _) 4 (36 + n * 2)) by done.
  cbn [mbind result_bind].
  change (36 + n * 2)%nat with (String.length "WAVE" + (32 + n * 2))%nat.
  rewrite (writeString_zeros _ "WAVE" 8) by done.
  cbn [mbind result_bind].
  change (32 + n * 2)%nat with (String.length "fmt " + (28 + n * 2))%nat.
  rewrite (writeString_zeros _ "fmt " 12) by done.
  cbn [mbind result_bind].
  change (28 + n * 2)%nat with (4 + (24 + n * 2))%nat at 1.
  rewrite (set_raw_zeros _ (le_bytes 4 _) 16 (24 + n * 2)) by done.
  cbn [mbind result_bind].
  change (24 + n * 2)%nat with (2 + (22 + n * 2))%nat at 1.
  rewrite (set_raw_zeros _ (le_bytes 2 _) 20 (22 + n * 2)) by done.
  cbn [mbind result_bind].
  change (22 + n * 2)%nat with (2 + (20 + n * 2))%nat at 1.
  rewrite (set_raw_zeros _ (le_bytes 2 _) 22 (20 + n * 2)) by done.
  cbn [mbind result_bind].
  change (20 + n * 2)%nat with (4 + (16 + n * 2))%nat at 1.
  rewrite (set_raw_zeros _ (le_bytes 4 _) 24 (16 + n * 2)) by done.
  cbn [mbind result_bind].
  change (16 + n * 2)%nat with (4 + (12 + n * 2))%nat at 1.
  rewrite (set_raw_zeros _ (le_bytes 4 _) 28 (12 + n * 2)) by done.
  cbn [mbind result_bind].
  change (12 + n * 2)%nat with (2 + (10 + n * 2))%nat at 1.
  rewrite (set_raw_zeros _ (le_bytes 2 _) 32 (10 + n * 2)) by done.
  cbn [mbind result_bind].
  change (10 + n * 2)%nat with (2 + (8 + n * 2))%nat at 1.
  rewrite (set_raw_zeros _ (le_bytes 2 _) 34 (8 + n * 2)) by done.
  cbn [mbind result_bind].
  change (8 + n * 2)%nat with (String.length "data" + (4 + n * 2))%nat.
  rewrite (writeString_zeros _ "data" 36) by done.
  cbn [mbind result_bind].
  change (4 + n * 2)%nat with (4 + (0 + n * 2))%nat at 1.
  rewrite (set_raw_zeros _ (le_bytes 4 _) 40 (0 + n * 2)) by done.
  cbn [mbind result_bind].
  change (0 + n * 2)%nat with (length audioData * 2)%nat.
  rewrite write_samples_zeros by done.
  f_equal.
Qed.

(** ** Reading the file back *)

Lemma le_value_le_bytes (n : nat) (v : Z) :
  le_value (le_bytes n v) = v mod 256 ^ Z.of_nat n.
Proof.
  revert v. induction n as [|n IH]; intros v.
  - simpl. by rewrite Z.mod_1_r.
  - cbn [le_bytes le_value foldr]. fold (le_value (le_bytes n (v / 256))).
    rewrite IH, Nat2Z.inj_succ, Z.pow_succ_r by lia.
    rewrite Z.rem_mul_r by lia. done.
Qed.

Lemma ToUint32_range v : 0 <= ToUint32 v < 2 ^ 32.
Proof. unfold ToUint32. apply Z.mod_pos_bound. lia. Qed.

Lemma ToUint16_range v : 0 <= ToUint16 v < 2 ^ 16.
Proof. unfold ToUint16. apply Z.mod_pos_bound. lia. Qed.

(** A value that fits its field is stored unchanged. *)
Lemma ToUint32_fits v : 0 <= v < 2 ^ 32 -> ToUint32 v = v.
Proof. intros. unfold ToUint32. by apply Z.mod_small. Qed.

Lemma le_value_u32 v : le_value (le_bytes 4 (ToUint32 v)) = ToUint32 v.
Proof.
  rewrite le_value_le_bytes. apply Z.mod_small.
  pose proof (ToUint32_range v). change (256 ^ Z.of_nat 4) with (2 ^ 32). lia.
Qed.

Lemma le_value_u16 v : le_value (le_bytes 2 (ToUint16 v)) = ToUint16 v.
Proof.
  rewrite le_value_le_bytes. apply Z.mod_small.
  pose proof (ToUint16_range v). change (256 ^ Z.of_nat 2) with (2 ^ 16). lia.
Qed.

Lemma wrap16_range z : -32768 <= wrap16 z < 32768.
Proof.
  unfold wrap16. pose proof (Z.mod_pos_bound (z + 32768) 65536). lia.
Qed.

Lemma wrap16_small z : -32768 <= z < 32768 -> wrap16 z = z.
Proof. intros. unfold wrap16. rewrite Z.mod_small; lia. Qed.

Lemma ToInt16_range x : -32768 <= ToInt16 x < 32768.
Proof. destruct x; simpl; try lia. apply wrap16_range. Qed.

(** Two's complement: a 16-bit word read back as signed gives the
    integer that was stored. *)
Lemma int16_roundtrip w :
  -32768 <= w < 32768 ->
  (let u := le_value (le_bytes 2 (ToUint16 w)) in
   if u <? 32768 then u else u - 65536) = w.
Proof.
  intros Hw. rewrite le_value_u16. unfold ToUint16.
  change (2 ^ 16) with 65536.
  destruct (Z_lt_le_dec w 0) as [Hneg|Hpos].
  - replace (w mod 65536) with (w + 65536).
    + cbv zeta. destruct (Z.ltb_spec (w + 65536) 32768); lia.
    + apply (Z.mod_unique _ _ (-1)); lia.
  - rewrite Z.mod_small by lia. cbv zeta.
    destruct (Z.ltb_spec w 32768); lia.
Qed.

Lemma length_pcm_bytes x : length (pcm_bytes x) = 2%nat.
Proof. reflexivity. Qed.

Lemma length_payload (audioData : list number) :
  length (concat (map pcm_bytes audioData)) = (length audioData * 2)%nat.
Proof.
  induction audioData as [|x rest IH]; [done|].
  cbn [map concat]. rewrite length_app, IH. simpl. lia.
Qed.

Lemma drop_payload (audioData : list number) (i : nat) :
  drop (2 * i) (concat (map pcm_bytes audioData))
  = concat (map pcm_bytes (drop i audioData)).
Proof.
  revert audioData. induction i as [|i IH]; intros audioData; [done|].
  destruct audioData as [|x rest]; [done|].
  replace (2 * S i)%nat with (2 + 2 * i)%nat by lia.
  cbn [map concat]. rewrite <- drop_drop.
  rewrite (drop_app_length' (pcm_bytes x)) by done. apply IH.
Qed.

(** The [i]-th payload word is the 16-bit integer of the [i]-th sample. *)
Lemma payload_word (audioData : list number) (sampleRate : Z) (i : nat)
    (x : number) :
  audioData !! i = Some x ->
  getInt16 (wav_header (length audioData) sampleRate
            ++ concat (map pcm_bytes audioData)) (44 + 2 * i)
  = ToInt16 (pcm_value x).
Proof.
  intros Hi. unfold getInt16, getUint16, getBytes.
  rewrite <- drop_drop, (drop_app_length' (wav_header _ _)) by done.
  rewrite drop_payload, (drop_S _ x i Hi).
  cbn [map concat]. rewrite (take_app_length' (pcm_bytes x)) by done.
  apply int16_roundtrip, ToInt16_range.
Qed.

(** ** Exact binary64 products *)

(** The products [createWavBlob] forms are exact: a [Float32Array]
    element has at most 24 significant bits and the scale factors have
    at most 15, so the product fits the 53 bits of a binary64 mantissa.
    This section derives it from the definition of [SFmul]. *)

Lemma digits2_size (p : positive) : digits2_pos p = Pos.size p.
Proof. induction p as [p IH|p IH|]; simpl; by rewrite ?IH. Qed.

Lemma digits2_bounds (p : positive) :
  2 ^ (Zpos (digits2_pos p) - 1) <= Zpos p < 2 ^ Zpos (digits2_pos p).
Proof.
  rewrite digits2_size. split.
  - pose proof (Pos.size_le p) as H.
    apply (Pos2Z.pos_le_pos) in H. rewrite Pos2Z.inj_pow in H.
    replace (Zpos (Pos.size p)) with (Z.succ (Zpos (Pos.size p) - 1)) in H
      by lia.
    rewrite Z.pow_succ_r in H by lia. lia.
  - pose proof (Pos.size_gt p) as H.
    apply (Pos2Z.pos_lt_pos) in H. by rewrite Pos2Z.inj_pow in H.
Qed.

Lemma digits2_unique (p : positive) (d : Z) :
  2 ^ (d - 1) <= Zpos p < 2 ^ d -> Zpos (digits2_pos p) = d.
Proof.
  intros [Hlo Hhi]. pose proof (digits2_bounds p) as [Hlo' Hhi'].
  set (s := Zpos (digits2_pos p)) in *.
  assert (0 < d) as Hd.
  { destruct (Z_lt_le_dec 0 d) as [|Hle]; [done|].
    assert (2 ^ d <= 2 ^ 0) by (destruct (Z_lt_le_dec d 0);
      [rewrite Z.pow_neg_r by done; lia|apply Z.pow_le_mono_r; lia]).
    simpl in *. lia. }
  destruct (Z_lt_le_dec s d) as [Hlt|Hge].
  - assert (2 ^ s <= 2 ^ (d - 1)) by (apply Z.pow_le_mono_r; lia). lia.
  - destruct (Z_lt_le_dec d s) as [Hlt|Hle]; [|lia].
    assert (2 ^ d <= 2 ^ (s - 1)) by (apply Z.pow_le_mono_r; lia). lia.
Qed.

Lemma pos_pow_xO (q n : positive) :
  (q * 2 ^ n~0 = q * 2 ^ n * 2 ^ n)%positive.
Proof.
  apply Pos2Z.inj. rewrite !Pos2Z.inj_mul, !Pos2Z.inj_pow.
  replace (Zpos n~0) with (Zpos n + Zpos n) by lia.
  rewrite Z.pow_add_r by lia. lia.
Qed.

Lemma pos_pow_xI (q n : positive) :
  (q * 2 ^ n~1 = (q * 2 ^ n * 2 ^ n)~0)%positive.
Proof.
  apply Pos2Z.inj. rewrite Pos2Z.inj_xO, !Pos2Z.inj_mul, !Pos2Z.inj_pow.
  replace (Zpos n~1) with (Zpos n + Zpos n + 1) by lia.
  rewrite !Z.pow_add_r by lia. lia.
Qed.

(** Shifting out [n] zero bits loses nothing. *)
Lemma shr_exact (n q : positive) :
  SpecFloat.iter_pos shr_1 n
    (Build_shr_record (Zpos (q * 2 ^ n)) false false)
  = Build_shr_record (Zpos q) false false.
Proof.
  revert q. induction n as [n IH|n IH|]; intros q;
    cbn [SpecFloat.iter_pos].
  - rewrite pos_pow_xI. cbn [shr_1 orb]. by rewrite !IH.
  - rewrite pos_pow_xO. by rewrite !IH.
  - replace (q * 2 ^ 1)%positive with (q~0)%positive
      by (rewrite Pos.pow_1_r; lia).
    done.
Qed.

Lemma digits2_shift (q n : positive) :
  Zpos (digits2_pos (q * 2 ^ n)) = Zpos (digits2_pos q) + Zpos n.
Proof.
  apply digits2_unique. pose proof (digits2_bounds q) as Hb.
  rewrite Pos2Z.inj_mul, Pos2Z.inj_pow.
  replace (Zpos (digits2_pos q) + Zpos n - 1)
    with (Zpos (digits2_pos q) - 1 + Zpos n) by lia.
  rewrite !Z.pow_add_r by lia.
  assert (0 < 2 ^ Zpos n) by (apply Z.pow_pos_nonneg; lia). nia.
Qed.

Lemma shr_fexp_exact (q n : positive) (e : Z) :
  Zpos (digits2_pos q) = 53 ->
  -1074 <= e + Zpos n ->
  shr_fexp prec emax (Zpos (q * 2 ^ n)) e loc_Exact
  = (Build_shr_record (Zpos q) false false, e + Zpos n).
Proof.
  intros Hq He. unfold shr_fexp. cbn [Zdigits2].
  rewrite digits2_shift, Hq. unfold fexp, emin, prec, emax.
  replace (Z.max (53 + Zpos n + e - 53) (3 - 1024 - 53) - e)
    with (Zpos n) by lia.
  cbn [shr_record_of_loc shr]. by rewrite shr_exact.
Qed.

Lemma shr_fexp_id (q : positive) (e : Z) :
  Zpos (digits2_pos q) = 53 ->
  -1074 <= e ->
  shr_fexp prec emax (Zpos q) e loc_Exact
  = (Build_shr_record (Zpos q) false false, e).
Proof.
  intros Hq He. unfold shr_fexp. cbn [Zdigits2].
  rewrite Hq. unfold fexp, emin, prec, emax.
  replace (Z.max (53 + e - 53) (3 - 1024 - 53) - e) with 0 by lia.
  done.
Qed.

(** A product whose significant bits, once [n] trailing zeros are set
    aside, fit the mantissa exactly is computed without rounding. *)
Lemma SFmul_exact (s1 s2 : bool) (m1 m2 q n : positive) (e1 e2 : Z) :
  (m1 * m2 = q * 2 ^ n)%positive ->
  Zpos (digits2_pos q) = 53 ->
  -1074 <= e1 + e2 + Zpos n <= 971 ->
  mul (S754_finite s1 m1 e1) (S754_finite s2 m2 e2)
  = S754_finite (xorb s1 s2) q (e1 + e2 + Zpos n).
Proof.
  intros Hprod Hq He. unfold mul, SFmul, binary_round_aux.
  rewrite Hprod, shr_fexp_exact by (done || lia).
  cbn [shr_m loc_of_shr_record round_nearest_even].
  rewrite shr_fexp_id by (done || lia).
  cbn [shr_m]. unfold prec, emax.
  destruct (Z.leb_spec (e1 + e2 + Zpos n) (1024 - 53)); [done|lia].
Qed.

(** *** Float32 samples in binary64 form *)

Lemma is_float32_finite (s : bool) (m : positive) (e : Z) :
  is_float32 (S754_finite s m e) = true ->
  Zpos (digits2_pos m) = 53
  /\ (exists a : positive, m = (a * 2 ^ 29)%positive)
  /\ -1074 <= e <= 75.
Proof.
  unfold is_float32, bounded, canonical_mantissa, fexp, emin, prec, emax.
  rewrite !andb_true_iff, !Z.eqb_eq, !Z.leb_le.
  intros [[[Hcan _] He] Hmod].
  set (d := Zpos (digits2_pos m)) in *.
  set (k := Z.max 29 (-149 - e)) in *.
  assert (0 < 2 ^ k) as Hk by (apply Z.pow_pos_nonneg; lia).
  apply Z.mod_divide in Hmod; [|lia]. destruct Hmod as [c Hc].
  assert (0 < c) as Hcpos by nia.
  assert (2 ^ k <= Zpos m) as Hle by nia.
  pose proof (digits2_bounds m) as [_ Hhi]. fold d in Hhi.
  assert (d = 53) as Hd.
  { destruct (Z.max_spec (d + e - 53) (3 - 1024 - 53)) as [[_ Hm]|[_ Hm]];
      [|lia].
    assert (e = -1074) as -> by lia.
    assert (2 ^ 53 <= 2 ^ k) by (apply Z.pow_le_mono_r; lia).
    assert (2 ^ d <= 2 ^ 53) by (apply Z.pow_le_mono_r; lia). lia. }
  split; [done|]. split; [|lia].
  assert (2 ^ k = 2 ^ 29 * 2 ^ (k - 29)) as Hsplit
    by (rewrite <- Z.pow_add_r by lia; f_equal; lia).
  assert (0 < 2 ^ (k - 29)) by (apply Z.pow_pos_nonneg; lia).
  exists (Z.to_pos (c * 2 ^ (k - 29))).
  apply Pos2Z.inj. rewrite Pos2Z.inj_mul, Z2Pos.id by nia.
  rewrite Hc, Hsplit. change (Zpos (2 ^ 29)) with (2 ^ 29). lia.
Qed.

Lemma trunc_mag_neg (m : positive) (e : Z) :
  e < 0 -> fst (trunc_mag m e) = Zpos m / 2 ^ (- e).
Proof.
  intros He. destruct e as [|p|p]; [lia..|].
  cbn [trunc_mag fst]. rewrite Z.shiftr_div_pow2 by lia. done.
Qed.

Lemma x7FFF_eq : x7FFF = S754_finite false (32767 * 2 ^ 38) (-38).
Proof. reflexivity. Qed.

Lemma x8000_eq : x8000 = S754_finite false (2 ^ 52) (-37).
Proof. reflexivity. Qed.

Lemma one_eq : one = S754_finite false (2 ^ 52) (-52).
Proof. reflexivity. Qed.

Lemma minus_one_eq : minus_one = S754_finite true (2 ^ 52) (-52).
Proof. reflexivity. Qed.

(** A sample strictly between -1 and 1 is left alone by the clamp. *)
Lemma pcm_value_inside (s : bool) (m : positive) (e : Z) :
  e < -52 ->
  pcm_value (S754_finite s m e)
  = mul (S754_finite s m e) (if s then x8000 else x7FFF).
Proof.
  intros He. unfold pcm_value, Math_min, Math_max, ltb, SFltb.
  rewrite one_eq, minus_one_eq.
  assert ((-52 ?= e) = Gt) as Hcmp by (apply Z.compare_gt_iff; lia).
  destruct s; cbn [SFcompare]; rewrite ?Hcmp; cbn [SFcompare]; done.
Qed.

(** The product of a non-negative sample below 1 with [0x7FFF], and its
    integer part. *)
Lemma ToInt16_mul_x7FFF (m : positive) (e : Z) :
  is_float32 (S754_finite false m e) = true ->
  e < -52 ->
  ToInt16 (mul (S754_finite false m e) x7FFF)
  = (Zpos m * 32767) / 2 ^ (- e).
Proof.
  intros Hf He.
  destruct (is_float32_finite _ _ _ Hf) as (Hd & [a ->] & Hlo & _).
  pose proof (digits2_bounds (a * 2 ^ 29)) as Hb. rewrite Hd in Hb.
  rewrite Pos2Z.inj_mul in Hb. change (Zpos (2 ^ 29)) with (2 ^ 29) in Hb.
  change (2 ^ (53 - 1)) with (2 ^ 23 * 2 ^ 29) in Hb.
  change (2 ^ 53) with (2 ^ 24 * 2 ^ 29) in Hb.
  assert (2 ^ 23 <= Zpos a < 2 ^ 24) as Ha by lia. clear Hb.
  assert (exists q n : positive,
    ((a * 2 ^ 29) * (32767 * 2 ^ 38) = q * 2 ^ n)%positive
    /\ Zpos (digits2_pos q) = 53 /\ (n = 52 \/ n = 53)%positive)
    as (q & n & Hprod & Hq & Hn).
  { destruct (Z_lt_le_dec (Zpos a * 32767) (2 ^ 38)) as [Hlt|Hge].
    - exists (a * 32767 * 2 ^ 15)%positive, 52%positive.
      split; [|split; [|by left]].
      + apply Pos2Z.inj. rewrite !Pos2Z.inj_mul.
        change (Zpos (2 ^ 29)) with (2 ^ 29).
        change (Zpos (2 ^ 38)) with (2 ^ 38).
        change (Zpos (2 ^ 15)) with (2 ^ 15).
        change (Zpos (2 ^ 52)) with (2 ^ 52). lia.
      + apply digits2_unique. rewrite !Pos2Z.inj_mul.
        change (Zpos (2 ^ 15)) with (2 ^ 15). lia.
    - exists (a * 32767 * 2 ^ 14)%positive, 53%positive.
      split; [|split; [|by right]].
      + apply Pos2Z.inj. rewrite !Pos2Z.inj_mul.
        change (Zpos (2 ^ 29)) with (2 ^ 29).
        change (Zpos (2 ^ 38)) with (2 ^ 38).
        change (Zpos (2 ^ 14)) with (2 ^ 14).
        change (Zpos (2 ^ 53)) with (2 ^ 53). lia.
      + apply digits2_unique. rewrite !Pos2Z.inj_mul.
        change (Zpos (2 ^ 14)) with (2 ^ 14). lia. }
  rewrite x7FFF_eq, (SFmul_exact false false _ _ q n) by (done || lia).
  cbn [xorb ToInt16]. rewrite trunc_mag_neg by lia.
  apply (f_equal Zpos) in Hprod. rewrite !Pos2Z.inj_mul, Pos2Z.inj_pow in Hprod.
  change (Zpos (2 ^ 29)) with (2 ^ 29) in Hprod.
  change (Zpos (2 ^ 38)) with (2 ^ 38) in Hprod.
  rewrite Pos2Z.inj_mul. change (Zpos (2 ^ 29)) with (2 ^ 29).
  set (k := - e - 53).
  assert (0 <= k) as Hk by (unfold k; lia).
  assert (0 < 2 ^ k) as Hpk by (apply Z.pow_pos_nonneg; lia).
  assert (Zpos q / 2 ^ (- (e + -38 + Zpos n))
          = Zpos a * 2 ^ 29 * 32767 / 2 ^ (- e)) as ->.
  { replace (- e) with (k + 53) by (unfold k; lia).
    destruct Hn as [-> | ->].
    - replace (- (e + -38 + 52)) with (k + 39) by (unfold k; lia).
      rewrite !Z.pow_add_r by lia.
      assert (Zpos q = Zpos a * 32767 * 2 ^ 15) as -> by lia.
      change (2 ^ 39) with (2 ^ 24 * 2 ^ 15).
      change (2 ^ 53) with (2 ^ 24 * 2 ^ 29).
      rewrite !Z.mul_assoc.
      rewrite Z.div_mul_cancel_r by lia.
      replace (Zpos a * 2 ^ 29 * 32767) with (Zpos a * 32767 * 2 ^ 29) by lia.
      by rewrite Z.div_mul_cancel_r by lia.
    - replace (- (e + -38 + 53)) with (k + 38) by (unfold k; lia).
      rewrite !Z.pow_add_r by lia.
      assert (Zpos q = Zpos a * 32767 * 2 ^ 14) as -> by lia.
      change (2 ^ 38) with (2 ^ 24 * 2 ^ 14).
      change (2 ^ 53) with (2 ^ 24 * 2 ^ 29).
      rewrite !Z.mul_assoc.
      rewrite Z.div_mul_cancel_r by lia.
      replace (Zpos a * 2 ^ 29 * 32767) with (Zpos a * 32767 * 2 ^ 29) by lia.
      by rewrite Z.div_mul_cancel_r by lia. }
  apply wrap16_small.
  replace (- e) with (k + 53) by (unfold k; lia).
  rewrite Z.pow_add_r by lia.
  split.
  - assert (0 <= Zpos a * 2 ^ 29 * 32767 / (2 ^ k * 2 ^ 53))
      by (apply Z.div_pos; lia). lia.
  - apply Z.div_lt_upper_bound; [lia|]. nia.
Qed.

(** The product of a negative sample above -1 with [0x8000], and its
    integer part. *)
Lemma ToInt16_mul_x8000 (m : positive) (e : Z) :
  is_float32 (S754_finite true m e) = true ->
  e < -52 ->
  ToInt16 (mul (S754_finite true m e) x8000)
  = - ((Zpos m * 32768) / 2 ^ (- e)).
Proof.
  intros Hf He.
  destruct (is_float32_finite _ _ _ Hf) as (Hd & _ & Hlo & _).
  pose proof (digits2_bounds m) as Hb. rewrite Hd in Hb.
  rewrite x8000_eq, (SFmul_exact true false _ _ m 52) by (done || lia).
  cbn [xorb ToInt16]. rewrite trunc_mag_neg by lia.
  set (k := - e - 53).
  assert (0 <= k) as Hk by (unfold k; lia).
  assert (0 < 2 ^ k) as Hpk by (apply Z.pow_pos_nonneg; lia).
  replace (- (e + -37 + 52)) with (k + 38) by (unfold k; lia).
  replace (- e) with (k + 38 + 15) by (unfold k; lia).
  rewrite (Z.pow_add_r 2 (k + 38) 15) by lia.
  change 32768 with (2 ^ 15) at 1.
  assert (0 < 2 ^ (k + 38)) by (apply Z.pow_pos_nonneg; lia).
  rewrite Z.div_mul_cancel_r by lia.
  apply wrap16_small.
  assert (0 <= Zpos m / 2 ^ (k + 38)) by (apply Z.div_pos; lia).
  assert (Zpos m / 2 ^ (k + 38) < 32768); [|lia].
  apply Z.div_lt_upper_bound; [lia|].
  rewrite Z.pow_add_r by lia. change (2 ^ 53) with (2 ^ 38 * 32768) in Hb.
  nia.
Qed.

(** Samples of magnitude 1 or more are clamped to the scale factor
    itself. *)
Lemma pcm_value_outside (s : bool) (m : positive) (e : Z) :
  Zpos (digits2_pos m) = 53 ->
  -52 <= e ->
  ToInt16 (pcm_value (S754_finite s m e)) = if s then -32768 else 32767.
Proof.
  intros Hd He.
  pose proof (digits2_bounds m) as Hb. rewrite Hd in Hb.
  change (2 ^ (53 - 1)) with (Zpos (2 ^ 52)) in Hb. destruct Hb as [Hb _].
  assert (Math_max minus_one (Math_min one (S754_finite s m e))
          = if s then minus_one else one) as Hclamp.
  { unfold Math_min, Math_max. rewrite one_eq, minus_one_eq.
    destruct s; cbn [SFcompare].
    - destruct (Z.compare_spec (-52) e) as [<-|Hlt|Hgt]; [|done|lia].
      rewrite Pos.compare_cont_spec. cbn [Pos.switch_Eq].
      destruct (Pos.compare_spec (2 ^ 52) m) as [<-|Hlt|Hgt]; [done|done|lia].
    - destruct (Z.compare_spec (-52) e) as [<-|Hlt|Hgt]; [|done|lia].
      rewrite Pos.compare_cont_spec. cbn [Pos.switch_Eq].
      destruct (Pos.compare_spec (2 ^ 52) m) as [<-|Hlt|Hgt]; [done|done|lia]. }
  unfold pcm_value. rewrite Hclamp. by destruct s.
Qed.

(** *** The same quantities in exact arithmetic *)

Lemma Qclamp_inside (n : Z) (d : positive) :
  - Zpos d < n < Zpos d -> Qmax (-1) (Qmin 1 (n # d)) = n # d.
Proof.
  intros Hn. unfold Qmin, Qmax, GenericMinMax.gmin, GenericMinMax.gmax.
  assert ((1 ?= n # d)%Q = Gt) as ->
    by (unfold Qcompare; cbn [Qnum Qden]; apply Z.compare_gt_iff; lia).
  assert ((-1 ?= n # d)%Q = Lt) as ->
    by (unfold Qcompare; cbn [Qnum Qden]; apply Z.compare_lt_iff; lia).
  done.
Qed.

Lemma Qclamp_above (n : Z) (d : positive) :
  Zpos d <= n -> Qmax (-1) (Qmin 1 (n # d)) = 1%Q.
Proof.
  intros Hn. unfold Qmin, Qmax, GenericMinMax.gmin, GenericMinMax.gmax.
  assert ((1 ?= n # d)%Q <> Gt) as Hc
    by (unfold Qcompare; cbn [Qnum Qden]; rewrite Z.compare_gt_iff; lia).
  by destruct (1 ?= n # d)%Q.
Qed.

Lemma Qclamp_below (n : Z) (d : positive) :
  n <= - Zpos d -> Qmax (-1) (Qmin 1 (n # d)) = (-1)%Q.
Proof.
  intros Hn. unfold Qmin, Qmax, GenericMinMax.gmin, GenericMinMax.gmax.
  assert ((1 ?= n # d)%Q = Gt) as ->
    by (unfold Qcompare; cbn [Qnum Qden]; apply Z.compare_gt_iff; lia).
  assert ((-1 ?= n # d)%Q <> Lt) as Hc
    by (unfold Qcompare; cbn [Qnum Qden]; rewrite Z.compare_lt_iff; lia).
  by destruct (-1 ?= n # d)%Q.
Qed.

Lemma clamp_exact_inside (s : bool) (m : positive) (e : Z) :
  Zpos m < 2 ^ 53 -> e < -52 ->
  clamp_exact (S754_finite s m e) = Some (SF2Q (S754_finite s m e)).
Proof.
  intros Hm He. destruct e as [|p|p]; [lia..|].
  assert (2 ^ 53 <= 2 ^ Zpos p) as Hp by (apply Z.pow_le_mono_r; lia).
  unfold clamp_exact, SF2Q. f_equal. apply Qclamp_inside.
  rewrite Pos2Z.inj_pow. destruct s; lia.
Qed.

Lemma Qtrunc_scale_inside (s : bool) (m : positive) (e : Z) :
  e < 0 ->
  Qtrunc (scale_exact (SF2Q (S754_finite s m e)))
  = if s then - ((Zpos m * 32768) / 2 ^ (- e))
    else (Zpos m * 32767) / 2 ^ (- e).
Proof.
  intros He. destruct e as [|p|p]; [lia..|].
  change (- Zneg p) with (Zpos p).
  assert (0 < 2 ^ Zpos p) by (apply Z.pow_pos_nonneg; lia).
  unfold scale_exact, SF2Q, Qcompare, Qtrunc. cbn [Qnum Qden].
  destruct s.
  - assert ((Zneg m * 1 ?= 0 * Zpos (2 ^ p)) = Lt) as ->
      by (apply Z.compare_lt_iff; lia).
    cbn [Qmult Qnum Qden]. rewrite Pos.mul_1_r, Pos2Z.inj_pow.
    change (Zneg m * 32768) with (- (Zpos m * 32768)).
    rewrite Z.quot_opp_l by lia. f_equal.
    apply Z.quot_div_nonneg; lia.
  - assert ((Zpos m * 1 ?= 0 * Zpos (2 ^ p)) = Gt) as ->
      by (apply Z.compare_gt_iff; lia).
    cbn [Qmult Qnum Qden]. rewrite Pos.mul_1_r, Pos2Z.inj_pow.
    apply Z.quot_div_nonneg; lia.
Qed.

Lemma clamp_exact_outside (s : bool) (m : positive) (e : Z) :
  2 ^ 52 <= Zpos m -> -52 <= e ->
  clamp_exact (S754_finite s m e) = Some (if s then (-1)%Q else 1%Q).
Proof.
  intros Hm He. unfold clamp_exact, SF2Q. f_equal.
  destruct e as [|p|p]; unfold inject_Z.
  - change (2 ^ 0) with 1.
    destruct s; [apply Qclamp_below|apply Qclamp_above]; lia.
  - assert (0 < 2 ^ Zpos p) by (apply Z.pow_pos_nonneg; lia).
    destruct s; [apply Qclamp_below|apply Qclamp_above]; nia.
  - assert (2 ^ Zpos p <= 2 ^ 52) as Hp by (apply Z.pow_le_mono_r; lia).
    assert (0 < 2 ^ Zpos p) by (apply Z.pow_pos_nonneg; lia).
    destruct s; [apply Qclamp_below|apply Qclamp_above];
      rewrite Pos2Z.inj_pow; lia.
Qed.

(** What the encoder stores for a sample is the exact scaled value of
    the clamped sample, rounded toward zero. *)
Lemma pcm_exact (x : number) (c : Q) :
  is_float32 x = true ->
  clamp_exact x = Some c ->
  ToInt16 (pcm_value x) = Qtrunc (scale_exact c).
Proof.
  intros Hf Hc. destruct x as [s|s| |s m e].
  - injection Hc as <-. by destruct s.
  - injection Hc as <-. by destruct s.
  - done.
  - destruct (is_float32_finite _ _ _ Hf) as (Hd & _ & _).
    pose proof (digits2_bounds m) as Hb. rewrite Hd in Hb.
    change (53 - 1) with 52 in Hb.
    destruct (Z_lt_le_dec e (-52)) as [Hin|Hout].
    + rewrite clamp_exact_inside in Hc by lia.
      assert (c = SF2Q (S754_finite s m e)) as -> by congruence.
      rewrite pcm_value_inside, Qtrunc_scale_inside by lia.
      destruct s; [by apply ToInt16_mul_x8000|by apply ToInt16_mul_x7FFF].
    + rewrite clamp_exact_outside in Hc by lia. injection Hc as <-.
      rewrite pcm_value_outside by done. by destruct s.
Qed.

Lemma clamp_exact_range (x : number) (c : Q) :
  clamp_exact x = Some c -> (-1 <= c <= 1)%Q.
Proof.
  assert (forall v, (-1 <= Qmax (-1) (Qmin 1 v) <= 1)%Q) as Hclamp.
  { intros v. split; [apply Q.le_max_l|].
    apply Q.max_lub; [done|apply Q.le_min_l]. }
  destruct x as [s|s| |s m e]; simpl; intros Hc;
    try (injection Hc as <-); try done; try apply Hclamp.
  by destruct s.
Qed.

(** Lengths of the parts of a file. *)
Create Rewrite HintDb wav_length.
#[local] Hint Rewrite @length_app length_wav_header length_payload
  @length_replicate : wav_length.

(** Reads one field of the header: the bytes at a constant offset of
    [wav_header _ _ ++ _] and their little-endian value. *)
Ltac read_field :=
  unfold getUint32, getUint16, getBytes, wav_header;
  cbn [app drop take string_codes list_ascii_of_string map le_bytes];
  first [ reflexivity | apply le_value_u32 | apply le_value_u16 ].

(** When the sizes fit their 32-bit fields, the fields hold them as they
    are. *)
Lemma wav_fields_exact (audioData : list number) (sampleRate : Z) :
  0 < sampleRate ->
  sampleRate * 2 < 2 ^ 32 ->
  36 + Z.of_nat (length audioData) * 2 < 2 ^ 32 ->
  exists bytes,
    createWavBlob audioData sampleRate = Ok bytes
    /\ getUint32 bytes 4 = 36 + Z.of_nat (length audioData) * 2
    /\ getUint32 bytes 24 = sampleRate
    /\ getUint32 bytes 28 = sampleRate * 2
    /\ getUint32 bytes 40 = Z.of_nat (length audioData) * 2.
Proof.
  intros Hpos Hrate Hsize. eexists. split; [apply createWavBlob_layout|].
  repeat split;
    unfold getUint32, getBytes, wav_header;
    cbn [app drop take string_codes list_ascii_of_string map le_bytes];
    (etransitivity; [apply le_value_u32|apply ToUint32_fits; lia]).
Qed.

(** ** The uploaded file *)

(** Past its three early returns [transcribeAudio] is the snapshot
    followed by the encoder. *)
Lemma transcribeAudio_past_returns (atEntry afterWait : list Blob)
    (r : Recorder) (d : number) :
  atEntry <> [] -> afterWait <> [] -> audioBufferRef r <> [] ->
  transcribeAudio atEntry afterWait r d
  = (trimmedAudioData ← snapshotLast r d;
     audioBlob ← createWavBlob trimmedAudioData (sampleRate r);
     Ok (Some audioBlob)).
Proof.
  intros H1 H2 H3. unfold transcribeAudio.
  rewrite decide_False by (by destruct atEntry).
  rewrite decide_False by (by destruct afterWait).
  by rewrite decide_False by (by destruct (audioBufferRef r)).
Qed.

Lemma transcribeAudio_ok (atEntry afterWait : list Blob) (r : Recorder)
    (d : number) (samples : list number) :
  atEntry <> [] -> afterWait <> [] -> audioBufferRef r <> [] ->
  snapshotLast r d = Ok samples ->
  transcribeAudio atEntry afterWait r d
  = Ok (Some (wav_header (length samples) (sampleRate r)
              ++ concat (map pcm_bytes samples))).
Proof.
  intros H1 H2 H3 Hsnap. rewrite transcribeAudio_past_returns by done.
  rewrite Hsnap. cbn [mbind result_bind].
  by rewrite createWavBlob_layout.
Qed.


(** Without a chunk of the media recorder or without raw audio nothing
    is built. *)
Lemma transcribeAudio_returns_early (atEntry afterWait : list Blob)
    (r : Recorder) (d : number) :
  atEntry = [] \/ afterWait = [] \/ audioBufferRef r = [] ->
  transcribeAudio atEntry afterWait r d = Ok None.
Proof.
  unfold transcribeAudio. intros [->|[->|Hraw]].
  - done.
  - by destruct (decide (length atEntry = 0%nat)).
  - rewrite Hraw.
    destruct (decide (length atEntry = 0%nat)); [done|].
    by destruct (decide (length afterWait = 0%nat)).
Qed.

(** ** Signs, and snapshots that cannot fail *)

Lemma binary_round_aux_sign (s : bool) (m e : Z) (l : location) :
  match binary_round_aux prec emax s m e l with
  | S754_zero s' | S754_infinity s' | S754_finite s' _ _ => s' = s
  | S754_nan => True
  end.
Proof.
  unfold binary_round_aux.
  destruct (shr_fexp prec emax m e l) as [mrs' e'].
  destruct (shr_fexp prec emax _ e' loc_Exact) as [mrs'' e''].
  destruct (shr_m mrs'') as [|p|p]; [done| |done].
  by destruct (e'' <=? emax - prec).
Qed.

Lemma of_Z_sign_clear (z : Z) : 0 <= z -> sign_clear (of_Z z).
Proof.
  intros Hz. destruct z as [|p|p]; [done| |lia].
  unfold of_Z, binary_normalize, binary_round.
  destruct (shl_align _ _ _) as [mz ez].
  pose proof (binary_round_aux_sign false (Zpos mz) ez loc_Exact) as H.
  by destruct (binary_round_aux _ _ _ _ _ _).
Qed.

Lemma div_sign_clear (x y : number) :
  sign_clear x -> sign_clear y -> sign_clear (div x y).
Proof.
  destruct x as [sx|sx| |sx mx ex], y as [sy|sy| |sy my ey];
    simpl; intros Hx Hy; subst; try done.
  destruct (SFdiv_core_binary _ _ _ _ _ _) as [[mz ez] lz].
  pose proof (binary_round_aux_sign (xorb false false) mz ez lz) as H.
  by destruct (binary_round_aux _ _ _ _ _ _).
Qed.



Lemma mul_sign_clear (x y : number) :
  sign_clear x -> sign_clear y -> sign_clear (mul x y).
Proof.
  destruct x as [sx|sx| |sx mx ex], y as [sy|sy| |sy my ey];
    simpl; intros Hx Hy; subst; try done.
  pose proof (binary_round_aux_sign (xorb false false)
                (Zpos (mx * my)) (ex + ey) loc_Exact) as H.
  by destruct (binary_round_aux _ _ _ _ _ _).
Qed.

Lemma Math_min_sign_clear (a b : number) :
  sign_clear a -> sign_clear b -> sign_clear (Math_min a b).
Proof.
  intros Ha Hb. unfold Math_min.
  destruct (SFcompare a b) as [[| |]|]; try done.
  by destruct a as [[|]| | |].
Qed.

Lemma Math_floor_sign_clear (x : number) :
  sign_clear x ->
  (exists n, Math_floor x = JInt n /\ 0 <= n)
  \/ Math_floor x = JNaN
  \/ Math_floor x = JInf false.
Proof.
  destruct x as [s|s| |s m e]; simpl; intros Hx; subst.
  - left. by exists 0.
  - by right; right.
  - by right; left.
  - left. destruct e as [|p|p]; cbn [trunc_mag].
    + eexists. split; [done|]. rewrite Z.shiftl_0_r. lia.
    + eexists. split; [done|]. apply Z.shiftl_nonneg. lia.
    + eexists. split; [done|]. apply Z.shiftr_nonneg. lia.
Qed.

(** For a sample rate and a duration that are not negative, the snapshot
    never fails and never pads: it is a suffix of the retained samples,
    in their order. *)
Lemma snapshotLast_suffix (r : Recorder) (d : number) :
  0 <= sampleRate r ->
  sign_clear d ->
  exists k, snapshotLast r d = Ok (drop k (concat (audioBufferRef r))).
Proof.
  intros Hsr Hd. unfold snapshotLast.
  pose proof (of_Z_sign_clear _ Hsr) as Hr.
  pose proof (of_Z_sign_clear _ (total_samples_nonneg (audioBufferRef r)))
    as Ht.
  destruct (Math_floor_sign_clear _
              (mul_sign_clear _ _
                 (Math_min_sign_clear _ _ Hd (div_sign_clear _ _ Ht Hr)) Hr))
    as [(n & -> & Hn)|[-> | ->]].
  - rewrite trimAudioBuffer_JInt.
    destruct (Z.ltb_spec n 0); [lia|]. by eexists.
  - rewrite trimAudioBuffer_JNaN.
    exists (length (concat (audioBufferRef r))). by rewrite drop_all.
  - rewrite trimAudioBuffer_JInf. by exists 0%nat.
Qed.

(** ** Integers as numbers *)

(** Integers below 2^53 in magnitude are numbers, and sums, products and
    exact quotients of such integers are computed without rounding.
    This section derives what the program needs of it from the
    definitions of [SpecFloat]. *)

Lemma pos_iter_xO (p k : positive) :
  Zpos (Pos.iter xO p k) = Zpos p * 2 ^ Zpos k.
Proof.
  induction k as [|k IH] using Pos.peano_ind.
  - cbn [Pos.iter]. lia.
  - rewrite Pos.iter_succ, Pos2Z.inj_succ, Z.pow_succ_r by lia.
    rewrite Pos2Z.inj_xO, IH. lia.
Qed.

Lemma digits2_scaled (p m : positive) (k : Z) :
  0 <= k -> Zpos m = Zpos p * 2 ^ k ->
  Zpos (digits2_pos m) = Zpos (digits2_pos p) + k.
Proof.
  intros Hk Hm. apply digits2_unique. pose proof (digits2_bounds p) as Hb.
  rewrite Hm.
  replace (Zpos (digits2_pos p) + k - 1)
    with (Zpos (digits2_pos p) - 1 + k) by lia.
  rewrite !Z.pow_add_r by lia.
  assert (0 < 2 ^ k) by (apply Z.pow_pos_nonneg; lia). nia.
Qed.

(** A mantissa of 53 bits, possibly followed by zero bits, is left as it
    is by the rounding of [SpecFloat]. *)
Lemma binary_round_aux_exact (s : bool) (m q : positive) (e n : Z) :
  Zpos (digits2_pos q) = 53 ->
  0 <= n ->
  Zpos m = Zpos q * 2 ^ n ->
  -1074 <= e + n <= 971 ->
  binary_round_aux prec emax s (Zpos m) e loc_Exact
  = S754_finite s q (e + n).
Proof.
  intros Hq Hn Hm He. unfold binary_round_aux.
  destruct n as [|n|n]; [| |lia].
  - assert (m = q) as -> by lia. rewrite Z.add_0_r in *.
    rewrite shr_fexp_id by (done || lia).
    cbn [shr_m loc_of_shr_record round_nearest_even].
    rewrite shr_fexp_id by (done || lia). cbn [shr_m]. unfold prec, emax.
    destruct (Z.leb_spec e (1024 - 53)); [done|lia].
  - assert (m = (q * 2 ^ n)%positive) as ->
      by (apply Pos2Z.inj; rewrite Pos2Z.inj_mul, Pos2Z.inj_pow; done).
    rewrite shr_fexp_exact by (done || lia).
    cbn [shr_m loc_of_shr_record round_nearest_even].
    rewrite shr_fexp_id by (done || lia). cbn [shr_m]. unfold prec, emax.
    destruct (Z.leb_spec (e + Zpos n) (1024 - 53)); [done|lia].
Qed.

(** The number of a positive integer below 2^53: its mantissa is the
    integer shifted left to 53 bits. *)
Lemma of_Z_pos (p : positive) :
  Zpos p < 2 ^ 53 ->
  exists m : positive,
    of_Z (Zpos p) = S754_finite false m (Zpos (digits2_pos p) - 53)
    /\ Zpos m = Zpos p * 2 ^ (53 - Zpos (digits2_pos p))
    /\ Zpos (digits2_pos m) = 53.
Proof.
  intros Hp. pose proof (digits2_bounds p) as Hb.
  set (d := Zpos (digits2_pos p)) in *.
  assert (d <= 53) as Hd.
  { destruct (Z_le_gt_dec d 53) as [|Hgt]; [done|].
    assert (2 ^ 53 <= 2 ^ (d - 1)) by (apply Z.pow_le_mono_r; lia). lia. }
  unfold of_Z, binary_normalize, binary_round, shl_align.
  fold d. unfold fexp, emin, prec, emax.
  replace (Z.max (d + 0 - 53) (3 - 1024 - 53) - 0) with (d - 53) by lia.
  change (binary_round_aux 53 1024) with (binary_round_aux prec emax).
  destruct (d - 53) as [|k|k] eqn:Hk; [|lia|].
  - exists p. replace (53 - d) with 0 by lia.
    split; [|split; [lia|fold d; lia]].
    rewrite (binary_round_aux_exact false p p 0 0);
      [done|fold d; lia|lia|lia|lia].
  - exists (Pos.iter xO p k).
    assert (Zpos (Pos.iter xO p k) = Zpos p * 2 ^ (53 - d)) as Hm
      by (rewrite pos_iter_xO; f_equal; f_equal; lia).
    assert (Zpos (digits2_pos (Pos.iter xO p k)) = 53) as Hdm
      by (rewrite (digits2_scaled p _ (53 - d)); [fold d; lia|lia|done]).
    split; [|done].
    replace (Z.max (d + 0 - 53) (3 - 1024 - 53)) with (Zneg k) by lia.
    rewrite (binary_round_aux_exact false _ (Pos.iter xO p k) (Zneg k) 0);
      [f_equal; lia|done|lia|lia|lia].
Qed.

Lemma digits2_le_53 (p : positive) :
  Zpos p < 2 ^ 53 -> 0 < Zpos (digits2_pos p) <= 53.
Proof.
  intros Hp. pose proof (digits2_bounds p) as Hb.
  set (d := Zpos (digits2_pos p)) in *. split; [unfold d; lia|].
  destruct (Z_le_gt_dec d 53) as [|Hgt]; [done|].
  assert (2 ^ 53 <= 2 ^ (d - 1)) by (apply Z.pow_le_mono_r; lia). lia.
Qed.

(** The digits of a product. *)
Lemma digits2_mul (a b : positive) :
  Zpos (digits2_pos a) + Zpos (digits2_pos b) - 1
  <= Zpos (digits2_pos (a * b))
  <= Zpos (digits2_pos a) + Zpos (digits2_pos b).
Proof.
  pose proof (digits2_bounds a) as Ha. pose proof (digits2_bounds b) as Hb.
  pose proof (digits2_bounds (a * b)) as Hab.
  rewrite Pos2Z.inj_mul in Hab.
  set (da := Zpos (digits2_pos a)) in *.
  set (db := Zpos (digits2_pos b)) in *.
  set (dab := Zpos (digits2_pos (a * b))) in *.
  assert (0 < da) by (unfold da; lia). assert (0 < db) by (unfold db; lia).
  assert (0 < dab) by (unfold dab; lia).
  assert (2 ^ (da - 1 + (db - 1)) <= Zpos a * Zpos b) as Hlo.
  { rewrite Z.pow_add_r by lia.
    apply Z.mul_le_mono_nonneg; try lia; apply Z.pow_nonneg; lia. }
  assert (Zpos a * Zpos b < 2 ^ (da + db)) as Hhi.
  { rewrite Z.pow_add_r by lia.
    apply Z.mul_lt_mono_nonneg; lia. }
  split.
  - destruct (Z_le_gt_dec (da + db - 1) dab) as [|Hgt]; [done|].
    assert (2 ^ dab <= 2 ^ (da - 1 + (db - 1)))
      by (apply Z.pow_le_mono_r; lia). lia.
  - destruct (Z_le_gt_dec dab (da + db)) as [|Hgt]; [done|].
    assert (2 ^ (da + db) <= 2 ^ (dab - 1))
      by (apply Z.pow_le_mono_r; lia). lia.
Qed.

(** The product of two integers is exact when it is below 2^53. *)
Lemma mul_of_Z (a b : Z) :
  0 <= a < 2 ^ 53 -> 0 <= b < 2 ^ 53 -> a * b < 2 ^ 53 ->
  mul (of_Z a) (of_Z b) = of_Z (a * b).
Proof.
  intros Ha Hb Hab.
  destruct a as [|a|a]; [|destruct b as [|b|b]|lia]; [| | |lia].
  - destruct b as [|b|b]; [done| |lia].
    destruct (of_Z_pos b) as (mb & -> & _); [lia|done].
  - rewrite Z.mul_0_r.
    destruct (of_Z_pos a) as (ma & -> & _); [lia|done].
  - 
  assert (Zpos a < 2 ^ 53) as Ha53 by lia.
  assert (Zpos b < 2 ^ 53) as Hb53 by lia.
  change (Zpos a * Zpos b) with (Zpos (a * b)) in *.
  destruct (of_Z_pos a Ha53) as (ma & -> & Hma & Hda).
  destruct (of_Z_pos b Hb53) as (mb & -> & Hmb & Hdb).
  destruct (of_Z_pos (a * b) Hab) as (mab & -> & Hmab & Hdab).
  pose proof (digits2_mul a b) as Hd.
  pose proof (digits2_le_53 a Ha53) as Hla.
  pose proof (digits2_le_53 b Hb53) as Hlb.
  pose proof (digits2_le_53 (a * b) Hab) as Hlab.
  set (da := Zpos (digits2_pos a)) in *.
  set (db := Zpos (digits2_pos b)) in *.
  set (dab := Zpos (digits2_pos (a * b))) in *.
  destruct (53 + dab - da - db) as [|n|n] eqn:Hn; [lia| |lia].
  rewrite (SFmul_exact false false ma mb mab n).
  + cbn [xorb]. f_equal. lia.
  + apply Pos2Z.inj. rewrite !Pos2Z.inj_mul, Pos2Z.inj_pow, Hma, Hmb, Hmab.
    rewrite <- Hn, Pos2Z.inj_mul.
    replace (Zpos a * 2 ^ (53 - da) * (Zpos b * 2 ^ (53 - db)))
      with (Zpos a * Zpos b * (2 ^ (53 - da) * 2 ^ (53 - db))) by lia.
    rewrite <- !Z.mul_assoc, <- !Z.pow_add_r by lia.
    do 3 f_equal. lia.
  + done.
  + lia.
Qed.

(** The mantissa of an integer has no fractional part. *)
Lemma trunc_mag_scaled (p m : positive) (e : Z) :
  e <= 0 -> Zpos m = Zpos p * 2 ^ (- e) ->
  trunc_mag m e = (Zpos p, false).
Proof.
  intros He Hm. destruct e as [|k|k]; [|lia|]; unfold trunc_mag.
  - change (- 0) with 0 in Hm. rewrite Z.shiftl_0_r. f_equal. lia.
  - change (- Zneg k) with (Zpos k) in Hm.
    assert (0 < 2 ^ Zpos k) by (apply Z.pow_pos_nonneg; lia).
    rewrite Z.shiftr_div_pow2, Hm by lia.
    rewrite Z.div_mul, Z.mod_mul by lia. done.
Qed.

Lemma Math_floor_of_Z (z : Z) :
  0 <= z < 2 ^ 53 -> Math_floor (of_Z z) = JInt z.
Proof.
  intros Hz. destruct z as [|p|p]; [done| |lia].
  destruct (of_Z_pos p) as (m & -> & Hm & _); [lia|].
  pose proof (digits2_le_53 p ltac:(lia)) as Hd.
  unfold Math_floor. rewrite (trunc_mag_scaled p); [done|lia|].
  rewrite Hm. do 2 f_equal. lia.
Qed.

(** *** Division *)

(** The quotient of two numbers with full mantissas: [SFdiv] divides
    the dividend's mantissa, shifted by 53 bits, by the divisor's and
    rounds the result. *)
Lemma div_canonical (m1 m2 : positive) (e1 e2 : Z) :
  Zpos (digits2_pos m1) = 53 ->
  Zpos (digits2_pos m2) = 53 ->
  -1021 <= e1 - e2 ->
  div (S754_finite false m1 e1) (S754_finite false m2 e2)
  = binary_round_aux prec emax false
      (Zpos m1 * 2 ^ 53 / Zpos m2) (e1 - e2 - 53)
      (new_location (Zpos m2) (Zpos m1 * 2 ^ 53 mod Zpos m2)).
Proof.
  intros H1 H2 He. unfold div, SFdiv, SFdiv_core_binary.
  cbn [Zdigits2 xorb]. rewrite H1, H2.
  unfold fexp, emin, prec, emax.
  replace (Z.min (Z.max (53 + e1 - (53 + e2) - 53) (3 - 1024 - 53)) (e1 - e2))
    with (e1 - e2 - 53) by lia.
  replace (e1 - e2 - (e1 - e2 - 53)) with 53 by lia.
  rewrite Z.shiftl_mul_pow2 by lia.
  unfold Z.div, Z.modulo.
  by destruct (Z.div_eucl (Zpos m1 * 2 ^ 53) (Zpos m2)) as [q r].
Qed.

(** An exact quotient of integers is computed without rounding. *)
Lemma div_of_Z_exact (a b : Z) :
  0 <= a -> 0 < b < 2 ^ 53 -> a * b < 2 ^ 53 ->
  div (of_Z (a * b)) (of_Z b) = of_Z a.
Proof.
  intros Ha Hb Hab.
  destruct b as [|b|b]; [lia| |lia].
  assert (Zpos b < 2 ^ 53) as Hb53 by lia.
  destruct (of_Z_pos b Hb53) as (mb & -> & Hmb & Hdb).
  destruct a as [|a|a]; [done| |lia].
  assert (Zpos a < 2 ^ 53) as Ha53 by nia.
  change (Zpos a * Zpos b) with (Zpos (a * b)) in *.
  destruct (of_Z_pos a Ha53) as (ma & -> & Hma & Hda).
  destruct (of_Z_pos (a * b) Hab) as (mab & -> & Hmab & Hdab).
  pose proof (digits2_mul a b) as Hd.
  pose proof (digits2_le_53 a Ha53) as Hla.
  pose proof (digits2_le_53 b Hb53) as Hlb.
  pose proof (digits2_le_53 (a * b) Hab) as Hlab.
  set (da := Zpos (digits2_pos a)) in *.
  set (db := Zpos (digits2_pos b)) in *.
  set (dab := Zpos (digits2_pos (a * b))) in *.
  rewrite div_canonical by (done || lia).
  assert (0 < 2 ^ (53 - db)) by (apply Z.pow_pos_nonneg; lia).
  assert (Zpos mab * 2 ^ 53 = Zpos ma * 2 ^ (da + db - dab) * Zpos mb)
    as Hquot.
  { rewrite Hmab, Hma, Hmb, Pos2Z.inj_mul.
    replace (Zpos a * Zpos b * 2 ^ (53 - dab) * 2 ^ 53)
      with (Zpos a * Zpos b * (2 ^ (53 - dab) * 2 ^ 53)) by lia.
    replace (Zpos a * 2 ^ (53 - da) * 2 ^ (da + db - dab)
             * (Zpos b * 2 ^ (53 - db)))
      with (Zpos a * Zpos b
            * (2 ^ (53 - da) * 2 ^ (da + db - dab) * 2 ^ (53 - db)))
      by lia.
    rewrite <- !Z.pow_add_r by lia. do 2 f_equal. lia. }
  rewrite Hquot, Z.div_mul, Z.mod_mul by lia.
  assert (exists m : positive, Zpos m = Zpos ma * 2 ^ (da + db - dab))
    as [m Hm].
  { assert (0 < 2 ^ (da + db - dab)) by (apply Z.pow_pos_nonneg; lia).
    exists (Z.to_pos (Zpos ma * 2 ^ (da + db - dab))). lia. }
  rewrite <- Hm.
  replace (new_location (Zpos mb) 0) with loc_Exact
    by (unfold new_location, new_location_even, new_location_odd;
        by destruct (Z.even (Zpos mb))).
  rewrite (binary_round_aux_exact false m ma _ (da + db - dab));
    [f_equal; lia|done|lia|done|lia].
Qed.

(** *** Rounding never goes below the truncated mantissa *)

Lemma round_nearest_even_cases (m : Z) (l : location) :
  round_nearest_even m l = m \/ round_nearest_even m l = m + 1.
Proof.
  destruct l as [|[]]; cbn [round_nearest_even]; auto.
  destruct (Z.even m); auto.
Qed.

Lemma shr_record_of_loc_m (m : Z) (l : location) :
  shr_m (shr_record_of_loc m l) = m.
Proof. by destruct l as [|[]]. Qed.

(** The first shift of [binary_round_aux] on a quotient of 53 or 54
    bits: at most one bit is dropped. *)
Lemma shr_fexp_quotient (p : positive) (e : Z) (l : location) :
  2 ^ 52 <= Zpos p < 2 ^ 54 ->
  -1074 <= e ->
  exists mrs sh,
    shr_fexp prec emax (Zpos p) e l = (mrs, e + sh)
    /\ (sh = 0 \/ sh = 1)
    /\ shr_m mrs = Zpos p / 2 ^ sh
    /\ 2 ^ 52 <= Zpos p / 2 ^ sh < 2 ^ 53.
Proof.
  intros Hp He. unfold shr_fexp. cbn [Zdigits2].
  destruct (Z_lt_le_dec (Zpos p) (2 ^ 53)) as [Hlt|Hge].
  - rewrite (digits2_unique p 53) by (change (53 - 1) with 52; lia).
    unfold fexp, emin, prec, emax.
    replace (Z.max (53 + e - 53) (3 - 1024 - 53) - e) with 0 by lia.
    cbn [shr]. eexists _, 0. rewrite Z.add_0_r. split; [done|].
    change (2 ^ 0) with 1. rewrite Z.div_1_r, shr_record_of_loc_m.
    split; [by left|]. split; [done|lia].
  - rewrite (digits2_unique p 54) by (change (54 - 1) with 53; lia).
    unfold fexp, emin, prec, emax.
    replace (Z.max (54 + e - 53) (3 - 1024 - 53) - e) with 1 by lia.
    cbn [shr SpecFloat.iter_pos]. eexists _, 1. split; [done|].
    split; [by right|]. change (2 ^ 1) with 2.
    assert (shr_m (shr_1 (shr_record_of_loc (Zpos p) l)) = Zpos p / 2)
      as ->.
    { destruct p as [p|p|].
      - transitivity (Zpos p); [by destruct l as [|[]]|].
        rewrite Pos2Z.inj_xI.
        replace (2 * Zpos p + 1) with (1 + Zpos p * 2) by lia.
        by rewrite Z.div_add by lia.
      - transitivity (Zpos p); [by destruct l as [|[]]|].
        by rewrite Pos2Z.inj_xO, Z.mul_comm, Z.div_mul by lia.
      - change (2 ^ 53) with 9007199254740992 in Hge. lia. }
    split; [done|].
    change (2 ^ 52) with 4503599627370496 in *.
    change (2 ^ 53) with 9007199254740992 in *.
    change (2 ^ 54) with 18014398509481984 in *.
    split; [apply Z.div_le_lower_bound; lia
           |apply Z.div_lt_upper_bound; lia].
Qed.

(** The second shift of [binary_round_aux]: a carry into the 54th bit
    moves the result to the next exponent. *)
Lemma shr_fexp_carry (s : bool) (t : positive) (e : Z) :
  2 ^ 52 <= Zpos t <= 2 ^ 53 ->
  -1074 <= e <= 970 ->
  exists (M : positive) (E : Z),
    (let '(mrs, e') := shr_fexp prec emax (Zpos t) e loc_Exact in
     match shr_m mrs with
     | 0 => S754_zero s
     | Zpos m =>
         if e' <=? emax - prec then S754_finite s m e'
         else S754_infinity s
     | Zneg _ => S754_nan
     end) = S754_finite s M E
    /\ Zpos (digits2_pos M) = 53
    /\ ((E = e /\ M = t) \/ E = e + 1).
Proof.
  intros Ht He.
  destruct (Z_lt_le_dec (Zpos t) (2 ^ 53)) as [Hlt|Hge].
  - assert (Zpos (digits2_pos t) = 53) as Hd
      by (apply digits2_unique; change (53 - 1) with 52; lia).
    rewrite shr_fexp_id by (done || lia). cbn [shr_m].
    exists t, e. unfold prec, emax.
    destruct (Z.leb_spec e (1024 - 53)); [|lia]. auto.
  - assert (t = (4503599627370496 * 2 ^ 1)%positive) as ->.
    { apply Pos2Z.inj. change (2 ^ 53) with 9007199254740992 in *.
      change (Zpos (4503599627370496 * 2 ^ 1)) with 9007199254740992.
      lia. }
    rewrite shr_fexp_exact by (done || lia). cbn [shr_m].
    exists 4503599627370496%positive, (e + 1). unfold prec, emax.
    destruct (Z.leb_spec (e + 1) (1024 - 53)); [|lia]. auto.
Qed.

(** The rounded quotient: a full mantissa [M] at exponent [E], not
    below the quotient truncated to 53 bits. *)
Lemma binary_round_aux_lower (s : bool) (p : positive) (e : Z)
    (l : location) :
  2 ^ 52 <= Zpos p < 2 ^ 54 ->
  -1074 <= e <= 969 ->
  exists (M : positive) (E sh : Z),
    binary_round_aux prec emax s (Zpos p) e l = S754_finite s M E
    /\ Zpos (digits2_pos M) = 53
    /\ (sh = 0 \/ sh = 1)
    /\ 2 ^ 52 <= Zpos p / 2 ^ sh < 2 ^ 53
    /\ ((E = e + sh /\ Zpos p / 2 ^ sh <= Zpos M) \/ E = e + sh + 1).
Proof.
  intros Hp He. unfold binary_round_aux.
  destruct (shr_fexp_quotient p e l Hp ltac:(lia))
    as (mrs & sh & -> & Hsh & Hm & Hq).
  set (T := Zpos p / 2 ^ sh) in *.
  destruct (round_nearest_even_cases (shr_m mrs) (loc_of_shr_record mrs))
    as [Hr|Hr]; rewrite Hr, Hm.
  - destruct T as [|t|t] eqn:HT; [lia| |lia].
    destruct (shr_fexp_carry s t (e + sh) ltac:(lia) ltac:(lia))
      as (M & E & -> & HM & HE).
    exists M, E, sh. repeat split; try done; lia.
  - destruct (T + 1) as [|t|t] eqn:HT; [lia| |lia].
    destruct (shr_fexp_carry s t (e + sh) ltac:(lia) ltac:(lia))
      as (M & E & -> & HM & HE).
    exists M, E, sh. repeat split; try done; lia.
Qed.

(** The arithmetic behind the comparison of an integer [j] with a
    rounded quotient: [mj], [m1] and [m2] are the mantissas of [j], of
    the dividend and of the divisor, at the exponents [-A], [-C] and
    [-B]; [T] is the quotient truncated to 53 bits. *)
Lemma quotient_order (mj m1 m2 A B C sh T : Z) :
  2 ^ 52 <= mj -> 0 < m1 -> 0 < m2 ->
  0 <= A -> 0 <= B -> 0 <= C -> 0 <= sh <= 1 ->
  mj * m2 * 2 ^ C <= m1 * 2 ^ (A + B) ->
  T = m1 * 2 ^ 53 / (m2 * 2 ^ sh) -> T < 2 ^ 53 ->
  C + 53 <= A + B + sh /\ (A + B + sh = C + 53 -> mj <= T).
Proof.
  intros Hmj Hm1 Hm2 HA HB HC Hsh Hle HT HT53.
  assert (0 < 2 ^ C) as HpC by (apply Z.pow_pos_nonneg; lia).
  assert (0 < 2 ^ sh) as Hpsh by (apply Z.pow_pos_nonneg; lia).
  assert (2 ^ sh * 2 ^ (53 - sh) = 2 ^ 53) as Hsplit
    by (rewrite <- Z.pow_add_r by lia; f_equal; lia).
  assert (0 < 2 ^ (53 - sh)) as Hp53 by (apply Z.pow_pos_nonneg; lia).
  split.
  - destruct (Z_le_gt_dec (C + 53) (A + B + sh)) as [|Hgt]; [done|].
    exfalso.
    (* the quotient is below 2^53, so m1 < m2 * 2^sh *)
    assert (m1 * 2 ^ 53 < m2 * 2 ^ sh * 2 ^ 53) as Hq.
    { pose proof (Z.mul_succ_div_gt (m1 * 2 ^ 53) (m2 * 2 ^ sh)
                    ltac:(lia)) as Hd.
      rewrite <- HT in Hd.
      assert (m2 * 2 ^ sh * Z.succ T <= m2 * 2 ^ sh * 2 ^ 53)
        by (apply Z.mul_le_mono_nonneg_l; lia).
      lia. }
    assert (m1 < m2 * 2 ^ sh) as Hm
      by (apply (Z.mul_lt_mono_pos_r (2 ^ 53)); lia).
    assert (2 ^ (A + B) <= 2 ^ (C + (52 - sh))) as Hpow
      by (apply Z.pow_le_mono_r; lia).
    rewrite (Z.pow_add_r 2 C (52 - sh)) in Hpow by lia.
    assert (mj * m2 * 2 ^ C <= m1 * 2 ^ (52 - sh) * 2 ^ C) as Hc.
    { apply Z.le_trans with (m1 * 2 ^ (A + B)); [done|].
      replace (m1 * 2 ^ (52 - sh) * 2 ^ C)
        with (m1 * (2 ^ C * 2 ^ (52 - sh))) by lia.
      apply Z.mul_le_mono_nonneg_l; lia. }
    apply Z.mul_le_mono_pos_r in Hc; [|done].
    assert (0 < 2 ^ (52 - sh)) by (apply Z.pow_pos_nonneg; lia).
    assert (m1 * 2 ^ (52 - sh) < m2 * 2 ^ sh * 2 ^ (52 - sh))
      by (apply Z.mul_lt_mono_pos_r; lia).
    assert (2 ^ sh * 2 ^ (52 - sh) = 2 ^ 52) as Hs52
      by (rewrite <- Z.pow_add_r by lia; f_equal; lia).
    assert (mj * m2 < 2 ^ 52 * m2) by nia.
    assert (mj < 2 ^ 52) by (apply (Z.mul_lt_mono_pos_r m2); lia).
    lia.
  - intros Heq. rewrite HT.
    apply Z.div_le_lower_bound; [lia|].
    replace (A + B) with (C + (53 - sh)) in Hle by lia.
    rewrite (Z.pow_add_r 2 C (53 - sh)) in Hle by lia.
    assert (mj * m2 * 2 ^ C <= m1 * 2 ^ (53 - sh) * 2 ^ C) as Hc by lia.
    apply Z.mul_le_mono_pos_r in Hc; [|done].
    assert (mj * m2 * 2 ^ sh <= m1 * 2 ^ (53 - sh) * 2 ^ sh)
      by (apply Z.mul_le_mono_nonneg_r; lia).
    replace (m1 * 2 ^ 53) with (m1 * 2 ^ (53 - sh) * 2 ^ sh)
      by (rewrite <- Hsplit; lia).
    lia.
Qed.

(** The quotient of two positive integers below 2^53, as [SFdiv] rounds
    it, against an integer [j] with [j * b <= t]. *)
Lemma div_of_Z_lower (j t b : positive) :
  Zpos j < 2 ^ 53 -> Zpos t < 2 ^ 53 -> Zpos b < 2 ^ 53 ->
  exists (mj M : positive) (ej E : Z),
    of_Z (Zpos j) = S754_finite false mj ej
    /\ div (of_Z (Zpos t)) (of_Z (Zpos b)) = S754_finite false M E
    /\ Zpos (digits2_pos M) = 53
    /\ -105 <= E <= 1
    /\ (Zpos j * Zpos b <= Zpos t ->
        ej < E \/ (ej = E /\ Zpos mj <= Zpos M)).
Proof.
  intros Hj53 Ht Hb53.
  destruct (of_Z_pos j Hj53) as (mj & -> & Hmj & Hdj).
  destruct (of_Z_pos t Ht) as (m1 & -> & Hm1 & Hd1).
  destruct (of_Z_pos b Hb53) as (m2 & -> & Hm2 & Hd2).
  pose proof (digits2_le_53 j Hj53) as Hlj.
  pose proof (digits2_le_53 t Ht) as Hlt.
  pose proof (digits2_le_53 b Hb53) as Hlb.
  set (dj := Zpos (digits2_pos j)) in *.
  set (dt := Zpos (digits2_pos t)) in *.
  set (db := Zpos (digits2_pos b)) in *.
  pose proof (digits2_bounds mj) as Bj. rewrite Hdj in Bj.
  pose proof (digits2_bounds m1) as B1. rewrite Hd1 in B1.
  pose proof (digits2_bounds m2) as B2. rewrite Hd2 in B2.
  change (53 - 1) with 52 in *.
  change (2 ^ 52) with 4503599627370496 in Bj, B1, B2.
  change (2 ^ 53) with 9007199254740992 in Bj, B1, B2.
  rewrite div_canonical by (done || lia).
  set (q := Zpos m1 * 2 ^ 53 / Zpos m2).
  assert (2 ^ 52 <= q < 2 ^ 54) as Hq.
  { unfold q. change (2 ^ 52) with 4503599627370496.
    change (2 ^ 53) with 9007199254740992.
    change (2 ^ 54) with 18014398509481984.
    split; [apply Z.div_le_lower_bound; lia
           |apply Z.div_lt_upper_bound; lia]. }
  destruct q as [|p|p] eqn:Hp; [lia| |lia].
  destruct (binary_round_aux_lower false p (dt - 53 - (db - 53) - 53)
              (new_location (Zpos m2) (Zpos m1 * 2 ^ 53 mod Zpos m2))
              Hq ltac:(lia))
    as (M & E & sh & -> & HM & Hsh & HT & HE).
  exists mj, M, (dj - 53), E. split; [done|]. split; [done|].
  split; [done|]. split; [lia|].
  intros Hjb.
  assert (0 < 2 ^ sh) by (apply Z.pow_pos_nonneg; lia).
  assert (Zpos mj * Zpos m2 * 2 ^ (53 - dt)
          <= Zpos m1 * 2 ^ (53 - dj + (53 - db))) as Hle.
  { rewrite Hmj, Hm1, Hm2.
    rewrite (Z.pow_add_r 2 (53 - dj) (53 - db)) by lia.
    assert (0 <= 2 ^ (53 - dj) * 2 ^ (53 - db) * 2 ^ (53 - dt))
      by (repeat apply Z.mul_nonneg_nonneg; apply Z.pow_nonneg; lia).
    replace (Zpos j * 2 ^ (53 - dj) * (Zpos b * 2 ^ (53 - db))
             * 2 ^ (53 - dt))
      with (Zpos j * Zpos b
            * (2 ^ (53 - dj) * 2 ^ (53 - db) * 2 ^ (53 - dt))) by lia.
    replace (Zpos t * 2 ^ (53 - dt) * (2 ^ (53 - dj) * 2 ^ (53 - db)))
      with (Zpos t
            * (2 ^ (53 - dj) * 2 ^ (53 - db) * 2 ^ (53 - dt))) by lia.
    by apply Z.mul_le_mono_nonneg_r. }
  assert (Zpos p / 2 ^ sh = Zpos m1 * 2 ^ 53 / (Zpos m2 * 2 ^ sh)) as HTq
    by (rewrite <- Hp; unfold q; rewrite Z.div_div by lia; done).
  destruct (quotient_order (Zpos mj) (Zpos m1) (Zpos m2)
              (53 - dj) (53 - db) (53 - dt) sh (Zpos p / 2 ^ sh)
              ltac:(lia) ltac:(lia) ltac:(lia) ltac:(lia) ltac:(lia)
              ltac:(lia) ltac:(lia) Hle HTq ltac:(lia))
    as [Hexp Hman].
  lia.
Qed.

(** If [j * b <= t] then [Math.min(j, t / b)] is [j]. *)
Lemma Math_min_of_Z_div (j t b : Z) :
  0 <= j -> 0 < b < 2 ^ 53 -> j * b <= t -> t < 2 ^ 53 ->
  Math_min (of_Z j) (div (of_Z t) (of_Z b)) = of_Z j.
Proof.
  intros Hj Hb Hjb Ht.
  destruct b as [|b|b]; [lia| |lia].
  destruct t as [|t|t]; [| |lia].
  { assert (j = 0) as -> by nia.
    destruct (of_Z_pos b) as (m2 & -> & _); [lia|done]. }
  destruct j as [|j|j]; [| |lia].
  { by destruct (div_of_Z_lower 1 t b ltac:(done) Ht ltac:(lia))
      as (mj & M & ej & E & _ & -> & _). }
  destruct (div_of_Z_lower j t b ltac:(nia) Ht ltac:(lia))
    as (mj & M & ej & E & -> & -> & _ & _ & Hord).
  specialize (Hord Hjb).
  unfold Math_min, SFcompare. rewrite Pos.compare_cont_spec.
  cbn [Pos.switch_Eq].
  destruct Hord as [Hlt|[-> Hle]].
  - by rewrite (proj2 (Z.compare_lt_iff ej E) Hlt).
  - rewrite Z.compare_refl.
    destruct (Pos.compare_spec mj M) as [->|Hlt|Hgt]; [done|done|lia].
Qed.

(** *** Negative integers *)






(** * The claims of the specification *)

(** ** The concrete scenario *)

Lemma scenario_state :
  scenario
  = Ok (mkRecorder [replicate 16000 half; replicate 8000 half] 16000 2).
Proof. vm_compute. reflexivity. Qed.

Lemma scenario_snapshot :
  snapshotLast (mkRecorder [replicate 16000 half; replicate 8000 half]
                           16000 2) one
  = Ok (replicate 16000 half).
Proof.
  unfold snapshotLast. cbn [audioBufferRef sampleRate].
  set (bufs := [replicate 16000 half; replicate 8000 half]).
  assert (total_samples bufs = 24000) as Htot by (vm_compute; reflexivity).
  rewrite Htot.
  assert (Math_floor (mul (Math_min one (div (of_Z 24000) (of_Z 16000)))
                          (of_Z 16000)) = JInt 16000) as ->
    by (vm_compute; reflexivity).
  rewrite trimAudioBuffer_JInt, Htot. vm_compute. reflexivity.
Qed.

Lemma pcm_half : ToInt16 (pcm_value half) = 16383.
Proof. vm_compute. reflexivity. Qed.

(** C1, as stated, fails: after the third append the session retains
    24000 samples, not 32000, and the payload words of the encoded
    snapshot are 16383, not 16384. *)
Lemma scenario_claimed_values_fail :
  exists r snapshot bytes,
    scenario = Ok r
    /\ retained_count r <> 32000
    /\ snapshotLast r one = Ok snapshot
    /\ createWavBlob snapshot (sampleRate r) = Ok bytes
    /\ getInt16 bytes 44 <> 16384.
Proof.
  eexists _, _, _. split; [apply scenario_state|].
  split; [by vm_compute|].
  split; [apply scenario_snapshot|].
  split; [apply createWavBlob_layout|].
  rewrite (payload_word _ _ 0 half) by done.
  rewrite pcm_half. lia.
Qed.

(** C1 (amended): in the scenario the first chunk is evicted whole, so
    24000 samples are retained; the snapshot of the last second has 16000
    samples, all 0.5; its encoding has 44 + 16000 * 2 = 32044 bytes, and
    every payload word is 0.5 * 32767 rounded toward zero, 16383. *)
Theorem scenario_end_to_end :
  exists r snapshot bytes,
    scenario = Ok r
    /\ audioBufferRef r = [replicate 16000 half; replicate 8000 half]
    /\ retained_count r = 24000
    /\ snapshotLast r one = Ok snapshot
    /\ snapshot = replicate 16000 half
    /\ createWavBlob snapshot (sampleRate r) = Ok bytes
    /\ Z.of_nat (length bytes) = 32044
    /\ Forall (fun i => getInt16 bytes (44 + 2 * i) = 16383) (seq 0 16000).
Proof.
  eexists _, _, _. split; [apply scenario_state|].
  split; [done|]. split; [by vm_compute|].
  split; [apply scenario_snapshot|]. split; [done|].
  split; [apply createWavBlob_layout|]. split.
  - autorewrite with wav_length. by vm_compute.
  - apply Forall_forall. intros i Hi. apply elem_of_seq in Hi.
    rewrite (payload_word _ _ i half); [apply pcm_half|].
    apply lookup_replicate_2. lia.
Qed.

(** ** The ceiling of the retained count *)

(** C2, as stated, fails twice over.  In the scenario above the retained
    count after the third append is 24000, not the minimum of the
    ceiling 32000 and the 40000 samples appended; and a single chunk of
    40000 samples is retained whole, above the ceiling. *)
Lemma ceiling_claim_fails :
  (let r := foldl onaudioprocess (mkRecorder [] 16000 2) scenario_chunks in
   retained_count r
   <> Z.min (sampleRate r * bufferLimitSeconds r)
            (total_samples scenario_chunks))
  /\ (let r := foldl onaudioprocess (mkRecorder [] 16000 2)
                     [replicate 40000 half] in
      ~ retained_count r <= sampleRate r * bufferLimitSeconds r).
Proof. split; by vm_compute. Qed.

(** C2 (amended): eviction removes whole chunks, oldest first, and stops
    as soon as the count fits the ceiling or one chunk is left.  After
    every sequence of appends of arbitrary chunk sizes the retained
    chunks are the most recent ones, and at least the newest one is
    retained; their count is at most the total appended and equals it
    while that total is within the ceiling
    [sample_rate * retention_seconds]; the count is at most the ceiling
    unless a single chunk is retained; and once a chunk has been
    evicted, the count plus the size of the last evicted chunk exceeds
    the ceiling. *)
Theorem retention_by_whole_chunks (sr lim : Z) (cs : list (list number)) :
  let r := foldl onaudioprocess (mkRecorder [] sr lim) cs in
  exists evicted,
    cs = evicted ++ audioBufferRef r
    /\ (cs <> [] -> audioBufferRef r <> [])
    /\ (cs <> [] -> last (audioBufferRef r) = last cs)
    /\ retained_count r <= total_samples cs
    /\ (total_samples cs <= sr * lim -> retained_count r = total_samples cs)
    /\ ((length (audioBufferRef r) <= 1)%nat \/ retained_count r <= sr * lim)
    /\ (forall c, last evicted = Some c ->
          sr * lim < retained_count r + Z.of_nat (length c)).
Proof.
  intros r.
  destruct (retention_inv_run (mkRecorder [] sr lim) [] cs
              (retention_inv_start sr lim))
    as (evicted & Heq & Hne & Hfit & Hmin & Hnone).
  cbn [sampleRate bufferLimitSeconds app] in *.
  fold r in Heq, Hne, Hfit, Hmin.
  exists evicted. unfold retained_count. repeat split; try done.
  - intros Hcs. specialize (Hne Hcs).
    transitivity (last (evicted ++ audioBufferRef r));
      [|by rewrite <- Heq].
    destruct (audioBufferRef r) as [|c rest]; [done|].
    by rewrite last_app_cons.
  - pose proof (f_equal total_samples Heq) as Htot.
    rewrite total_samples_app in Htot.
    pose proof (total_samples_nonneg evicted). lia.
  - intros Hle. rewrite (Hnone Hle) in Heq. simpl in Heq. by rewrite <- Heq.
Qed.

(** C10: the eviction loop never removes the last chunk.  After any
    append the chunk list is non-empty, and a chunk that alone exceeds
    the maximum retained-sample count is kept in full as the only chunk,
    so that the retained count then strictly exceeds
    [sample_rate * retention_seconds]. *)
Theorem last_chunk_never_evicted (r : Recorder) (inputData : list number) :
  audioBufferRef (onaudioprocess r inputData) <> []
  /\ (sampleRate r * bufferLimitSeconds r < Z.of_nat (length inputData) ->
      audioBufferRef (onaudioprocess r inputData) = [inputData]
      /\ sampleRate r * bufferLimitSeconds r
         < retained_count (onaudioprocess r inputData)).
Proof.
  split.
  - unfold onaudioprocess. cbn [audioBufferRef].
    set (chunks := audioBufferRef r ++ [inputData]).
    destruct (evict_spec (sampleRate r * bufferLimitSeconds r)
                chunks (total_samples chunks) eq_refl)
      as (_ & _ & Hne & _).
    apply Hne. unfold chunks. by destruct (audioBufferRef r).
  - intros Hbig.
    assert (audioBufferRef (onaudioprocess r inputData) = [inputData]) as Hkeep
      by (unfold onaudioprocess; cbn [audioBufferRef];
          by apply evict_oversize).
    split; [done|]. unfold retained_count. rewrite Hkeep.
    rewrite total_samples_cons, total_samples_nil. lia.
Qed.

Lemma last_chunk_never_evicted_witness :
  let r := mkRecorder [[half]; [quarter; half]] 1 2 in
  audioBufferRef (onaudioprocess r [one; half; quarter]) = [[one; half; quarter]]
  /\ sampleRate r * bufferLimitSeconds r
     < retained_count (onaudioprocess r [one; half; quarter]).
Proof.
  intros r.
  apply (proj2 (last_chunk_never_evicted r [one; half; quarter])).
  vm_compute. reflexivity.
Defined.

(** ** The encoder *)

(** C4: for every sample sequence and positive sample rate the encoder
    returns (without error) a 44-byte header followed by the payload.
    The header holds, in this order: the ASCII tag RIFF, the total size
    minus 8 as a little-endian 32-bit integer, the tag WAVE, the format
    sub-chunk (tag, length 16, format code 1, channel count 1, the
    sample rate passed in, the byte rate [sampleRate * 2], block align
    2, bits per sample 16), and the data sub-chunk (tag, length
    [sample_count * 2]); then one little-endian signed 16-bit word per
    sample.  A 32-bit field holds its value modulo 2^32 ([ToUint32]),
    which is the value itself whenever it fits ([ToUint32_fits]). *)
Theorem wav_header_layout (audioData : list number) (sampleRate : Z) :
  0 < sampleRate ->
  exists bytes,
    createWavBlob audioData sampleRate = Ok bytes
    /\ length bytes = (44 + length audioData * 2)%nat
    /\ getBytes bytes 0 4 = string_codes "RIFF"
    /\ getUint32 bytes 4 = ToUint32 (Z.of_nat (length bytes) - 8)
    /\ getBytes bytes 8 4 = string_codes "WAVE"
    /\ getBytes bytes 12 4 = string_codes "fmt "
    /\ getUint32 bytes 16 = 16
    /\ getUint16 bytes 20 = 1
    /\ getUint16 bytes 22 = 1
    /\ getUint32 bytes 24 = ToUint32 sampleRate
    /\ getUint32 bytes 28 = ToUint32 (sampleRate * 2)
    /\ getUint16 bytes 32 = 2
    /\ getUint16 bytes 34 = 16
    /\ getBytes bytes 36 4 = string_codes "data"
    /\ getUint32 bytes 40 = ToUint32 (Z.of_nat (length audioData) * 2)
    /\ (forall i x, audioData !! i = Some x ->
          getInt16 bytes (44 + 2 * i) = ToInt16 (pcm_value x)).
Proof.
  intros _. eexists. split; [apply createWavBlob_layout|].
  set (payload := concat (map pcm_bytes audioData)).
  assert (length (wav_header (length audioData) sampleRate ++ payload)
          = (44 + length audioData * 2)%nat) as Hlen
    by (unfold payload; by autorewrite with wav_length).
  split; [done|]. rewrite Hlen.
  replace (Z.of_nat (44 + length audioData * 2) - 8)
    with (36 + Z.of_nat (length audioData) * 2) by lia.
  repeat split;
    try read_field.
  intros i x Hi. by apply payload_word.
Qed.

Lemma wav_header_layout_witness :
  0 < 16000
  /\ exists bytes,
       createWavBlob [half; quarter] 16000 = Ok bytes
       /\ length bytes = 48%nat
       /\ getUint32 bytes 24 = ToUint32 16000
       /\ getInt16 bytes (44 + 2 * 1) = ToInt16 (pcm_value quarter).
Proof.
  split; [lia|].
  destruct (wav_header_layout [half; quarter] 16000 ltac:(lia))
    as (bytes & Hok & Hlen & _ & _ & _ & _ & _ & _ & _ & Hrate & _
        & _ & _ & _ & _ & Hword).
  exists bytes. repeat split; try done. by apply Hword.
Defined.

(** C8: encoding zero samples is not an error; it yields exactly 44
    bytes, the complete header with a data length of 0, and no payload. *)
Theorem empty_input_encode (sampleRate : Z) :
  exists bytes,
    createWavBlob [] sampleRate = Ok bytes
    /\ length bytes = 44%nat
    /\ getBytes bytes 0 4 = string_codes "RIFF"
    /\ getUint32 bytes 4 = 36
    /\ getBytes bytes 8 4 = string_codes "WAVE"
    /\ getBytes bytes 12 4 = string_codes "fmt "
    /\ getUint32 bytes 16 = 16
    /\ getUint16 bytes 20 = 1
    /\ getUint16 bytes 22 = 1
    /\ getUint32 bytes 24 = ToUint32 sampleRate
    /\ getUint32 bytes 28 = ToUint32 (sampleRate * 2)
    /\ getUint16 bytes 32 = 2
    /\ getUint16 bytes 34 = 16
    /\ getBytes bytes 36 4 = string_codes "data"
    /\ getUint32 bytes 40 = 0
    /\ drop 44 bytes = [].
Proof.
  eexists. split; [apply createWavBlob_layout|].
  cbn [length map concat]. rewrite app_nil_r.
  repeat split;
    try read_field.
Qed.

(** C3: every sample of a [Float32Array] that is not NaN is clamped to
    [-1, 1]; the clamped value is multiplied by 32768 when negative and
    by 32767 otherwise, in exact arithmetic; and the 16-bit payload word
    of the sample is that product rounded toward zero.  The encoder does
    not fail, whatever the sample values. *)
Theorem quantization_rule (audioData : list number) (sampleRate : Z)
    (i : nat) (x : number) (c : Q) :
  audioData !! i = Some x ->
  is_float32 x = true ->
  clamp_exact x = Some c ->
  (-1 <= c <= 1)%Q
  /\ exists bytes,
       createWavBlob audioData sampleRate = Ok bytes
       /\ getInt16 bytes (44 + 2 * i) = Qtrunc (scale_exact c).
Proof.
  intros Hi Hf Hc. split; [by apply (clamp_exact_range x)|].
  eexists. split; [apply createWavBlob_layout|].
  rewrite (payload_word _ _ i x Hi). by apply pcm_exact.
Qed.

Lemma quantization_rule_witness :
  (-1 <= SF2Q (SFopp half) <= 1)%Q
  /\ exists bytes,
       createWavBlob [quarter; SFopp half] 44100 = Ok bytes
       /\ getInt16 bytes (44 + 2 * 1)
          = Qtrunc (scale_exact (SF2Q (SFopp half))).
Proof.
  apply (quantization_rule [quarter; SFopp half] 44100 1 (SFopp half)
           (SF2Q (SFopp half))); reflexivity.
Defined.

(** ** Decoding the payload *)

Lemma dequantize_error (c : Q) :
  (Qabs (dequantize (Qtrunc (scale_exact c)) - c) < quantization_step c)%Q.
Proof.
  destruct c as [n d].
  unfold scale_exact, quantization_step, Qcompare. cbn [Qnum Qden].
  rewrite Z.mul_1_r, Z.mul_0_l.
  apply Qabs_Qlt_condition.
  destruct (Z.compare_spec n 0) as [->|Hneg|Hpos].
  - split; reflexivity.
  - unfold Qtrunc. cbn [Qmult Qnum Qden]. rewrite Pos.mul_1_r.
    set (N := - n). assert (0 < N) as HN by (unfold N; lia).
    replace (n * 32768) with (- (N * 32768)) by (unfold N; lia).
    rewrite Z.quot_opp_l, Z.quot_div_nonneg by lia.
    pose proof (Z.mul_div_le (N * 32768) (Zpos d) ltac:(lia)) as Hlo.
    pose proof (Z.mul_succ_div_gt (N * 32768) (Zpos d) ltac:(lia)) as Hhi.
    set (w := N * 32768 / Zpos d) in *.
    assert (0 <= w) by (apply Z.div_pos; lia).
    unfold dequantize.
    destruct (Z.ltb_spec (- w) 0) as [Hw|Hw].
    + unfold Qlt, Qminus, Qplus, Qopp. cbn [Qnum Qden].
      rewrite !Pos2Z.inj_mul. split; nia.
    + assert (w = 0) as Hw0 by lia. rewrite Hw0 in *.
      unfold Qlt, Qminus, Qplus, Qopp. cbn [Qnum Qden].
      rewrite !Pos2Z.inj_mul. split; nia.
  - unfold Qtrunc. cbn [Qmult Qnum Qden]. rewrite Pos.mul_1_r.
    rewrite Z.quot_div_nonneg by lia.
    pose proof (Z.mul_div_le (n * 32767) (Zpos d) ltac:(lia)) as Hlo.
    pose proof (Z.mul_succ_div_gt (n * 32767) (Zpos d) ltac:(lia)) as Hhi.
    set (w := n * 32767 / Zpos d) in *.
    assert (0 <= w) by (apply Z.div_pos; lia).
    unfold dequantize.
    destruct (Z.ltb_spec w 0) as [Hw|Hw]; [lia|].
    unfold Qlt, Qminus, Qplus, Qopp. cbn [Qnum Qden].
    rewrite !Pos2Z.inj_mul. split; nia.
Qed.

(** C7, as stated, fails on the tolerance: the sample 2^-15 + 2^-31 is
    encoded as the word 0, which decodes to 0, and the error, the sample
    itself, exceeds 1/32768. *)
Lemma roundtrip_tolerance_fails :
  is_float32 above_step = true
  /\ clamp_exact above_step = Some (SF2Q above_step)
  /\ exists bytes,
       createWavBlob [above_step] 16000 = Ok bytes
       /\ ~ (Qabs (dequantize (getInt16 bytes 44) - SF2Q above_step)
             <= 1 # 32768)%Q.
Proof.
  split; [reflexivity|]. split; [reflexivity|].
  eexists. split; [apply createWavBlob_layout|].
  change 44%nat with (44 + 2 * 0)%nat.
  rewrite (payload_word [above_step] 16000 0 above_step eq_refl).
  intros H. apply Qle_bool_iff in H. vm_compute in H. discriminate.
Qed.

(** C7 (amended): the encoder's output has the size, format code,
    channel count, sample rate and bit depth derived from its inputs
    (32-bit fields modulo 2^32), and decoding a payload word by the
    inverse of the quantization formula (divide a negative word by 32768,
    any other by 32767) gives back the clamped sample with an error
    strictly below one quantization step, that is below 1/32768 for a
    negative sample and below 1/32767 otherwise. *)
Theorem roundtrip_within_one_step (audioData : list number)
    (sampleRate : Z) :
  0 < sampleRate ->
  exists bytes,
    createWavBlob audioData sampleRate = Ok bytes
    /\ length bytes = (44 + length audioData * 2)%nat
    /\ getUint32 bytes 4 = ToUint32 (Z.of_nat (length bytes) - 8)
    /\ getUint16 bytes 20 = 1
    /\ getUint16 bytes 22 = 1
    /\ getUint32 bytes 24 = ToUint32 sampleRate
    /\ getUint16 bytes 34 = 16
    /\ getUint32 bytes 40 = ToUint32 (Z.of_nat (length audioData) * 2)
    /\ (forall i x c,
          audioData !! i = Some x ->
          is_float32 x = true ->
          clamp_exact x = Some c ->
          (Qabs (dequantize (getInt16 bytes (44 + 2 * i)) - c)
           < quantization_step c)%Q).
Proof.
  intros _. eexists. split; [apply createWavBlob_layout|].
  set (payload := concat (map pcm_bytes audioData)).
  assert (length (wav_header (length audioData) sampleRate ++ payload)
          = (44 + length audioData * 2)%nat) as Hlen
    by (unfold payload; by autorewrite with wav_length).
  split; [done|]. rewrite Hlen.
  replace (Z.of_nat (44 + length audioData * 2) - 8)
    with (36 + Z.of_nat (length audioData) * 2) by lia.
  repeat split;
    try read_field.
  intros i x c Hi Hf Hc.
  rewrite (payload_word _ _ i x Hi), (pcm_exact x c Hf Hc).
  apply dequantize_error.
Qed.

Lemma roundtrip_within_one_step_witness :
  0 < 16000
  /\ exists bytes,
       createWavBlob [above_step; SFopp half] 16000 = Ok bytes
       /\ (Qabs (dequantize (getInt16 bytes (44 + 2 * 0)) - SF2Q above_step)
           < 1 # 32767)%Q
       /\ (Qabs (dequantize (getInt16 bytes (44 + 2 * 1)) - SF2Q (SFopp half))
           < 1 # 32768)%Q.
Proof.
  split; [lia|].
  destruct (roundtrip_within_one_step [above_step; SFopp half] 16000
              ltac:(lia)) as (bytes & Hok & _ & _ & _ & _ & _ & _ & _ & Herr).
  exists bytes. split; [done|]. split.
  - apply (Herr 0%nat above_step (SF2Q above_step)); reflexivity.
  - apply (Herr 1%nat (SFopp half) (SF2Q (SFopp half))); reflexivity.
Defined.

(** ** Snapshots by duration *)

Lemma run_keeps_configuration (r : Recorder) (cs : list (list number)) :
  sampleRate (foldl onaudioprocess r cs) = sampleRate r
  /\ bufferLimitSeconds (foldl onaudioprocess r cs) = bufferLimitSeconds r.
Proof.
  revert r. induction cs as [|c cs IH]; intros r; [done|].
  cbn [foldl]. destruct (IH (onaudioprocess r c)) as [-> ->]. done.
Qed.

Lemma total_samples_uniform (n : nat) (chunks : list (list number)) :
  Forall (fun c => length c = n) chunks ->
  total_samples chunks = Z.of_nat n * Z.of_nat (length chunks).
Proof.
  induction 1 as [|c chunks Hc _ IH]; [rewrite total_samples_nil; simpl; lia|].
  rewrite total_samples_cons, IH, Hc. cbn [length].
  rewrite Nat2Z.inj_succ. ring.
Qed.

(** A session whose appended chunks fit the ceiling retains all of them. *)
Lemma run_within_ceiling (sr lim : Z) (cs : list (list number)) :
  total_samples cs <= sr * lim ->
  audioBufferRef (foldl onaudioprocess (mkRecorder [] sr lim) cs) = cs.
Proof.
  intros Hle.
  destruct (retention_inv_run (mkRecorder [] sr lim) [] cs
              (retention_inv_start sr lim))
    as (evicted & Heq & _ & _ & _ & Hnone).
  cbn [sampleRate bufferLimitSeconds app] in *.
  rewrite (Hnone Hle) in Heq. by rewrite Heq at 2.
Qed.

(** The snapshot of a session of [k] chunks of [n] samples each, given
    the sample count that lines 288-293 compute. *)
Lemma snapshotLast_uniform (sr lim : Z) (n k : nat) (d : number)
    (count : Z) (chunks : list (list number)) :
  length chunks = k ->
  Forall (fun c => length c = n) chunks ->
  Z.of_nat n * Z.of_nat k <= sr * lim ->
  Math_floor (mul (Math_min d (div (of_Z (Z.of_nat n * Z.of_nat k))
                                  (of_Z sr)))
                  (of_Z sr)) = JInt count ->
  0 <= count ->
  let r := foldl onaudioprocess (mkRecorder [] sr lim) chunks in
  audioBufferRef r = chunks
  /\ retained_count r = Z.of_nat n * Z.of_nat k
  /\ snapshotLast r d
     = Ok (drop (Z.to_nat (Z.of_nat n * Z.of_nat k - count)) (concat chunks)).
Proof.
  intros Hk Hn Hfit Hcount Hpos r.
  pose proof (total_samples_uniform n chunks Hn) as Htot. rewrite Hk in Htot.
  assert (audioBufferRef r = chunks) as Hbuf
    by (apply run_within_ceiling; lia).
  split; [done|]. split; [unfold retained_count; by rewrite Hbuf|].
  unfold snapshotLast. rewrite Hbuf, Htot.
  destruct (run_keeps_configuration (mkRecorder [] sr lim) chunks) as [Hsr _].
  fold r in Hsr. rewrite Hsr. cbn [sampleRate].
  rewrite Hcount, trimAudioBuffer_JInt, Htot.
  by destruct (Z.ltb_spec count 0); [lia|].
Qed.

(** C5 (the code at the failing input): at the default sample rate
    44100, after fifteen chunks of 4096 samples the session retains
    61440 samples, 1.39 seconds.  A snapshot of the last 10 seconds,
    more than is retained, returns 61439 samples: the oldest retained
    sample is missing. *)
Theorem saturating_export_loses_a_sample (chunks : list (list number)) :
  length chunks = 15%nat ->
  Forall (fun c => length c = 4096%nat) chunks ->
  let r := foldl onaudioprocess (mkRecorder [] 44100 30) chunks in
  retained_count r = 61440
  /\ ltb (div (of_Z (retained_count r)) (of_Z (sampleRate r))) (of_Z 10)
     = true
  /\ snapshotLast r (of_Z 10) = Ok (drop 1 (concat (audioBufferRef r)))
  /\ Z.of_nat (length (drop 1 (concat (audioBufferRef r)))) = 61439.
Proof.
  intros Hk Hn r.
  assert (Math_floor (mul (Math_min (of_Z 10)
                                    (div (of_Z (Z.of_nat 4096 * Z.of_nat 15))
                                         (of_Z 44100)))
                          (of_Z 44100)) = JInt 61439) as Hcount
    by (vm_compute; reflexivity).
  destruct (snapshotLast_uniform 44100 30 4096 15 (of_Z 10) 61439 chunks
              Hk Hn ltac:(lia) Hcount ltac:(lia))
    as (Hbuf & Hret & Hsnap).
  fold r in Hbuf, Hret, Hsnap.
  destruct (run_keeps_configuration (mkRecorder [] 44100 30) chunks)
    as [Hsr _]. fold r in Hsr.
  rewrite Hret, Hsr, Hbuf. split; [done|]. split; [by vm_compute|].
  split; [exact Hsnap|].
  pose proof (total_samples_concat chunks) as Hlen.
  rewrite <- Hbuf in Hlen at 1. fold (retained_count r) in Hlen.
  rewrite length_drop. lia.
Qed.

Lemma uniform_chunks (k n : nat) (x : number) :
  length (replicate k (replicate n x)) = k
  /\ Forall (fun c => length c = n) (replicate k (replicate n x)).
Proof.
  split; [apply length_replicate|].
  apply Forall_replicate, length_replicate.
Qed.

Lemma saturating_export_loses_a_sample_witness :
  let r := foldl onaudioprocess (mkRecorder [] 44100 30)
                 (replicate 15 (replicate 4096 half)) in
  retained_count r = 61440
  /\ ltb (div (of_Z (retained_count r)) (of_Z (sampleRate r))) (of_Z 10)
     = true
  /\ snapshotLast r (of_Z 10) = Ok (drop 1 (concat (audioBufferRef r)))
  /\ Z.of_nat (length (drop 1 (concat (audioBufferRef r)))) = 61439.
Proof.
  apply (saturating_export_loses_a_sample
           (replicate 15 (replicate 4096 half)));
    apply (uniform_chunks 15 4096 half).
Defined.

(** C6 (the code at the failing input): at sample rate 48000, after
    twenty-seven chunks of 4096 samples (2.304 seconds), a snapshot of
    the last 30 seconds, the longest the page offers and the whole
    retention window, keeps the order of the samples but returns only
    110591 of the 110592 retained ones. *)
Theorem covering_snapshot_loses_a_sample (chunks : list (list number)) :
  length chunks = 27%nat ->
  Forall (fun c => length c = 4096%nat) chunks ->
  let r := foldl onaudioprocess (mkRecorder [] 48000 30) chunks in
  retained_count r = 110592
  /\ snapshotLast r (of_Z 30) = Ok (drop 1 (concat (audioBufferRef r)))
  /\ snapshotLast r (of_Z 30) <> Ok (concat (audioBufferRef r)).
Proof.
  intros Hk Hn r.
  assert (Math_floor (mul (Math_min (of_Z 30)
                                    (div (of_Z (Z.of_nat 4096 * Z.of_nat 27))
                                         (of_Z 48000)))
                          (of_Z 48000)) = JInt 110591) as Hcount
    by (vm_compute; reflexivity).
  destruct (snapshotLast_uniform 48000 30 4096 27 (of_Z 30)
              110591 chunks Hk Hn ltac:(lia) Hcount ltac:(lia))
    as (Hbuf & Hret & Hsnap).
  fold r in Hbuf, Hret, Hsnap.
  rewrite Hret, Hbuf, Hsnap. split; [done|]. split; [done|].
  intros Heq. injection Heq as Heq.
  apply (f_equal length) in Heq. rewrite length_drop in Heq.
  pose proof (total_samples_concat chunks) as Hlen.
  rewrite <- Hbuf in Hlen at 1. fold (retained_count r) in Hlen. lia.
Qed.

Lemma covering_snapshot_loses_a_sample_witness :
  let r := foldl onaudioprocess (mkRecorder [] 48000 30)
                 (replicate 27 (replicate 4096 quarter)) in
  retained_count r = 110592
  /\ snapshotLast r (of_Z 30) = Ok (drop 1 (concat (audioBufferRef r)))
  /\ snapshotLast r (of_Z 30) <> Ok (concat (audioBufferRef r)).
Proof.
  apply (covering_snapshot_loses_a_sample
           (replicate 27 (replicate 4096 quarter)));
    apply (uniform_chunks 27 4096 quarter).
Defined.

(** ** Configuration is not validated *)





(** * Further properties of the code *)

(** ** [trimAudioBuffer] and the snapshot *)

(** X1: for every count that is not negative, [trimAudioBuffer] does not
    fail and returns the last [min samplesToKeep totalSamples] samples of
    the concatenated chunks, in their order. *)
Theorem trimAudioBuffer_last_samples (audioBuffers : list (list number))
    (n : Z) :
  0 <= n ->
  exists out,
    trimAudioBuffer audioBuffers (JInt n) = Ok out
    /\ Z.of_nat (length out) = Z.min n (total_samples audioBuffers)
    /\ out = drop (length (concat audioBuffers) - length out)
                  (concat audioBuffers).
Proof.
  intros Hn. rewrite trimAudioBuffer_JInt.
  destruct (Z.ltb_spec n 0); [lia|].
  pose proof (total_samples_concat audioBuffers) as Htot.
  eexists. split; [done|].
  rewrite length_drop. split; [lia|]. f_equal. lia.
Qed.

Lemma trimAudioBuffer_last_samples_witness :
  exists out,
    trimAudioBuffer [[half; quarter]; [one]; [zero; half]] (JInt 3) = Ok out
    /\ Z.of_nat (length out)
       = Z.min 3 (total_samples [[half; quarter]; [one]; [zero; half]])
    /\ out = drop (length (concat [[half; quarter]; [one]; [zero; half]])
                   - length out)
                  (concat [[half; quarter]; [one]; [zero; half]]).
Proof.
  apply (trimAudioBuffer_last_samples [[half; quarter]; [one]; [zero; half]] 3).
  lia.
Defined.

(** X2: what [transcribeAudio] builds.  Without a chunk of the media
    recorder, when the function is entered or after it has waited for
    the recorder, or without raw audio, it alerts and builds nothing.
    Otherwise, when the sample rate and the requested duration are not
    negative, it does not fail, and the file it builds is the encoding
    of a suffix of the retained samples: it has 44 + 2 * k bytes for
    some k that is at most the retained count, nothing is padded and
    the order is kept. *)
Theorem transcribeAudio_encodes_a_suffix (atEntry afterWait : list Blob)
    (r : Recorder) (d : number) :
  0 <= sampleRate r ->
  sign_clear d ->
  (atEntry = [] \/ afterWait = [] \/ audioBufferRef r = [] ->
   transcribeAudio atEntry afterWait r d = Ok None)
  /\ (atEntry <> [] -> afterWait <> [] -> audioBufferRef r <> [] ->
      exists (skipped : nat) (bytes : list Z),
        let kept := drop skipped (concat (audioBufferRef r)) in
        snapshotLast r d = Ok kept
        /\ transcribeAudio atEntry afterWait r d = Ok (Some bytes)
        /\ createWavBlob kept (sampleRate r) = Ok bytes
        /\ Z.of_nat (length bytes) = 44 + 2 * Z.of_nat (length kept)
        /\ Z.of_nat (length kept) <= retained_count r).
Proof.
  intros Hsr Hd. split; [apply transcribeAudio_returns_early|].
  intros H1 H2 H3.
  destruct (snapshotLast_suffix r d Hsr Hd) as [k Hsnap].
  exists k. eexists. cbv zeta.
  split; [exact Hsnap|].
  split; [by apply transcribeAudio_ok|].
  split; [apply createWavBlob_layout|]. split.
  - rewrite length_app, length_wav_header, length_payload. lia.
  - unfold retained_count. rewrite total_samples_concat, length_drop. lia.
Qed.

Lemma transcribeAudio_encodes_a_suffix_witness :
  let r := mkRecorder [[half; quarter]; [one; half]] 2 30 in
  transcribeAudio [] [] r one = Ok None
  /\ exists (skipped : nat) (bytes : list Z),
       let kept := drop skipped (concat (audioBufferRef r)) in
       snapshotLast r one = Ok kept
       /\ transcribeAudio [[1; 2]] [[1; 2]; [3]] r one = Ok (Some bytes)
       /\ createWavBlob kept (sampleRate r) = Ok bytes
       /\ Z.of_nat (length bytes) = 44 + 2 * Z.of_nat (length kept)
       /\ Z.of_nat (length kept) <= retained_count r.
Proof.
  intros r. split.
  - apply (proj1 (transcribeAudio_encodes_a_suffix [] [] r one
                    ltac:(cbn [sampleRate r]; lia) eq_refl)).
    by left.
  - apply (proj2 (transcribeAudio_encodes_a_suffix [[1; 2]] [[1; 2]; [3]]
                    r one ltac:(cbn [sampleRate r]; lia) eq_refl));
      done.
Defined.

(** ** The retained window under fixed-size chunks *)

(** X3: the script processor delivers chunks of one fixed size (4096 in
    [startRecording]).  With chunks of [c] samples, [0 < c <= maxSamples],
    the buffer holds the most recent [min n (maxSamples / c)] chunks after
    [n] appends; once more than [maxSamples] samples have been appended the
    retained count stays in the window [(maxSamples - c, maxSamples]]. *)
Theorem fixed_size_chunks_window (sr lim : Z) (c : nat)
    (cs : list (list number)) :
  (0 < c)%nat ->
  Z.of_nat c <= sr * lim ->
  Forall (fun ch => length ch = c) cs ->
  let r := foldl onaudioprocess (mkRecorder [] sr lim) cs in
  let k := Z.min (Z.of_nat (length cs)) (sr * lim / Z.of_nat c) in
  audioBufferRef r = drop (length cs - Z.to_nat k) cs
  /\ Z.of_nat (length (audioBufferRef r)) = k
  /\ retained_count r = Z.of_nat c * k
  /\ (sr * lim < total_samples cs ->
      sr * lim - Z.of_nat c < retained_count r <= sr * lim).
Proof.
  intros Hc HM Hall r k.
  destruct (retention_inv_run (mkRecorder [] sr lim) [] cs
              (retention_inv_start sr lim))
    as (evicted & Heq & _ & Hfit & Hmin & Hnone).
  cbn [sampleRate bufferLimitSeconds app] in *. fold r in Heq, Hfit, Hmin.
  set (M := sr * lim) in *.
  set (kept := audioBufferRef r) in *.
  rewrite Heq in Hall. apply Forall_app in Hall as [Hev Hkept].
  pose proof (total_samples_uniform c kept Hkept) as Htk.
  pose proof (total_samples_uniform c evicted Hev) as Hte.
  assert (length cs = (length evicted + length kept)%nat) as Hlen
    by (by rewrite Heq, length_app).
  assert (total_samples cs = Z.of_nat c * Z.of_nat (length cs)) as Htot
    by (rewrite Heq, total_samples_app, Htk, Hte, length_app; lia).
  assert (Z.of_nat (length kept) = k) as Hk.
  { unfold k. destruct (Z_le_gt_dec (total_samples cs) M) as [Hle|Hgt].
    - specialize (Hnone Hle). subst evicted. cbn [length] in Hlen.
      assert (Z.of_nat (length cs) <= M / Z.of_nat c)
        by (apply Z.div_le_lower_bound; lia).
      lia.
    - destruct (last evicted) as [e|] eqn:Hlast.
      + specialize (Hmin e eq_refl).
        assert (length e = c) as He.
        { apply last_Some in Hlast as [pre ->].
          apply Forall_app in Hev as [_ Hev]. by inversion Hev. }
        rewrite He, Htk in Hmin.
        assert (Z.of_nat c * Z.of_nat (length kept) <= M) as Hup.
        { destruct Hfit as [Hone|Hfit]; [|lia].
          assert (Z.of_nat (length kept) <= 1) by lia. nia. }
        assert (M / Z.of_nat c = Z.of_nat (length kept)) as Hq.
        { symmetry. apply Z.div_unique with (r := M - Z.of_nat c * Z.of_nat (length kept));
            [left|]; lia. }
        rewrite Hq. lia.
      + apply last_None in Hlast. subst evicted. cbn [length] in Hlen.
        exfalso. destruct Hfit as [Hone|Hfit]; [|rewrite Htk in Hfit; nia].
        assert (Z.of_nat (length kept) <= 1) by lia. nia. }
  split; [|split; [done|split]].
  - rewrite <- Hk, Nat2Z.id, Hlen.
    replace (length evicted + length kept - length kept)%nat
      with (length evicted) by lia.
    by rewrite Heq, drop_app_length.
  - unfold retained_count. fold kept. by rewrite Htk, Hk.
  - intros Hover. unfold retained_count. fold kept. rewrite Htk, Hk.
    unfold k. rewrite Htot in Hover.
    assert (M / Z.of_nat c < Z.of_nat (length cs)) as Hlt.
    { apply Z.div_lt_upper_bound; lia. }
    rewrite Z.min_r by lia.
    pose proof (Z.mul_div_le M (Z.of_nat c) ltac:(lia)).
    pose proof (Z.mul_succ_div_gt M (Z.of_nat c) ltac:(lia)). lia.
Qed.

Lemma fixed_size_chunks_window_witness :
  let cs := replicate 5 [half; quarter] in
  let r := foldl onaudioprocess (mkRecorder [] 7 1) cs in
  let k := Z.min (Z.of_nat (length cs)) (7 * 1 / Z.of_nat 2) in
  audioBufferRef r = drop (length cs - Z.to_nat k) cs
  /\ Z.of_nat (length (audioBufferRef r)) = k
  /\ retained_count r = Z.of_nat 2 * k
  /\ (7 * 1 < total_samples cs ->
      7 * 1 - Z.of_nat 2 < retained_count r <= 7 * 1).
Proof.
  apply (fixed_size_chunks_window 7 1 2 (replicate 5 [half; quarter])).
  - lia.
  - lia.
  - by repeat constructor.
Defined.

(** ** The stored words of the payload *)

(** The word stored for a finite element of a [Float32Array]. *)
Lemma pcm_word_finite (s : bool) (m : positive) (e : Z) :
  is_float32 (S754_finite s m e) = true ->
  ToInt16 (pcm_value (S754_finite s m e))
  = if -52 <=? e then (if s then -32768 else 32767)
    else if s then - ((Zpos m * 32768) / 2 ^ (- e))
         else (Zpos m * 32767) / 2 ^ (- e).
Proof.
  intros Hf. destruct (is_float32_finite _ _ _ Hf) as (Hd & _ & _).
  destruct (Z.leb_spec (-52) e) as [Hout|Hin].
  - by apply pcm_value_outside.
  - rewrite pcm_value_inside by done.
    destruct s; [by apply ToInt16_mul_x8000|by apply ToInt16_mul_x7FFF].
Qed.

Lemma float32_mantissa (s : bool) (m : positive) (e : Z) :
  is_float32 (S754_finite s m e) = true -> 2 ^ 52 <= Zpos m < 2 ^ 53.
Proof.
  intros Hf. destruct (is_float32_finite _ _ _ Hf) as (Hd & _ & _).
  pose proof (digits2_bounds m) as Hb. by rewrite Hd in Hb.
Qed.

(** Below full scale the scaled mantissa stays under the scale. *)
Lemma scaled_below (m : positive) (e k : Z) :
  Zpos m < 2 ^ 53 -> e < -52 -> 0 < k ->
  0 <= (Zpos m * k) / 2 ^ (- e) < k.
Proof.
  intros Hm He Hk.
  assert (2 ^ 53 <= 2 ^ (- e)) by (apply Z.pow_le_mono_r; lia).
  split; [apply Z.div_pos; lia|].
  apply Z.div_lt_upper_bound; nia.
Qed.

(** Scaled mantissas of two sub-unit samples are ordered as the
    samples. *)
Lemma scaled_ordered (m1 m2 : positive) (e1 e2 k : Z) :
  2 ^ 52 <= Zpos m1 < 2 ^ 53 -> 2 ^ 52 <= Zpos m2 < 2 ^ 53 ->
  e1 < 0 -> e2 < 0 -> 0 < k ->
  e1 < e2 \/ (e1 = e2 /\ Zpos m1 <= Zpos m2) ->
  (Zpos m1 * k) / 2 ^ (- e1) <= (Zpos m2 * k) / 2 ^ (- e2).
Proof.
  intros Hm1 Hm2 He1 He2 Hk [Hlt|[-> Hle]].
  - assert (0 < 2 ^ (- e2)) by (apply Z.pow_pos_nonneg; lia).
    assert (2 ^ 1 <= 2 ^ (e2 - e1)) as Hd by (apply Z.pow_le_mono_r; lia).
    change (2 ^ 1) with 2 in Hd.
    replace (- e1) with (- e2 + (e2 - e1)) by lia.
    rewrite Z.pow_add_r by lia.
    rewrite <- (Z.div_mul_cancel_r (Zpos m2 * k) (2 ^ (- e2)) (2 ^ (e2 - e1)))
      by lia.
    set (P := 2 ^ (e2 - e1)) in *.
    apply Z.div_le_mono; [nia|].
    assert (Zpos m1 * k <= 2 * Zpos m2 * k) by nia.
    assert (2 * (Zpos m2 * k) <= P * (Zpos m2 * k))
      by (apply Z.mul_le_mono_nonneg_r; lia).
    lia.
  - assert (0 < 2 ^ (- e2)) by (apply Z.pow_pos_nonneg; lia).
    apply Z.div_le_mono; [lia|nia].
Qed.

(** The sign and the range of the word of a finite sample. *)
Lemma pcm_word_range (s : bool) (m : positive) (e : Z) :
  is_float32 (S754_finite s m e) = true ->
  let w := ToInt16 (pcm_value (S754_finite s m e)) in
  if s then -32768 <= w <= 0 /\ (w = -32768 <-> -52 <= e)
  else 0 <= w <= 32767 /\ (w = 32767 <-> -52 <= e).
Proof.
  intros Hf w. unfold w. rewrite pcm_word_finite by done.
  pose proof (float32_mantissa _ _ _ Hf) as Hm.
  destruct (Z.leb_spec (-52) e) as [Hout|Hin].
  - destruct s; lia.
  - destruct s.
    + pose proof (scaled_below m e 32768 ltac:(lia) Hin ltac:(lia)). lia.
    + pose proof (scaled_below m e 32767 ltac:(lia) Hin ltac:(lia)). lia.
Qed.

(** Comparison of a finite element of a [Float32Array] with 1, -1
    and 0. *)
Lemma float32_compare_units (s : bool) (m : positive) (e : Z) :
  is_float32 (S754_finite s m e) = true ->
  (SFleb one (S754_finite s m e) = true <-> s = false /\ -52 <= e)
  /\ (SFleb (S754_finite s m e) minus_one = true <-> s = true /\ -52 <= e)
  /\ (SFleb zero (S754_finite s m e) = true <-> s = false)
  /\ (SFleb (S754_finite s m e) zero = true <-> s = true).
Proof.
  intros Hf. pose proof (float32_mantissa _ _ _ Hf) as Hm.
  unfold SFleb, one, minus_one, zero, SFcompare.
  rewrite !Pos.compare_cont_spec. cbn [Pos.switch_Eq].
  destruct s.
  - repeat split; try done; try (intros [? _]; done).
    + destruct (Z.compare_spec e (-52)) as [->|Hlt|Hgt]; [lia|done|lia].
    + intros [_ He].
      destruct (Z.compare_spec e (-52)) as [->|Hlt|Hgt]; [|lia|done].
      destruct (Pos.compare_spec m 4503599627370496) as [->|Hlt|Hgt];
        [done| |done].
      apply Pos2Z.pos_lt_pos in Hlt. lia.
  - repeat split; try done; try (intros [? _]; done).
    + destruct (Z.compare_spec (-52) e) as [<-|Hlt|Hgt]; [lia|lia|done].
    + intros [_ He].
      destruct (Z.compare_spec (-52) e) as [<-|Hlt|Hgt]; [|done|lia].
      destruct (Pos.compare_spec 4503599627370496 m) as [<-|Hlt|Hgt];
        [done|done|].
      apply Pos2Z.pos_lt_pos in Hgt. lia.
Qed.

(** Full scale is reached by the samples at or beyond 1 and -1, and by
    no other; the sign of a sample is the sign of its word. *)
Lemma pcm_word_saturation (x : number) :
  is_float32 x = true ->
  let w := ToInt16 (pcm_value x) in
  -32768 <= w <= 32767
  /\ (w = 32767 <-> SFleb one x = true)
  /\ (w = -32768 <-> SFleb x minus_one = true)
  /\ (SFleb zero x = true -> 0 <= w)
  /\ (SFleb x zero = true -> w <= 0).
Proof.
  intros Hf w. unfold w. destruct x as [s|s| |s m e].
  - destruct s; vm_compute; repeat split; intros; congruence.
  - destruct s; vm_compute; repeat split; intros; congruence.
  - vm_compute; repeat split; intros; congruence.
  - pose proof (pcm_word_range s m e Hf) as Hr. cbv zeta in Hr.
    destruct (float32_compare_units s m e Hf) as (H1 & H2 & H3 & H4).
    rewrite H1, H2, H3, H4.
    destruct s; repeat split; try lia; try (intros [? ?]; done || lia);
      try done; try (intros ?; split; [done|lia]).
Qed.

Lemma pcm_word_infinity (s : bool) :
  ToInt16 (pcm_value (S754_infinity s)) = if s then -32768 else 32767.
Proof. destruct s; vm_compute; reflexivity. Qed.

(** The word of a smaller sample is not above the word of a larger
    one. *)
Lemma pcm_word_monotone (x y : number) :
  is_float32 x = true -> is_float32 y = true ->
  SFleb x y = true ->
  ToInt16 (pcm_value x) <= ToInt16 (pcm_value y).
Proof.
  intros Hx Hy Hle.
  destruct (pcm_word_saturation x Hx) as (Hrx & _ & _ & Hx0 & Hx1).
  destruct (pcm_word_saturation y Hy) as (Hry & _ & _ & Hy0 & Hy1).
  destruct x as [sx|sx| |sx mx ex]; destruct y as [sy|sy| |sy my ey];
    try discriminate Hle.
  - apply Z.le_trans with 0; [apply Hx1|apply Hy0]; by destruct sx, sy.
  - destruct sy; [discriminate Hle|].
    apply Z.le_trans with 0; [apply Hx1|apply Hy0]; by destruct sx.
  - destruct sy; [discriminate Hle|].
    apply Z.le_trans with 0; [apply Hx1|apply Hy0]; by destruct sx.
  - destruct sx; [|discriminate Hle].
    apply Z.le_trans with 0; [apply Hx1|apply Hy0]; by destruct sy.
  - rewrite !pcm_word_infinity. destruct sx, sy; (discriminate Hle || lia).
  - destruct sx; [|discriminate Hle]. rewrite pcm_word_infinity. lia.
  - destruct sx; [|discriminate Hle].
    apply Z.le_trans with 0; [apply Hx1|apply Hy0]; by destruct sy.
  - destruct sy; [discriminate Hle|]. rewrite pcm_word_infinity. lia.
  - pose proof (float32_mantissa _ _ _ Hx) as Hmx.
    pose proof (float32_mantissa _ _ _ Hy) as Hmy.
    destruct sx, sy.
    + (* both negative *)
      assert (ey < ex \/ (ey = ex /\ Zpos my <= Zpos mx)) as Hord.
      { unfold SFleb, SFcompare in Hle.
        rewrite Pos.compare_cont_spec in Hle. cbn [Pos.switch_Eq] in Hle.
        destruct (Z.compare_spec ex ey) as [->|Hlt|Hgt]; [|done|lia].
        right. split; [done|].
        destruct (Pos.compare_spec mx my) as [->|Hlt|Hgt]; [lia|done|lia]. }
      rewrite !pcm_word_finite by done.
      destruct (Z.leb_spec (-52) ex) as [Hox|Hix].
      * destruct (Z.leb_spec (-52) ey) as [Hoy|Hiy]; [lia|].
        pose proof (scaled_below my ey 32768 ltac:(lia) Hiy ltac:(lia)). lia.
      * destruct (Z.leb_spec (-52) ey) as [Hoy|Hiy]; [lia|].
        pose proof (scaled_ordered my mx ey ex 32768 Hmy Hmx
                      ltac:(lia) ltac:(lia) ltac:(lia) Hord). lia.
    + apply Z.le_trans with 0; [by apply Hx1|by apply Hy0].
    + done.
    + assert (ex < ey \/ (ex = ey /\ Zpos mx <= Zpos my)) as Hord.
      { unfold SFleb, SFcompare in Hle.
        rewrite Pos.compare_cont_spec in Hle. cbn [Pos.switch_Eq] in Hle.
        destruct (Z.compare_spec ex ey) as [->|Hlt|Hgt]; [|lia|done].
        right. split; [done|].
        destruct (Pos.compare_spec mx my) as [->|Hlt|Hgt]; [lia|lia|done]. }
      rewrite !pcm_word_finite by done.
      destruct (Z.leb_spec (-52) ey) as [Hoy|Hiy].
      * destruct (Z.leb_spec (-52) ex) as [Hox|Hix]; [lia|].
        pose proof (scaled_below mx ex 32767 ltac:(lia) Hix ltac:(lia)). lia.
      * destruct (Z.leb_spec (-52) ex) as [Hox|Hix]; [lia|].
        pose proof (scaled_ordered mx my ex ey 32767 Hmx Hmy
                      ltac:(lia) ltac:(lia) ltac:(lia) Hord). lia.
Qed.

(** X4: [createWavBlob] never wraps around.  The 16-bit word written for
    an element of the [Float32Array] lies in [-32768, 32767]; it is 32767
    exactly for the samples that are at least 1 (and for [+Infinity]),
    -32768 exactly for those that are at most -1 (and [-Infinity]); a
    sample that is not negative has a word that is not negative, and
    conversely; NaN is written as 0. *)
Theorem payload_never_wraps (audioData : list number) (sampleRate : Z)
    (i : nat) (x : number) :
  audioData !! i = Some x ->
  is_float32 x = true ->
  exists bytes,
    createWavBlob audioData sampleRate = Ok bytes
    /\ let w := getInt16 bytes (44 + 2 * i) in
       -32768 <= w <= 32767
       /\ (w = 32767 <-> SFleb one x = true)
       /\ (w = -32768 <-> SFleb x minus_one = true)
       /\ (SFleb zero x = true -> 0 <= w)
       /\ (SFleb x zero = true -> w <= 0)
       /\ (x = S754_nan -> w = 0).
Proof.
  intros Hi Hf. eexists. split; [apply createWavBlob_layout|].
  cbv zeta. rewrite (payload_word _ _ i x Hi).
  destruct (pcm_word_saturation x Hf) as (H1 & H2 & H3 & H4 & H5).
  repeat split; try apply H2; try apply H3; try done; try lia.
  by intros ->.
Qed.

Lemma payload_never_wraps_witness :
  exists bytes,
    createWavBlob [quarter; of_Z 3] 44100 = Ok bytes
    /\ let w := getInt16 bytes (44 + 2 * 1) in
       -32768 <= w <= 32767
       /\ (w = 32767 <-> SFleb one (of_Z 3) = true)
       /\ (w = -32768 <-> SFleb (of_Z 3) minus_one = true)
       /\ (SFleb zero (of_Z 3) = true -> 0 <= w)
       /\ (SFleb (of_Z 3) zero = true -> w <= 0)
       /\ (of_Z 3 = S754_nan -> w = 0).
Proof.
  apply (payload_never_wraps [quarter; of_Z 3] 44100 1 (of_Z 3));
    reflexivity.
Defined.

(** X5: quantization keeps the order of the samples: when one element
    of the [Float32Array] is at most another, its stored word is at most
    the other's. *)
Theorem payload_keeps_order (audioData : list number) (sampleRate : Z)
    (i j : nat) (x y : number) :
  audioData !! i = Some x ->
  audioData !! j = Some y ->
  is_float32 x = true ->
  is_float32 y = true ->
  SFleb x y = true ->
  exists bytes,
    createWavBlob audioData sampleRate = Ok bytes
    /\ getInt16 bytes (44 + 2 * i) <= getInt16 bytes (44 + 2 * j).
Proof.
  intros Hi Hj Hx Hy Hle. eexists. split; [apply createWavBlob_layout|].
  rewrite (payload_word _ _ i x Hi), (payload_word _ _ j y Hj).
  by apply pcm_word_monotone.
Qed.

Lemma payload_keeps_order_witness :
  exists bytes,
    createWavBlob [half; SFopp quarter; quarter] 44100 = Ok bytes
    /\ getInt16 bytes (44 + 2 * 1) <= getInt16 bytes (44 + 2 * 2).
Proof.
  apply (payload_keeps_order [half; SFopp quarter; quarter] 44100 1 2
           (SFopp quarter) quarter); reflexivity.
Defined.

(** ** Snapshots of whole seconds *)

(** Lines 288-293 for a duration of [j] whole seconds of which the
    buffer holds at least as much: the division, the minimum, the
    product and the floor are computed without error. *)
Lemma snapshotLast_exact (r : Recorder) (j : Z) :
  0 < sampleRate r < 2 ^ 53 ->
  0 <= j ->
  j * sampleRate r <= retained_count r ->
  retained_count r < 2 ^ 53 ->
  snapshotLast r (of_Z j)
  = Ok (drop (Z.to_nat (retained_count r - j * sampleRate r))
             (concat (audioBufferRef r))).
Proof.
  intros Hsr Hj Hjs Ht. unfold retained_count in *.
  unfold snapshotLast.
  rewrite Math_min_of_Z_div by done.
  rewrite mul_of_Z by nia.
  rewrite Math_floor_of_Z by nia.
  rewrite trimAudioBuffer_JInt.
  by destruct (Z.ltb_spec (j * sampleRate r) 0) as [Hneg|_]; [nia|].
Qed.



(** ** The chunks of the media recorder *)

Lemma Math_ceil_of_Z (z : Z) :
  0 <= z < 2 ^ 53 -> Math_ceil (of_Z z) = JInt z.
Proof.
  intros Hz. destruct z as [|p|p]; [done| |lia].
  destruct (of_Z_pos p) as (m & -> & Hm & _); [lia|].
  pose proof (digits2_le_53 p ltac:(lia)) as Hd.
  unfold Math_ceil. rewrite (trunc_mag_scaled p); [done|lia|].
  rewrite Hm. do 2 f_equal. lia.
Qed.

(** The chunk limit is ten chunks for each second of the buffer
    limit. *)
Lemma maxChunks_exact (bufferLimitSeconds : Z) :
  0 <= bufferLimitSeconds -> bufferLimitSeconds * 1000 < 2 ^ 53 ->
  maxChunks bufferLimitSeconds = JInt (10 * bufferLimitSeconds).
Proof.
  intros H0 Hb. unfold maxChunks, recordingIntervalMs.
  rewrite mul_of_Z by lia.
  replace (bufferLimitSeconds * 1000)
    with (10 * bufferLimitSeconds * 100) by lia.
  rewrite div_of_Z_exact by lia.
  apply Math_ceil_of_Z. lia.
Qed.

Lemma shift_excess_spec (chunks : list Blob) (k : Z) :
  0 <= k ->
  shift_excess chunks (JInt k)
  = Some (drop (length chunks - Z.to_nat k) chunks).
Proof.
  intros Hk. induction chunks as [|c rest IH]; cbn [shift_excess length].
  - cbn [jsint_gtb]. destruct (Z.ltb_spec k (Z.of_nat 0)); [lia|done].
  - cbn [jsint_gtb].
    destruct (Z.ltb_spec k (Z.of_nat (S (length rest)))) as [Hlt|Hge].
    + rewrite IH.
      replace (S (length rest) - Z.to_nat k)%nat
        with (S (length rest - Z.to_nat k)) by lia.
      done.
    + by replace (S (length rest) - Z.to_nat k)%nat with 0%nat by lia.
Qed.

(** The last [k] elements of a list depend on the last [k] elements of
    any of its prefixes only. *)
Lemma drop_last_app {A} (k : nat) (a b : list A) :
  drop (length (drop (length a - k) a ++ b) - k) (drop (length a - k) a ++ b)
  = drop (length (a ++ b) - k) (a ++ b).
Proof.
  rewrite !length_app, !drop_app, !length_drop, drop_drop.
  f_equal; f_equal; lia.
Qed.

Lemma deliver_spec (bufferLimitSeconds : Z) (k : nat)
    (events init : list Blob) :
  maxChunks bufferLimitSeconds = JInt (Z.of_nat k) ->
  (length init <= k)%nat ->
  let received :=
    init ++ filter (fun data => 0 < Blob_size data) events in
  deliver bufferLimitSeconds init events
  = Some (drop (length received - k) received).
Proof.
  intros Hmax. revert init.
  induction events as [|data rest IH]; intros init Hinit; cbn [deliver].
  - cbv zeta. rewrite filter_nil, app_nil_r.
    by replace (length init - k)%nat with 0%nat by lia.
  - unfold ondataavailable. rewrite Hmax.
    destruct (Z.ltb_spec 0 (Blob_size data)) as [Hpos|Hzero].
    + rewrite shift_excess_spec by lia. rewrite Nat2Z.id.
      cbn [mbind option_bind]. rewrite IH by (rewrite length_drop; lia).
      cbv zeta. rewrite filter_cons_True by done.
      rewrite drop_last_app. by rewrite <- app_assoc.
    + cbn [mbind option_bind]. rewrite IH by done.
      cbv zeta. by rewrite filter_cons_False by lia.
Qed.

(** X7: the encoded chunks form a sliding window.  For a buffer limit of
    [L >= 0] seconds the chunk limit of line 211 is [10 * L], the loop
    of lines 214-216 ends, and after any sequence of [dataavailable]
    events [audioChunksRef.current] holds the last [10 * L] chunks of
    non-zero size that were delivered, in order; empty chunks are
    ignored. *)
Theorem recorded_chunks_window (bufferLimitSeconds : Z)
    (events : list Blob) :
  0 <= bufferLimitSeconds ->
  bufferLimitSeconds * 1000 < 2 ^ 53 ->
  let received := filter (fun data => 0 < Blob_size data) events in
  let k := Z.to_nat (10 * bufferLimitSeconds) in
  maxChunks bufferLimitSeconds = JInt (Z.of_nat k)
  /\ deliver bufferLimitSeconds [] events
     = Some (drop (length received - k) received).
Proof.
  intros H0 Hb received k.
  assert (maxChunks bufferLimitSeconds = JInt (Z.of_nat k)) as Hmax
    by (rewrite maxChunks_exact by done; f_equal; lia).
  split; [done|].
  apply (deliver_spec bufferLimitSeconds k events [] Hmax).
  cbn [length]. lia.
Qed.

Lemma recorded_chunks_window_witness :
  let events := [[1; 2]; []; [3]] ++ replicate 10 [4; 5] ++ [[]; [6]] in
  let received := filter (fun data => 0 < Blob_size data) events in
  let k := Z.to_nat (10 * 1) in
  maxChunks 1 = JInt (Z.of_nat k)
  /\ deliver 1 [] events = Some (drop (length received - k) received).
Proof.
  apply (recorded_chunks_window 1
           ([[1; 2]; []; [3]] ++ replicate 10 [4; 5] ++ [[]; [6]])).
  - lia.
  - reflexivity.
Defined.

Lemma page_tsx_run (events init : list Blob) :
  (length init <= 300)%nat ->
  let received :=
    init ++ filter (fun data => 0 < Blob_size data) events in
  foldl PageTsx.ondataavailable init events
  = drop (length received - 300) received.
Proof.
  revert init.
  induction events as [|data rest IH]; intros init Hinit; cbn [foldl].
  - cbv zeta. rewrite filter_nil, app_nil_r.
    by replace (length init - 300)%nat with 0%nat by lia.
  - unfold PageTsx.ondataavailable at 2.
    destruct (Z.ltb_spec 0 (Blob_size data)) as [Hpos|Hzero].
    + assert ((if (300 <? length (init ++ [data]))%nat
               then PageTsx.slice_last 300 (init ++ [data])
               else init ++ [data])
              = drop (length (init ++ [data]) - 300) (init ++ [data]))
        as ->.
      { destruct (Nat.ltb_spec 300 (length (init ++ [data]))); [done|].
        by replace (length (init ++ [data]) - 300)%nat with 0%nat by lia. }
      rewrite IH by (rewrite length_drop; lia).
      cbv zeta. rewrite filter_cons_True by done.
      rewrite drop_last_app. by rewrite <- app_assoc.
    + rewrite IH by done.
      cbv zeta. by rewrite filter_cons_False by lia.
Qed.

(** X8: the first version of the page keeps the same window by other
    means.  With [slice(-300)] after each push, [audioChunksRef.current]
    holds the last 300 chunks of non-zero size after any sequence of
    events, which is what the loop of the later version computes for its
    limit of 30 seconds. *)
Theorem page_tsx_window (events : list Blob) :
  let received := filter (fun data => 0 < Blob_size data) events in
  foldl PageTsx.ondataavailable [] events
  = drop (length received - 300) received
  /\ deliver 30 [] events
     = Some (foldl PageTsx.ondataavailable [] events).
Proof.
  intros received.
  assert (foldl PageTsx.ondataavailable [] events
          = drop (length received - 300) received) as Hpage
    by (apply (page_tsx_run events []); cbn [length]; lia).
  split; [done|]. rewrite Hpage.
  apply (deliver_spec 30 300 events []); [|cbn [length]; lia].
  by rewrite maxChunks_exact.
Qed.

(** ** The version with time stamps *)

Lemma nondecreasing_snoc (times : list Z) (t : Z) :
  Timestamped.nondecreasing (times ++ [t]) = true ->
  Timestamped.nondecreasing times = true /\ Forall (fun x => x <= t) times.
Proof.
  induction times as [|a rest IH]; [done|].
  cbn [app Timestamped.nondecreasing]. destruct rest as [|b rest'].
  - cbn [app]. intros H. apply andb_true_iff in H as [H _].
    split; [done|]. repeat constructor. lia.
  - cbn [app] in *. intros H. apply andb_true_iff in H as [Hab H].
    destruct (IH H) as [Hm Hall]. split.
    + apply andb_true_iff. split; [done|exact Hm].
    + constructor; [|done]. inversion Hall; subst. lia.
Qed.

Lemma recent_recent (c1 c2 : Z) (chunks : list Timestamped.Chunk) :
  c1 <= c2 ->
  Timestamped.recent c2 (Timestamped.recent c1 chunks)
  = Timestamped.recent c2 chunks.
Proof.
  intros Hc. unfold Timestamped.recent.
  induction chunks as [|c rest IH]; [done|].
  destruct (decide (c2 <= Timestamped.timestamp c)) as [Hin|Hout].
  - rewrite (filter_cons_True _ c rest) by lia.
    rewrite !filter_cons_True by done. by rewrite IH.
  - rewrite (filter_cons_False (fun chunk => c2 <= _) c rest) by done.
    destruct (decide (c1 <= Timestamped.timestamp c)).
    + rewrite (filter_cons_True _ c rest) by done.
      by rewrite filter_cons_False by done.
    + by rewrite (filter_cons_False _ c rest) by done.
Qed.

Lemma arrived_snoc (events : list (Blob * Z)) (data : Blob) (now : Z) :
  Timestamped.arrived (events ++ [(data, now)])
  = Timestamped.arrived events
    ++ (if 0 <? Blob_size data then [Timestamped.mkChunk data now] else []).
Proof.
  unfold Timestamped.arrived. rewrite filter_app, map_app. f_equal.
  destruct (Z.ltb_spec 0 (Blob_size data)).
  - by rewrite filter_cons_True.
  - by rewrite filter_cons_False by (cbn; lia).
Qed.

Lemma arrived_times (events : list (Blob * Z)) (t : Z) :
  Forall (fun x => x <= t) (map snd events) ->
  Forall (fun c => Timestamped.timestamp c <= t)
         (Timestamped.arrived events).
Proof.
  unfold Timestamped.arrived.
  induction events as [|[data now] rest IH]; [constructor|].
  cbn [map snd]. intros Hall. inversion Hall; subst.
  destruct (decide (0 < Blob_size data)).
  - rewrite filter_cons_True by done. cbn [map]. constructor; auto.
  - rewrite filter_cons_False by done. auto.
Qed.

(** The chunks the handler holds after a recording, for a clock that
    does not run backwards: those of the chunks delivered that are at
    most the buffer limit older than the newest. *)
Lemma timestamped_run (bufferLimitSeconds : Z) (events : list (Blob * Z)) :
  0 <= bufferLimitSeconds ->
  Timestamped.nondecreasing (map snd events) = true ->
  let st :=
    Timestamped.deliver bufferLimitSeconds (Timestamped.mkBuffer [] zero)
                        events in
  Timestamped.audioChunksRef st
  = match last (Timestamped.arrived events) with
    | Some newest =>
        Timestamped.recent
          (Timestamped.timestamp newest - bufferLimitSeconds * 1000)
          (Timestamped.arrived events)
    | None => []
    end.
Proof.
  intros Hlim. induction events as [|[data now] events IH] using rev_ind;
    [done|].
  rewrite map_app. cbn [map snd]. intros Hmono.
  apply nondecreasing_snoc in Hmono as [Hmono Hbefore].
  specialize (IH Hmono). cbv zeta in IH. cbv zeta.
  unfold Timestamped.deliver in *. rewrite foldl_app. cbn [foldl fst snd].
  set (st := foldl _ _ events) in *.
  rewrite arrived_snoc. unfold Timestamped.ondataavailable.
  destruct (Z.ltb_spec 0 (Blob_size data)) as [Hpos|Hzero];
    [|by rewrite app_nil_r].
  cbn [Timestamped.audioChunksRef]. rewrite last_snoc.
  cbn [Timestamped.timestamp]. rewrite IH.
  set (cutoff := now - bufferLimitSeconds * 1000).
  unfold Timestamped.recent at 1 3. rewrite !filter_app.
  fold (Timestamped.recent cutoff (Timestamped.arrived events)).
  f_equal.
  destruct (last (Timestamped.arrived events)) as [newest|] eqn:Hlast.
  - fold (Timestamped.recent cutoff
            (Timestamped.recent
               (Timestamped.timestamp newest - bufferLimitSeconds * 1000)
               (Timestamped.arrived events))).
    apply recent_recent.
    pose proof (arrived_times events now Hbefore) as Hall.
    apply last_Some in Hlast as [pre Hpre]. rewrite Hpre in Hall.
    apply Forall_app in Hall as [_ Hall]. inversion Hall; subst.
    unfold cutoff. lia.
  - apply last_None in Hlast. by rewrite Hlast.
Qed.

Lemma arrived_newest (events : list (Blob * Z))
    (newest : Timestamped.Chunk) :
  Timestamped.nondecreasing (map snd events) = true ->
  last (Timestamped.arrived events) = Some newest ->
  Forall (fun c => Timestamped.timestamp c <= Timestamped.timestamp newest)
         (Timestamped.arrived events).
Proof.
  induction events as [|[data now] events IH] using rev_ind; [done|].
  rewrite map_app. cbn [map snd]. intros Hmono.
  apply nondecreasing_snoc in Hmono as [Hmono Hbefore].
  rewrite arrived_snoc.
  destruct (Z.ltb_spec 0 (Blob_size data)) as [Hpos|Hzero].
  - rewrite last_snoc. intros [= <-]. cbn [Timestamped.timestamp].
    apply Forall_app. split; [by apply arrived_times|].
    repeat constructor. cbn [Timestamped.timestamp]. lia.
  - rewrite app_nil_r. by apply IH.
Qed.

Lemma recent_none (cutoff : Z) (chunks : list Timestamped.Chunk) :
  Forall (fun c => Timestamped.timestamp c < cutoff) chunks ->
  Timestamped.recent cutoff chunks = [].
Proof.
  unfold Timestamped.recent.
  induction 1 as [|c rest Hc _ IH]; [done|].
  by rewrite filter_cons_False by lia.
Qed.

(** X9: the version with time stamps keeps a window in time.  For a
    buffer limit that is not negative and a clock that does not run
    backwards, after any sequence of events [audioChunksRef.current]
    holds exactly the chunks of non-zero size that arrived at most
    [bufferLimitSeconds] before the newest one, in order, and the newest
    one is among them. *)
Theorem timestamp_window (bufferLimitSeconds : Z)
    (events : list (Blob * Z)) (newest : Timestamped.Chunk) :
  0 <= bufferLimitSeconds ->
  Timestamped.nondecreasing (map snd events) = true ->
  last (Timestamped.arrived events) = Some newest ->
  let st :=
    Timestamped.deliver bufferLimitSeconds (Timestamped.mkBuffer [] zero)
                        events in
  Timestamped.audioChunksRef st
  = filter (fun c => Timestamped.timestamp newest - bufferLimitSeconds * 1000
                     <= Timestamped.timestamp c)
           (Timestamped.arrived events)
  /\ last (Timestamped.audioChunksRef st) = Some newest.
Proof.
  intros Hlim Hmono Hlast st.
  pose proof (timestamped_run bufferLimitSeconds events Hlim Hmono) as Hrun.
  cbv zeta in Hrun. fold st in Hrun. rewrite Hlast in Hrun.
  split; [exact Hrun|]. rewrite Hrun.
  apply last_Some in Hlast as [pre ->].
  unfold Timestamped.recent. rewrite filter_app.
  rewrite (filter_cons_True _ newest []) by lia.
  apply last_snoc.
Qed.

Lemma timestamp_window_witness :
  let events := [([1; 2], 1000); ([], 2500); ([3], 4000); ([4; 5], 7500)] in
  let newest := Timestamped.mkChunk [4; 5] 7500 in
  let st :=
    Timestamped.deliver 5 (Timestamped.mkBuffer [] zero) events in
  Timestamped.audioChunksRef st
  = filter (fun c => Timestamped.timestamp newest - 5 * 1000
                     <= Timestamped.timestamp c)
           (Timestamped.arrived events)
  /\ last (Timestamped.audioChunksRef st) = Some newest.
Proof.
  apply (timestamp_window 5
           [([1; 2], 1000); ([], 2500); ([3], 4000); ([4; 5], 7500)]
           (Timestamped.mkChunk [4; 5] 7500)).
  - lia.
  - reflexivity.
  - reflexivity.
Defined.

(** Two cut-off times applied one after the other. *)
Lemma recent_both (c1 c2 : Z) (chunks : list Timestamped.Chunk) :
  Timestamped.recent c2 (Timestamped.recent c1 chunks)
  = filter (fun c => c1 <= Timestamped.timestamp c
                     /\ c2 <= Timestamped.timestamp c) chunks.
Proof.
  unfold Timestamped.recent.
  induction chunks as [|c rest IH]; [done|].
  destruct (decide (c1 <= Timestamped.timestamp c)) as [H1|H1].
  - rewrite (filter_cons_True (fun chunk => c1 <= _) c rest) by done.
    destruct (decide (c2 <= Timestamped.timestamp c)) as [H2|H2].
    + rewrite !filter_cons_True by done. by rewrite IH.
    + rewrite !filter_cons_False by (done || tauto). by rewrite IH.
  - rewrite (filter_cons_False (fun chunk => c1 <= _) c rest) by done.
    by rewrite filter_cons_False by tauto.
Qed.

(** X10: what the version with time stamps uploads.  The handler keeps
    the buffer limit that was selected when the recording started
    ([recordingLimit]); [transcribeAudio] reads the limit selected when
    it is called ([bufferLimitSeconds]), which the user may have changed
    once the recording stopped.  After a recording, with a clock that
    does not run backwards, [transcribeAudio] uploads the concatenation
    of exactly the chunks that arrived at most [recordingLimit] before
    the newest chunk and at most [bufferLimitSeconds] before the call;
    when the newest chunk is older than [bufferLimitSeconds] at the
    call, it uploads nothing and alerts that there is no recent audio,
    although audio was recorded.  When the limit was not raised after
    the recording, the upload is all that arrived during the last
    [bufferLimitSeconds] before the call. *)
Theorem transcribe_last_seconds (recordingLimit bufferLimitSeconds : Z)
    (events : list (Blob * Z)) (newest : Timestamped.Chunk)
    (atEntry : list Timestamped.Chunk) (currentTime : Z) :
  0 <= recordingLimit ->
  Timestamped.nondecreasing (map snd events ++ [currentTime]) = true ->
  last (Timestamped.arrived events) = Some newest ->
  atEntry <> [] ->
  let st :=
    Timestamped.deliver recordingLimit (Timestamped.mkBuffer [] zero)
                        events in
  let keptFrom := Timestamped.timestamp newest - recordingLimit * 1000 in
  let cutoffTime := currentTime - bufferLimitSeconds * 1000 in
  let selected :=
    filter (fun c => keptFrom <= Timestamped.timestamp c
                     /\ cutoffTime <= Timestamped.timestamp c)
           (Timestamped.arrived events) in
  Timestamped.transcribeAudio bufferLimitSeconds atEntry
    (Timestamped.audioChunksRef st) currentTime
  = (if decide (cutoffTime <= Timestamped.timestamp newest)
     then Timestamped.Upload (concat (map Timestamped.blob selected))
     else Timestamped.Alert "No recent audio data available")
  /\ (bufferLimitSeconds <= recordingLimit ->
      selected
      = filter (fun c => cutoffTime <= Timestamped.timestamp c)
               (Timestamped.arrived events)).
Proof.
  intros Hlim Hmono Hlast Hentry st keptFrom cutoffTime selected.
  apply nondecreasing_snoc in Hmono as [Hmono Hbefore].
  pose proof (timestamped_run recordingLimit events Hlim Hmono) as Hrun.
  cbv zeta in Hrun. fold st in Hrun. rewrite Hlast in Hrun.
  fold keptFrom in Hrun.
  pose proof (arrived_times events currentTime Hbefore) as Hnow.
  pose proof (arrived_newest events newest Hmono Hlast) as Hold.
  assert (Timestamped.timestamp newest <= currentTime) as Hle.
  { apply last_Some in Hlast as [pre Hpre]. rewrite Hpre in Hnow.
    apply Forall_app in Hnow as [_ Hnow]. by inversion Hnow. }
  split.
  - unfold Timestamped.transcribeAudio.
    destruct (decide (length atEntry = 0%nat)) as [Hz|_];
      [by destruct atEntry|].
    cbv zeta. fold cutoffTime. rewrite Hrun, recent_both. fold selected.
    destruct (decide (cutoffTime <= Timestamped.timestamp newest))
      as [Hin|Hout].
    + assert (newest ∈ selected) as Hsel.
      { unfold selected. apply list_elem_of_filter. split.
        - unfold keptFrom. lia.
        - apply last_Some in Hlast as [pre ->].
          apply elem_of_app. right. by left. }
      destruct selected as [|c rest]; [by inversion Hsel|].
      by rewrite decide_False by done.
    + assert (selected = []) as ->; [|done].
      unfold selected. clear -Hold Hout.
      induction Hold as [|c rest Hc _ IH]; [done|].
      by rewrite filter_cons_False by lia.
  - intros Hlower. unfold selected. apply list_filter_iff.
    intros c. unfold keptFrom, cutoffTime. split; [tauto|]. lia.
Qed.

Lemma transcribe_last_seconds_witness :
  let events :=
    [([1], 1000); ([2], 2000); ([], 2500); ([3], 4000); ([4; 5], 7500)] in
  let newest := Timestamped.mkChunk [4; 5] 7500 in
  let st :=
    Timestamped.deliver 5 (Timestamped.mkBuffer [] zero) events in
  let keptFrom := Timestamped.timestamp newest - 5 * 1000 in
  let cutoffTime := 9500 - 30 * 1000 in
  let selected :=
    filter (fun c => keptFrom <= Timestamped.timestamp c
                     /\ cutoffTime <= Timestamped.timestamp c)
           (Timestamped.arrived events) in
  Timestamped.transcribeAudio 30 (Timestamped.audioChunksRef st)
    (Timestamped.audioChunksRef st) 9500
  = (if decide (cutoffTime <= Timestamped.timestamp newest)
     then Timestamped.Upload (concat (map Timestamped.blob selected))
     else Timestamped.Alert "No recent audio data available")
  /\ (30 <= 5 ->
      selected
      = filter (fun c => cutoffTime <= Timestamped.timestamp c)
               (Timestamped.arrived events)).
Proof.
  apply (transcribe_last_seconds 5 30
           [([1], 1000); ([2], 2000); ([], 2500); ([3], 4000);
            ([4; 5], 7500)]
           (Timestamped.mkChunk [4; 5] 7500)).
  - lia.
  - reflexivity.
  - reflexivity.
  - vm_compute. discriminate.
Defined.

(** ** The level meter *)

Lemma sum_bytes (dataArray : list Z) (acc : Z) :
  Forall (fun v => 0 <= v <= 255) dataArray ->
  acc <= foldl (fun sum value => sum + value) acc dataArray
      <= acc + 255 * Z.of_nat (length dataArray).
Proof.
  intros Hall. revert acc.
  induction Hall as [|v rest Hv _ IH]; intros acc; cbn [foldl length].
  - lia.
  - specialize (IH (acc + v)). lia.
Qed.

(** Division by 128 moves the exponent and leaves the mantissa. *)
Lemma div_128 (M : positive) (E : Z) :
  Zpos (digits2_pos M) = 53 -> -1000 <= E <= 900 ->
  div (S754_finite false M E) (of_Z 128) = S754_finite false M (E - 7).
Proof.
  intros HM HE.
  change (of_Z 128) with (S754_finite false 4503599627370496 (-45)).
  rewrite div_canonical by (done || lia).
  change (2 ^ 53) with (2 * 4503599627370496).
  rewrite Z.mul_assoc, Z.div_mul, Z.mod_mul by lia.
  change (new_location 4503599627370496 0) with loc_Exact.
  change (Zpos M * 2) with (Zpos (M * 2)).
  rewrite (binary_round_aux_exact false (M * 2) M _ 1);
    [f_equal; lia|done|lia|lia|lia].
Qed.

(** X11: the level of the meter is a number between 0 and 1 whenever the
    analyser returns at least one byte; for an empty array it is NaN. *)
Theorem normalizedLevel_range (dataArray : list Z) :
  Forall (fun v => 0 <= v <= 255) dataArray ->
  dataArray <> [] ->
  255 * Z.of_nat (length dataArray) < 2 ^ 53 ->
  SFleb zero (normalizedLevel dataArray) = true
  /\ SFleb (normalizedLevel dataArray) one = true
  /\ normalizedLevel [] = S754_nan.
Proof.
  intros Hbytes Hne Hlen.
  assert (exists x : number,
            normalizedLevel dataArray = Math_min x one
            /\ SFleb zero x = true) as (x & -> & Hx).
  { unfold normalizedLevel.
    pose proof (sum_bytes dataArray 0 Hbytes) as Hsum.
    set (total := foldl _ 0 dataArray) in *.
    assert (0 < Z.of_nat (length dataArray)) as Hn
      by (destruct dataArray; [done|cbn [length]; lia]).
    destruct (Z.of_nat (length dataArray)) as [|n|n]; [lia| |lia].
    destruct total as [|t|t]; [| |lia].
    - destruct (of_Z_pos n) as (mn & -> & _); [lia|].
      by exists zero.
    - destruct (div_of_Z_lower 1 t n ltac:(done) ltac:(lia) ltac:(lia))
        as (mj & M & ej & E & _ & -> & HM & HE & _).
      rewrite div_128 by (done || lia). by eexists. }
  split; [|split; [|done]].
  - unfold Math_min.
    destruct (SFcompare x one) as [[]|] eqn:Hcmp.
    + by destruct x as [[]|s| |s m e].
    + exact Hx.
    + reflexivity.
    + by destruct x as [s|s| |s m e].
  - unfold Math_min, SFleb.
    destruct (SFcompare x one) as [[]|] eqn:Hcmp.
    + by destruct x as [[]|s| |s m e].
    + by rewrite Hcmp.
    + reflexivity.
    + by destruct x as [s|s| |s m e].
Qed.

Lemma normalizedLevel_range_witness :
  SFleb zero (normalizedLevel [0; 255; 128]) = true
  /\ SFleb (normalizedLevel [0; 255; 128]) one = true
  /\ normalizedLevel [] = S754_nan.
Proof.
  apply (normalizedLevel_range [0; 255; 128]).
  - repeat constructor; lia.
  - done.
  - reflexivity.
Defined.

(** ** Recording, then a snapshot *)

(** X12: eviction is invisible to a snapshot that fits the buffer.
    After any recording, if the buffer holds at least [j] whole seconds,
    the snapshot of the last [j] seconds consists of the last
    [j * sampleRate] samples of all the chunks that were ever appended,
    evicted ones included. *)
Theorem recording_then_snapshot (sr lim j : Z) (cs : list (list number)) :
  0 < sr < 2 ^ 53 ->
  0 <= j ->
  total_samples cs < 2 ^ 53 ->
  let r := foldl onaudioprocess (mkRecorder [] sr lim) cs in
  j * sr <= retained_count r ->
  snapshotLast r (of_Z j)
  = Ok (drop (Z.to_nat (total_samples cs - j * sr)) (concat cs)).
Proof.
  intros Hsr Hj Htot r Hfit.
  destruct (retention_inv_run (mkRecorder [] sr lim) [] cs
              (retention_inv_start sr lim))
    as (evicted & Heq & _).
  cbn [sampleRate bufferLimitSeconds app] in Heq. fold r in Heq.
  destruct (run_keeps_configuration (mkRecorder [] sr lim) cs) as [Hrate _].
  fold r in Hrate. cbn [sampleRate] in Hrate.
  pose proof (total_samples_nonneg evicted) as Hev.
  assert (total_samples cs = total_samples evicted + retained_count r)
    as Hsplit by (rewrite Heq at 1; apply total_samples_app).
  rewrite snapshotLast_exact by (rewrite ?Hrate; lia).
  rewrite Hrate. f_equal.
  rewrite Heq at 2. rewrite concat_app.
  pose proof (total_samples_concat evicted) as Hlen.
  rewrite drop_app_ge by lia. f_equal. lia.
Qed.

Lemma recording_then_snapshot_witness :
  let cs := [[half; quarter]; [one; half]; [quarter; one]] in
  let r := foldl onaudioprocess (mkRecorder [] 2 2) cs in
  snapshotLast r (of_Z 1)
  = Ok (drop (Z.to_nat (total_samples cs - 1 * 2)) (concat cs)).
Proof.
  apply (recording_then_snapshot 2 2 1
           [[half; quarter]; [one; half]; [quarter; one]]).
  - lia.
  - lia.
  - vm_compute. reflexivity.
  - vm_compute. discriminate.
Defined.

(** ** A snapshot that covers the buffer *)

(** Shifting a mantissa right truncates it. *)
Lemma shr_1_m (mrs : shr_record) :
  0 <= shr_m mrs -> shr_m (shr_1 mrs) = shr_m mrs / 2.
Proof.
  destruct mrs as [m r s]. cbn [shr_m]. intros Hm.
  destruct m as [|[p|p|]|p]; cbn [shr_1 shr_m]; try done; try lia.
  - rewrite Pos2Z.inj_xI.
    replace (2 * Zpos p + 1) with (1 + Zpos p * 2) by lia.
    by rewrite Z.div_add by lia.
  - by rewrite Pos2Z.inj_xO, Z.mul_comm, Z.div_mul by lia.
Qed.

Lemma shr_iter_m (n : positive) (mrs : shr_record) :
  0 <= shr_m mrs ->
  shr_m (SpecFloat.iter_pos shr_1 n mrs) = shr_m mrs / 2 ^ Zpos n.
Proof.
  revert mrs. induction n as [n IH|n IH|]; intros mrs Hm;
    cbn [SpecFloat.iter_pos].
  - assert (0 < 2 ^ Zpos n) by (apply Z.pow_pos_nonneg; lia).
    assert (0 <= shr_m mrs / 2) as H1 by (apply Z.div_pos; lia).
    assert (0 <= shr_m mrs / 2 / 2 ^ Zpos n) as H2
      by (apply Z.div_pos; lia).
    rewrite IH by (rewrite IH by (by rewrite shr_1_m); by rewrite shr_1_m).
    rewrite IH by (by rewrite shr_1_m). rewrite shr_1_m by done.
    rewrite !Z.div_div by lia.
    f_equal. replace (Zpos n~1) with (1 + (Zpos n + Zpos n)) by lia.
    by rewrite !Z.pow_add_r by lia.
  - assert (0 <= shr_m mrs / 2 ^ Zpos n)
      by (apply Z.div_pos; [done|apply Z.pow_pos_nonneg; lia]).
    rewrite !IH; try done; try (by rewrite IH).
    assert (0 < 2 ^ Zpos n) by (apply Z.pow_pos_nonneg; lia).
    rewrite !Z.div_div by lia.
    f_equal. replace (Zpos n~0) with (Zpos n + Zpos n) by lia.
    by rewrite Z.pow_add_r by lia.
  - by apply shr_1_m.
Qed.

(** The first shift of [binary_round_aux] on a mantissa of at least 53
    bits keeps its 53 leading bits. *)
Lemma shr_fexp_trunc (p : positive) (e : Z) (l : location) :
  53 <= Zpos (digits2_pos p) ->
  -1074 <= e ->
  exists mrs,
    shr_fexp prec emax (Zpos p) e l
    = (mrs, e + (Zpos (digits2_pos p) - 53))
    /\ shr_m mrs = Zpos p / 2 ^ (Zpos (digits2_pos p) - 53)
    /\ 2 ^ 52 <= Zpos p / 2 ^ (Zpos (digits2_pos p) - 53) < 2 ^ 53.
Proof.
  intros Hd He. pose proof (digits2_bounds p) as Hb.
  set (d := Zpos (digits2_pos p)) in *.
  unfold shr_fexp. cbn [Zdigits2]. fold d.
  unfold fexp, emin, prec, emax.
  replace (Z.max (d + e - 53) (3 - 1024 - 53) - e) with (d - 53) by lia.
  assert (2 ^ 52 <= Zpos p / 2 ^ (d - 53) < 2 ^ 53) as Hrange.
  { assert (0 < 2 ^ (d - 53)) by (apply Z.pow_pos_nonneg; lia).
    assert (2 ^ (d - 1) = 2 ^ 52 * 2 ^ (d - 53)) as Hlo
      by (rewrite <- Z.pow_add_r by lia; f_equal; lia).
    assert (2 ^ d = 2 ^ 53 * 2 ^ (d - 53)) as Hhi
      by (rewrite <- Z.pow_add_r by lia; f_equal; lia).
    split; [apply Z.div_le_lower_bound; lia
           |apply Z.div_lt_upper_bound; lia]. }
  destruct (d - 53) as [|n|n] eqn:Hn; [| |lia].
  - cbn [shr]. eexists. rewrite Z.add_0_r. split; [done|].
    rewrite shr_record_of_loc_m. change (2 ^ 0) with 1 in *.
    by rewrite Z.div_1_r in *.
  - cbn [shr]. eexists. split; [done|].
    rewrite shr_iter_m by (rewrite shr_record_of_loc_m; lia).
    by rewrite shr_record_of_loc_m.
Qed.

(** Rounding a mantissa of at least 53 bits: the result has a full
    mantissa [M] and is not below the truncation of the input to 53
    bits; [g] is 1 when rounding carried into the next exponent. *)
Lemma binary_round_aux_trunc (s : bool) (p : positive) (e : Z)
    (l : location) :
  53 <= Zpos (digits2_pos p) ->
  -1074 <= e ->
  e + (Zpos (digits2_pos p) - 53) <= 969 ->
  exists (M : positive) (g : Z),
    binary_round_aux prec emax s (Zpos p) e l
    = S754_finite s M (e + (Zpos (digits2_pos p) - 53) + g)
    /\ Zpos (digits2_pos M) = 53
    /\ 0 <= g <= 1
    /\ Zpos p / 2 ^ (Zpos (digits2_pos p) - 53) <= Zpos M * 2 ^ g.
Proof.
  intros Hd He Hmax. unfold binary_round_aux.
  destruct (shr_fexp_trunc p e l Hd He) as (mrs & -> & Hm & HT).
  set (n := Zpos (digits2_pos p) - 53) in *.
  set (T := Zpos p / 2 ^ n) in *.
  destruct (round_nearest_even_cases (shr_m mrs) (loc_of_shr_record mrs))
    as [Hr|Hr]; rewrite Hr, Hm.
  - destruct T as [|t|t] eqn:HT'; [lia| |lia].
    destruct (shr_fexp_carry s t (e + n) ltac:(lia) ltac:(lia))
      as (M & E & -> & HM & HE).
    pose proof (digits2_bounds M) as HbM. rewrite HM in HbM.
    change (53 - 1) with 52 in HbM.
    destruct HE as [[-> ->] | ->].
    + exists t, 0. rewrite Z.add_0_r. repeat split; try done; lia.
    + exists M, 1. repeat split; try done; lia.
  - destruct (T + 1) as [|t|t] eqn:HT'; [lia| |lia].
    destruct (shr_fexp_carry s t (e + n) ltac:(lia) ltac:(lia))
      as (M & E & -> & HM & HE).
    pose proof (digits2_bounds M) as HbM. rewrite HM in HbM.
    change (53 - 1) with 52 in HbM.
    destruct HE as [[-> ->] | ->].
    + exists t, 0. rewrite Z.add_0_r. repeat split; try done; lia.
    + exists M, 1. repeat split; try done; lia.
Qed.

(** If [K * 2^a <= X * c] and rounding replaced [X] by [M] at an
    exponent larger by [g], then [K * 2^(a - g) <= M * c]. *)
Lemma bound_through_rounding (K X M c a g : Z) :
  0 <= g <= a -> 0 <= c ->
  K * 2 ^ a <= X * c ->
  X <= M * 2 ^ g ->
  K * 2 ^ (a - g) <= M * c.
Proof.
  intros Hg Hc HK HX.
  assert (0 < 2 ^ g) by (apply Z.pow_pos_nonneg; lia).
  assert (2 ^ a = 2 ^ (a - g) * 2 ^ g) as Ha
    by (rewrite <- Z.pow_add_r by lia; f_equal; lia).
  apply (Z.mul_le_mono_pos_r _ _ (2 ^ g)); [done|].
  replace (K * 2 ^ (a - g) * 2 ^ g) with (K * 2 ^ a) by (rewrite Ha; lia).
  apply Z.le_trans with (X * c); [done|].
  replace (M * c * 2 ^ g) with (M * 2 ^ g * c) by lia.
  by apply Z.mul_le_mono_nonneg_r.
Qed.

(** The quotient [t / b], truncated to 53 bits, times [b] is less than
    one below [t]: [m1 = t * 2^C] and [m2 = b * 2^B] are the mantissas
    and [T] is the truncated quotient at the exponent [- A0]. *)
Lemma truncated_quotient_bound (t b m1 m2 T B C sh : Z) :
  0 < t -> 0 < b -> 1 <= C -> 0 <= B -> 0 <= sh <= 1 ->
  m1 = t * 2 ^ C -> m2 = b * 2 ^ B -> m2 < 2 ^ 53 ->
  T = m1 * 2 ^ 53 / (m2 * 2 ^ sh) ->
  0 <= C - B + 53 - sh ->
  (t - 1) * 2 ^ (C - B + 53 - sh) <= T * b.
Proof.
  intros Ht Hb HC HB Hsh Hm1 Hm2 Hlt HT HA.
  assert (0 < 2 ^ B) by (apply Z.pow_pos_nonneg; lia).
  assert (0 < 2 ^ sh) by (apply Z.pow_pos_nonneg; lia).
  assert (0 < 2 ^ C) by (apply Z.pow_pos_nonneg; lia).
  assert (0 < m2) by nia.
  pose proof (Z.mul_succ_div_gt (m1 * 2 ^ 53) (m2 * 2 ^ sh) ltac:(nia))
    as Hdiv.
  rewrite <- HT in Hdiv.
  assert (m2 * 2 ^ sh <= 2 ^ (C + 53)) as Hsmall.
  { assert (2 ^ sh <= 2 ^ 1) by (apply Z.pow_le_mono_r; lia).
    assert (2 ^ 54 <= 2 ^ (C + 53)) by (apply Z.pow_le_mono_r; lia).
    change (2 ^ 1) with 2 in *. change (2 ^ 54) with (2 ^ 53 * 2) in *.
    nia. }
  apply (Z.mul_le_mono_pos_r _ _ (2 ^ B * 2 ^ sh)); [nia|].
  replace (T * b * (2 ^ B * 2 ^ sh)) with (T * (m2 * 2 ^ sh))
    by (rewrite Hm2; lia).
  replace ((t - 1) * 2 ^ (C - B + 53 - sh) * (2 ^ B * 2 ^ sh))
    with ((t - 1) * 2 ^ (C + 53)).
  2:{ rewrite <- Z.mul_assoc. f_equal.
      rewrite <- !Z.pow_add_r by lia. f_equal. lia. }
  assert (m1 * 2 ^ 53 = t * 2 ^ (C + 53))
    by (rewrite Hm1, Z.pow_add_r by lia; lia).
  lia.
Qed.

(** Dividing a sample count by the sample rate and multiplying the
    quotient by the rate again gives, after [Math.floor], the count or
    more, or the count less one. *)
Lemma floor_of_quotient_times_divisor (t b : positive) :
  Zpos t < 2 ^ 50 -> Zpos b < 2 ^ 53 ->
  exists k,
    Math_floor (mul (div (of_Z (Zpos t)) (of_Z (Zpos b))) (of_Z (Zpos b)))
    = JInt k
    /\ Zpos t - 1 <= k.
Proof.
  intros Ht Hb.
  destruct (of_Z_pos t ltac:(lia)) as (m1 & -> & Hm1 & Hd1).
  destruct (of_Z_pos b Hb) as (m2 & -> & Hm2 & Hd2).
  pose proof (digits2_le_53 t ltac:(lia)) as Hlt.
  pose proof (digits2_le_53 b Hb) as Hlb.
  assert (Zpos (digits2_pos t) <= 50) as Hdt.
  { pose proof (digits2_bounds t) as Hbt.
    destruct (Z_le_gt_dec (Zpos (digits2_pos t)) 50) as [|Hgt]; [done|].
    assert (2 ^ 50 <= 2 ^ (Zpos (digits2_pos t) - 1))
      by (apply Z.pow_le_mono_r; lia). lia. }
  set (dt := Zpos (digits2_pos t)) in *.
  set (db := Zpos (digits2_pos b)) in *.
  pose proof (digits2_bounds m1) as B1. rewrite Hd1 in B1.
  pose proof (digits2_bounds m2) as B2. rewrite Hd2 in B2.
  change (53 - 1) with 52 in *.
  change (2 ^ 52) with 4503599627370496 in B1, B2.
  change (2 ^ 53) with 9007199254740992 in B1, B2.
  (* the quotient *)
  rewrite div_canonical by (done || lia).
  set (Q0 := Zpos m1 * 2 ^ 53 / Zpos m2).
  assert (2 ^ 52 <= Q0 < 2 ^ 54) as HQ0.
  { unfold Q0. change (2 ^ 52) with 4503599627370496.
    change (2 ^ 53) with 9007199254740992.
    change (2 ^ 54) with 18014398509481984.
    split; [apply Z.div_le_lower_bound; lia
           |apply Z.div_lt_upper_bound; lia]. }
  destruct Q0 as [|p0|p0] eqn:Hp0; [lia| |lia].
  assert (53 <= Zpos (digits2_pos p0) <= 54) as Hd0.
  { pose proof (digits2_bounds p0) as Hb0.
    set (d0 := Zpos (digits2_pos p0)) in *. split.
    - destruct (Z_le_gt_dec 53 d0) as [|Hgt]; [done|].
      assert (2 ^ d0 <= 2 ^ 52) by (apply Z.pow_le_mono_r; lia). lia.
    - destruct (Z_le_gt_dec d0 54) as [|Hgt]; [done|].
      assert (2 ^ 54 <= 2 ^ (d0 - 1)) by (apply Z.pow_le_mono_r; lia).
      lia. }
  destruct (binary_round_aux_trunc false p0 (dt - 53 - (db - 53) - 53)
              (new_location (Zpos m2) (Zpos m1 * 2 ^ 53 mod Zpos m2))
              ltac:(lia) ltac:(lia) ltac:(lia))
    as (M & g & -> & HM & Hg & HT).
  set (sh := Zpos (digits2_pos p0) - 53) in *.
  set (T := Zpos p0 / 2 ^ sh) in *.
  set (E := dt - 53 - (db - 53) - 53 + sh + g).
  (* the product *)
  unfold mul, SFmul. cbn [xorb].
  pose proof (digits2_bounds M) as BM. rewrite HM in BM.
  change (53 - 1) with 52 in BM.
  change (2 ^ 52) with 4503599627370496 in BM.
  change (2 ^ 53) with 9007199254740992 in BM.
  assert (105 <= Zpos (digits2_pos (M * m2)) <= 106) as HdP.
  { pose proof (digits2_mul M m2) as HdM. rewrite HM, Hd2 in HdM. lia. }
  destruct (binary_round_aux_trunc false (M * m2) (E + (db - 53)) loc_Exact
              ltac:(lia) ltac:(unfold E; lia) ltac:(unfold E; lia))
    as (M' & g' & -> & HM' & Hg' & HT').
  set (n := Zpos (digits2_pos (M * m2)) - 53) in *.
  set (E' := E + (db - 53) + n + g').
  assert (E' <= 0) as HE' by (unfold E', E; lia).
  (* the bound *)
  assert ((Zpos t - 1) * 2 ^ (- E') <= Zpos M') as Hbound.
  { assert (0 < 2 ^ sh) by (apply Z.pow_pos_nonneg; lia).
    assert (T = Zpos m1 * 2 ^ 53 / (Zpos m2 * 2 ^ sh)) as HTq
      by (unfold T; rewrite <- Hp0; unfold Q0;
          rewrite Z.div_div by lia; done).
    pose proof (truncated_quotient_bound (Zpos t) (Zpos b) (Zpos m1)
                  (Zpos m2) T (53 - db) (53 - dt) sh
                  ltac:(lia) ltac:(lia) ltac:(lia) ltac:(lia) ltac:(lia)
                  Hm1 Hm2 ltac:(lia) HTq ltac:(lia)) as K1.
    pose proof (bound_through_rounding (Zpos t - 1) T (Zpos M) (Zpos b)
                  (53 - dt - (53 - db) + 53 - sh) g
                  ltac:(lia) ltac:(lia) K1 HT) as K2.
    assert (0 < 2 ^ (53 - db)) by (apply Z.pow_pos_nonneg; lia).
    assert ((Zpos t - 1) * 2 ^ (- E' + g' + n) <= Zpos (M * m2)) as K3.
    { rewrite Pos2Z.inj_mul, Hm2.
      replace (- E' + g' + n)
        with ((53 - dt - (53 - db) + 53 - sh - g) + (53 - db))
        by (unfold E', E; lia).
      rewrite Z.pow_add_r by lia.
      replace (Zpos M * (Zpos b * 2 ^ (53 - db)))
        with (Zpos M * Zpos b * 2 ^ (53 - db)) by lia.
      rewrite Z.mul_assoc.
      by apply Z.mul_le_mono_nonneg_r; [lia|]. }
    assert (0 < 2 ^ n) by (apply Z.pow_pos_nonneg; lia).
    assert ((Zpos t - 1) * 2 ^ (- E' + g') <= Zpos (M * m2) / 2 ^ n) as K4.
    { apply Z.div_le_lower_bound; [done|].
      rewrite Z.pow_add_r in K3 by (unfold E', E; lia). lia. }
    pose proof (bound_through_rounding (Zpos t - 1) (Zpos (M * m2) / 2 ^ n)
                  (Zpos M') 1 (- E' + g') g'
                  ltac:(lia) ltac:(lia) ltac:(lia) HT') as K5.
    replace (- E' + g' - g') with (- E') in K5 by lia. lia. }
  (* the floor *)
  assert (0 < 2 ^ (- E')) by (apply Z.pow_pos_nonneg; lia).
  unfold Math_floor, trunc_mag. fold n. fold E'.
  destruct E' as [|k|k] eqn:HEk; [| lia |].
  - rewrite Z.shiftl_0_r. eexists. split; [done|].
    change (2 ^ (- 0)) with 1 in Hbound. lia.
  - eexists. split; [done|]. cbn [fst].
    rewrite Z.shiftr_div_pow2 by lia.
    apply Z.div_le_lower_bound; [lia|].
    change (- Zneg k) with (Zpos k) in Hbound. lia.
Qed.

(** [Math.min(d, q)] is [q] when the positive number [q] is at most
    [d]. *)
Lemma Math_min_covering (M : positive) (E : Z) (d : number) :
  SFleb (S754_finite false M E) d = true ->
  Math_min d (S754_finite false M E) = S754_finite false M E.
Proof.
  unfold SFleb, Math_min.
  destruct d as [s|s| |s m e]; try done.
  - by destruct s.
  - destruct s; [done|]. unfold SFcompare.
    rewrite !Pos.compare_cont_spec. cbn [Pos.switch_Eq].
    rewrite (Z.compare_antisym E e), (Pos.compare_antisym M m).
    destruct (E ?= e); cbn [CompOpp]; try done.
    by destruct (M ?= m)%positive.
Qed.

(** X13: a snapshot whose duration covers everything retained returns
    all retained samples, or all but the oldest one, and nothing else:
    the rounding of lines 288-293 costs at most one sample. *)
Theorem covering_snapshot_at_most_one_lost (r : Recorder) (d : number) :
  0 < sampleRate r < 2 ^ 53 ->
  retained_count r < 2 ^ 50 ->
  SFleb (div (of_Z (retained_count r)) (of_Z (sampleRate r))) d = true ->
  exists out,
    snapshotLast r d = Ok out
    /\ (out = concat (audioBufferRef r)
        \/ out = drop 1 (concat (audioBufferRef r))).
Proof.
  intros Hsr Ht Hd. unfold retained_count in *. unfold snapshotLast.
  pose proof (total_samples_nonneg (audioBufferRef r)) as Hnn.
  destruct (sampleRate r) as [|b|b]; [lia| |lia].
  destruct (total_samples (audioBufferRef r)) as [|t|t] eqn:Htot;
    [| |lia].
  - (* nothing retained *)
    destruct (of_Z_pos b ltac:(lia)) as (m2 & Hb2 & _).
    rewrite Hb2 in *.
    assert (Math_floor (mul (Math_min d (div (of_Z 0) (S754_finite false m2
                       (Zpos (digits2_pos b) - 53))))
                       (S754_finite false m2 (Zpos (digits2_pos b) - 53)))
            = JInt 0) as ->.
    { change (div (of_Z 0) _) with (S754_zero false) in *.
      destruct d as [s|s| |s m e]; try done; by destruct s. }
    rewrite trimAudioBuffer_JInt, Htot. cbn [Z.ltb Z.compare].
    eexists. split; [done|by left].
  - destruct (div_of_Z_lower 1 t b ltac:(done) ltac:(lia) ltac:(lia))
      as (mj & M & ej & E & _ & Hq & _).
    rewrite Hq in Hd. rewrite Hq, (Math_min_covering M E d Hd), <- Hq.
    destruct (floor_of_quotient_times_divisor t b Ht ltac:(lia))
      as (k & -> & Hk).
    rewrite trimAudioBuffer_JInt, Htot.
    destruct (Z.ltb_spec k 0) as [Hneg|_]; [lia|].
    eexists. split; [done|].
    destruct (Z.eq_dec k (Zpos t - 1)) as [->|Hne].
    + right. by replace (Z.to_nat (Zpos t - (Zpos t - 1))) with 1%nat by lia.
    + left. by replace (Z.to_nat (Zpos t - k)) with 0%nat by lia.
Qed.

Lemma covering_snapshot_at_most_one_lost_witness :
  let r := mkRecorder [[half; quarter]; [one; half; quarter]] 3 30 in
  exists out,
    snapshotLast r (of_Z 10) = Ok out
    /\ (out = concat (audioBufferRef r)
        \/ out = drop 1 (concat (audioBufferRef r))).
Proof.
  apply (covering_snapshot_at_most_one_lost
           (mkRecorder [[half; quarter]; [one; half; quarter]] 3 30)
           (of_Z 10)).
  - cbn [sampleRate]. lia.
  - vm_compute. reflexivity.
  - vm_compute. reflexivity.
Defined.

(** ** The buffered duration of the version with time stamps *)

(** Numbers that are zero or positive and finite. *)
Lemma of_Z_nonneg_cases (z : Z) :
  0 <= z < 2 ^ 53 ->
  of_Z z = S754_zero false \/ exists m e, of_Z z = S754_finite false m e.
Proof.
  intros Hz. destruct z as [|p|p]; [by left| |lia].
  destruct (of_Z_pos p) as (m & -> & _); [lia|]. right. by eexists _, _.
Qed.

Lemma SFleb_refl_finite (m : positive) (e : Z) :
  SFleb (S754_finite false m e) (S754_finite false m e) = true.
Proof.
  unfold SFleb, SFcompare. rewrite Z.compare_refl, Pos.compare_cont_spec.
  by rewrite Pos.compare_refl.
Qed.

(** [Math.min] of two numbers that are not negative lies between 0 and
    the second. *)
Lemma Math_min_range (a b : number) :
  (a = S754_zero false \/ exists m e, a = S754_finite false m e) ->
  (b = S754_zero false \/ exists m e, b = S754_finite false m e) ->
  SFleb zero (Math_min a b) = true
  /\ SFleb (Math_min a b) b = true.
Proof.
  intros [->|(ma & ea & ->)] [->|(mb & eb & ->)]; try done.
  unfold Math_min.
  destruct (SFcompare (S754_finite false ma ea) (S754_finite false mb eb))
    as [[]|] eqn:Hc.
  - split; [done|apply SFleb_refl_finite].
  - split; [done|]. unfold SFleb. by rewrite Hc.
  - split; [done|apply SFleb_refl_finite].
  - done.
Qed.

(** X14: the buffered duration that the version with time stamps
    displays is a number between 0 and the buffer limit after every
    event, for a clock that does not run backwards. *)
Theorem buffered_duration_range (bufferLimitSeconds : Z)
    (events : list (Blob * Z)) :
  0 <= bufferLimitSeconds < 2 ^ 53 ->
  Forall (fun ev => 0 <= ev.2 < 2 ^ 53) events ->
  Timestamped.nondecreasing (map snd events) = true ->
  let st :=
    Timestamped.deliver bufferLimitSeconds (Timestamped.mkBuffer [] zero)
                        events in
  SFleb zero (Timestamped.bufferedDuration st) = true
  /\ SFleb (Timestamped.bufferedDuration st) (of_Z bufferLimitSeconds)
     = true.
Proof.
  intros Hlim Hrange Hmono.
  pose proof (of_Z_nonneg_cases bufferLimitSeconds Hlim) as Hb.
  induction events as [|[data now] events IH] using rev_ind.
  - cbn. split; [done|]. by destruct Hb as [->|(m & e & ->)].
  - rewrite map_app in Hmono. cbn [map snd] in Hmono.
    apply nondecreasing_snoc in Hmono as [Hmono Hbefore].
    apply Forall_app in Hrange as [Hrange Hnow].
    inversion Hnow as [|? ? Hn _]; subst. cbn [snd] in Hn.
    specialize (IH Hrange Hmono). cbv zeta in IH. cbv zeta.
    pose proof (timestamped_run bufferLimitSeconds events
                  ltac:(lia) Hmono) as Hrun. cbv zeta in Hrun.
    unfold Timestamped.deliver in *. rewrite foldl_app. cbn [foldl fst snd].
    set (st := foldl _ _ events) in *.
    unfold Timestamped.ondataavailable.
    destruct (Z.ltb_spec 0 (Blob_size data)) as [Hpos|Hzero]; [|done].
    cbn [Timestamped.bufferedDuration].
    apply Math_min_range; [|done].
    set (chunks := Timestamped.recent _ _).
    assert (Forall (fun c => 0 <= Timestamped.timestamp c <= now) chunks)
      as Hchunks.
    { unfold chunks, Timestamped.recent. rewrite filter_app.
      apply Forall_app. split.
      - apply Forall_forall. intros c Hc.
        apply list_elem_of_filter in Hc as [_ Hc].
        assert (c ∈ Timestamped.arrived events) as Hin.
        { rewrite Hrun in Hc.
          destruct (last (Timestamped.arrived events)); [|by inversion Hc].
          by apply list_elem_of_filter in Hc as [_ Hc]. }
        pose proof (arrived_times events now Hbefore) as Hle.
        rewrite Forall_forall in Hle. split; [|by apply Hle].
        unfold Timestamped.arrived in Hin.
        apply list_elem_of_fmap in Hin as (ev & -> & Hev).
        apply list_elem_of_filter in Hev as [_ Hev].
        rewrite Forall_forall in Hrange. cbn. by apply Hrange.
      - destruct (decide (now - bufferLimitSeconds * 1000 <= now)).
        + rewrite filter_cons_True by done. repeat constructor; cbn; lia.
        + rewrite filter_cons_False by done. constructor. }
    set (elapsed := now - match chunks with
                          | c :: _ => Timestamped.timestamp c
                          | [] => now
                          end).
    assert (0 <= elapsed < 2 ^ 53) as Hx.
    { unfold elapsed. destruct chunks as [|c rest]; [lia|].
      inversion Hchunks; subst. lia. }
    destruct elapsed as [|x|x]; [by left| |lia].
    right.
    destruct (div_of_Z_lower 1 x 1000 ltac:(done) ltac:(lia) ltac:(done))
      as (mj & M & ej & E & _ & -> & _).
    by eexists _, _.
Qed.

Lemma buffered_duration_range_witness :
  let events := [([1; 2], 1000); ([], 2500); ([3], 4000); ([4; 5], 7500)] in
  let st :=
    Timestamped.deliver 5 (Timestamped.mkBuffer [] zero) events in
  SFleb zero (Timestamped.bufferedDuration st) = true
  /\ SFleb (Timestamped.bufferedDuration st) (of_Z 5) = true.
Proof.
  apply (buffered_duration_range 5
           [([1; 2], 1000); ([], 2500); ([3], 4000); ([4; 5], 7500)]).
  - lia.
  - repeat constructor; cbn [snd]; lia.
  - reflexivity.
Defined.
